(** * OcrDiffAlign: fuzzy alignment of OCR lines against a Hebrew reference

    A shallow embedding of [align.py] / [align-pagexml.py] (the two files
    share [normalize_hebrew], [build_windows], [diff_strings] and
    [align_ocr_lines] verbatim) together with the library routines they
    call: Python's [str] methods, [difflib.ndiff] and rapidfuzz's
    [process.extractOne] / [fuzz.ratio].

    Python strings are sequences of Unicode code points, so a character is
    a code point ([N]) and a string a list of them.  Python integers that
    can go negative (window sizes, slice bounds, [str.find]) are [Z].
    Similarity scores, floats in Python, are exact rationals ([Q]).

    The command-line runs create a directory and write files.  Whether
    such a call fails is not for the program to decide, so the file
    system is a parameter of a run ([Os.FileSystem]): it answers every
    call with success or with an error, and the run goes on or ends as
    the code does.  Text written to the console is not modelled:
    [print] is taken to succeed. *)

From Stdlib Require Import List ZArith NArith QArith Bool Lia Lqa Arith.
From Stdlib Require Import Sorted Permutation.
From Stdlib Require String Ascii.
Import ListNotations String.StringSyntax.
Delimit Scope string_scope with string.
Close Scope Q_scope.
Open Scope nat_scope.

Set Implicit Arguments.

(* ================================================================== *)
(** * Part I. Definitions                                              *)
(* ================================================================== *)

(** ** Python built-ins used by the program *)
Module Py.

Definition char := N.
Definition str := list char.

Definition str_eq_dec : forall a b : str, {a = b} + {a <> b} :=
  list_eq_dec N.eq_dec.

Definition str_eqb (a b : str) : bool :=
  if str_eq_dec a b then true else false.

(** [Py_UNICODE_ISSPACE]: the one predicate behind [str.strip()],
    [str.split()] and the [\s] class of [re] on [str] patterns. *)
Definition isspace (c : char) : bool :=
  (((9 <=? c) && (c <=? 13)) || ((28 <=? c) && (c <=? 32))
   || (c =? 0x85) || (c =? 0xA0) || (c =? 0x1680)
   || ((0x2000 <=? c) && (c <=? 0x200A))
   || (c =? 0x2028) || (c =? 0x2029) || (c =? 0x202F)
   || (c =? 0x205F) || (c =? 0x3000))%N.

Fixpoint dropwhile (p : char -> bool) (s : str) : str :=
  match s with
  | [] => []
  | c :: t => if p c then dropwhile p t else s
  end.

Definition lstrip (s : str) : str := dropwhile isspace s.
Definition rstrip (s : str) : str := rev (dropwhile isspace (rev s)).

(** [s.strip()] *)
Definition strip (s : str) : str := rstrip (lstrip s).

(** [s.split()]: maximal runs of non-whitespace, no empty strings.
    [cur] is the word being read, most recent character first. *)
Fixpoint split_go (cur : str) (s : str) : list str :=
  match s with
  | [] => match cur with [] => [] | _ => [rev cur] end
  | c :: t =>
      if isspace c
      then match cur with
           | [] => split_go [] t
           | _ => rev cur :: split_go [] t
           end
      else split_go (c :: cur) t
  end.

Definition split (s : str) : list str := split_go [] s.

(** [sep.join(l)] *)
Fixpoint join (sep : str) (l : list str) : str :=
  match l with
  | [] => []
  | x :: t => match t with
              | [] => x
              | _ => x ++ sep ++ join sep t
              end
  end.

(** [s.startswith(p)] *)
Fixpoint startswith (s p : str) : bool :=
  match p, s with
  | [], _ => true
  | _ :: _, [] => false
  | y :: p', x :: s' => (x =? y)%N && startswith s' p'
  end.

Fixpoint find_from (s sub : str) (i : Z) : Z :=
  if startswith s sub then i
  else match s with
       | [] => (-1)%Z
       | _ :: t => find_from t sub (i + 1)%Z
       end.

(** [s.find(sub)]: lowest index at which [sub] occurs, [-1] if none. *)
Definition find (s sub : str) : Z := find_from s sub 0%Z.

Definition len {A} (l : list A) : Z := Z.of_nat (List.length l).

(** A slice bound as [PySlice_AdjustIndices] adjusts it (step 1). *)
Definition adjust_index (n i : Z) : Z :=
  (if i <? 0 then Z.max (i + n) 0 else Z.min i n)%Z.

(** [l[lo:hi]] *)
Definition slice {A} (l : list A) (lo hi : Z) : list A :=
  let lo' := adjust_index (len l) lo in
  let hi' := adjust_index (len l) hi in
  firstn (Z.to_nat (hi' - lo')) (skipn (Z.to_nat lo') l).

(** [range(n)] *)
Definition range (n : Z) : list Z := map Z.of_nat (seq 0 (Z.to_nat n)).

(** [l[-1]] on a non-empty sequence, as a one-character string. *)
Definition last_char (d : str) : str :=
  match rev d with
  | [] => []
  | c :: _ => [c]
  end.

End Py.

Import Py.

(** ** [difflib.ndiff] on two strings

    [ndiff(ocr, ref)] is [Differ().compare(ocr, ref)]; the two "files" are
    the strings themselves, so every "line" is one character.  The model
    follows CPython's [difflib] (up to 3.12) with [linejunk = None]: no
    element is junk, and [autojunk] still drops "popular" elements of a
    second sequence of 200 elements or more.  Indices are list positions,
    hence [nat]. *)
Module Difflib.

Inductive tag := Replace | Delete | Insert | Equal.

Definition Match := (nat * nat * nat)%type.
Definition opcode := (tag * nat * nat * nat * nat)%type.

Definition minus_sign : char := 45%N.
Definition plus_sign : char := 43%N.
Definition blank : char := 32%N.

Section SequenceMatcher.

Variables a b : str.

Definition elt (s : str) (i : nat) : char := nth i s 0%N.

Fixpoint indices_from (x : char) (s : str) (j : nat) : list nat :=
  match s with
  | [] => []
  | y :: t => if (x =? y)%N then j :: indices_from x t (S j)
              else indices_from x t (S j)
  end.

(** [__chain_b]: with [n >= 200], an element occurring more than
    [n // 100 + 1] times is popular and removed from [b2j]. *)
Definition popular (x : char) : bool :=
  let n := List.length b in
  let ntest := n / 100 + 1 in
  (200 <=? n) && (ntest <? List.length (indices_from x b 0)).

(** [b2j.get(x, nothing)] *)
Definition b2j_get (x : char) : list nat :=
  if popular x then [] else indices_from x b 0.

(** A [j2len] dictionary and [j2len.get(j - 1, 0)]. *)
Definition j2len_t := list (nat * nat).

Fixpoint j2len_lookup (d : j2len_t) (j : nat) : nat :=
  match d with
  | [] => 0
  | (j', k) :: d' => if j' =? j then k else j2len_lookup d' j
  end.

Definition j2len_get_pred (d : j2len_t) (j : nat) : nat :=
  match j with
  | 0 => 0
  | S j' => j2len_lookup d j'
  end.

Section FindLongestMatch.

Variables alo ahi blo bhi : nat.

(** The inner [for j in b2j.get(a[i], nothing)] loop. *)
Fixpoint scan_j (i : nat) (j2len : j2len_t) (js : list nat)
         (newj2len : j2len_t) (best : Match) : j2len_t * Match :=
  match js with
  | [] => (newj2len, best)
  | j :: js' =>
      if j <? blo then scan_j i j2len js' newj2len best
      else if bhi <=? j then (newj2len, best)
      else
        let k := j2len_get_pred j2len j + 1 in
        let '(_, _, bestsize) := best in
        let best' :=
          if bestsize <? k then (i + 1 - k, j + 1 - k, k) else best in
        scan_j i j2len js' ((j, k) :: newj2len) best'
  end.

(** The outer [for i in range(alo, ahi)] loop. *)
Fixpoint scan_i (is_ : list nat) (j2len : j2len_t) (best : Match) : Match :=
  match is_ with
  | [] => best
  | i :: is' =>
      let '(newj2len, best') := scan_j i j2len (b2j_get (elt a i)) [] best in
      scan_i is' newj2len best'
  end.

(** [while besti > alo and bestj > blo and a[besti-1] == b[bestj-1]] *)
Fixpoint extend_left (besti bestj bestsize : nat) {struct besti} : Match :=
  match besti with
  | 0 => (besti, bestj, bestsize)
  | S besti' =>
      if (alo <? besti) && (blo <? bestj)
         && (elt a (besti - 1) =? elt b (bestj - 1))%N
      then extend_left besti' (bestj - 1) (bestsize + 1)
      else (besti, bestj, bestsize)
  end.

(** [while besti+bestsize < ahi and bestj+bestsize < bhi and
     a[besti+bestsize] == b[bestj+bestsize]]; [room] counts the
    positions left below [ahi]. *)
Fixpoint extend_right (room besti bestj bestsize : nat) : Match :=
  match room with
  | 0 => (besti, bestj, bestsize)
  | S room' =>
      if (besti + bestsize <? ahi) && (bestj + bestsize <? bhi)
         && (elt a (besti + bestsize) =? elt b (bestj + bestsize))%N
      then extend_right room' besti bestj (bestsize + 1)
      else (besti, bestj, bestsize)
  end.

(** The two further loops of the source extend over junk elements only;
    there are none. *)
Definition find_longest_match : Match :=
  let '(besti, bestj, bestsize) :=
    scan_i (seq alo (ahi - alo)) [] (alo, blo, 0) in
  let '(besti, bestj, bestsize) := extend_left besti bestj bestsize in
  extend_right (ahi - (besti + bestsize)) besti bestj bestsize.

End FindLongestMatch.

Definition Match_leb (x y : Match) : bool :=
  let '(i1, j1, k1) := x in
  let '(i2, j2, k2) := y in
  (i1 <? i2) || ((i1 =? i2) && ((j1 <? j2) || ((j1 =? j2) && (k1 <=? k2)))).

Fixpoint insert_sorted (x : Match) (l : list Match) : list Match :=
  match l with
  | [] => [x]
  | y :: t => if Match_leb x y then x :: l else y :: insert_sorted x t
  end.

(** [matching_blocks.sort()] *)
Definition sort_blocks (l : list Match) : list Match :=
  fold_right insert_sorted [] l.

(** The [while queue] loop; the head of [queue] is the end [pop()] takes. *)
Fixpoint blocks_loop (fuel : nat) (queue : list (nat * nat * nat * nat))
         (matching_blocks : list Match) : option (list Match) :=
  match queue with
  | [] => Some matching_blocks
  | (alo, ahi, blo, bhi) :: queue =>
      match fuel with
      | 0 => None
      | S fuel' =>
          let '(i, j, k) := find_longest_match alo ahi blo bhi in
          if k =? 0 then blocks_loop fuel' queue matching_blocks
          else
            let queue := if (alo <? i) && (blo <? j)
                         then (alo, i, blo, j) :: queue else queue in
            let queue := if (i + k <? ahi) && (j + k <? bhi)
                         then (i + k, ahi, j + k, bhi) :: queue else queue in
            blocks_loop fuel' queue (matching_blocks ++ [(i, j, k)])
      end
  end.

(** Collapsing adjacent equal blocks. *)
Fixpoint collapse (blocks : list Match) (i1 j1 k1 : nat) : list Match :=
  match blocks with
  | [] => if k1 =? 0 then [] else [(i1, j1, k1)]
  | (i2, j2, k2) :: rest =>
      if (i1 + k1 =? i2) && (j1 + k1 =? j2)
      then collapse rest i1 j1 (k1 + k2)
      else (if k1 =? 0 then [] else [(i1, j1, k1)]) ++ collapse rest i2 j2 k2
  end.

Definition blocks_fuel : nat := 2 * List.length a + 1.

Definition get_matching_blocks_opt : option (list Match) :=
  let la := List.length a in
  let lb := List.length b in
  match blocks_loop blocks_fuel [(0, la, 0, lb)] [] with
  | None => None
  | Some matching_blocks =>
      Some (collapse (sort_blocks matching_blocks) 0 0 0 ++ [(la, lb, 0)])
  end.

Fixpoint opcodes_loop (blocks : list Match) (i j : nat) : list opcode :=
  match blocks with
  | [] => []
  | (ai, bj, size) :: rest =>
      let gap :=
        if (i <? ai) && (j <? bj) then [(Replace, i, ai, j, bj)]
        else if i <? ai then [(Delete, i, ai, j, bj)]
        else if j <? bj then [(Insert, i, ai, j, bj)]
        else [] in
      let eq := if size =? 0 then []
                else [(Equal, ai, ai + size, bj, bj + size)] in
      gap ++ eq ++ opcodes_loop rest (ai + size) (bj + size)
  end.

Definition get_opcodes_opt : option (list opcode) :=
  match get_matching_blocks_opt with
  | None => None
  | Some blocks => Some (opcodes_loop blocks 0 0)
  end.

(** [Differ._dump]: the lines ['%s %s' % (tag, x[i])]. *)
Definition dump (t : char) (x : str) (lo hi : nat) : list str :=
  map (fun i => [t; blank; elt x i]) (seq lo (hi - lo)).

Definition plain_replace (alo ahi blo bhi : nat) : list str :=
  if bhi - blo <? ahi - alo
  then dump plus_sign b blo bhi ++ dump minus_sign a alo ahi
  else dump minus_sign a alo ahi ++ dump plus_sign b blo bhi.

(** The search of [_fancy_replace].  Two distinct one-character lines
    have [quick_ratio() = 0], so no "close" pair is ever found and only
    the first identical pair ([j] outer, [i] inner) is remembered. *)
Definition first_identical (alo ahi blo bhi : nat) : option (nat * nat) :=
  let hit j :=
    List.find (fun i => (elt a i =? elt b j)%N) (seq alo (ahi - alo)) in
  match List.find (fun j => match hit j with Some _ => true | None => false end)
                  (seq blo (bhi - blo)) with
  | None => None
  | Some j => match hit j with
              | Some i => Some (i, j)
              | None => None
              end
  end.

Fixpoint fancy_replace (fuel alo ahi blo bhi : nat) : option (list str) :=
  match fuel with
  | 0 => None
  | S fuel' =>
      let fancy_helper alo ahi blo bhi :=
        if alo <? ahi
        then if blo <? bhi then fancy_replace fuel' alo ahi blo bhi
             else Some (dump minus_sign a alo ahi)
        else if blo <? bhi then Some (dump plus_sign b blo bhi)
             else Some [] in
      match first_identical alo ahi blo bhi with
      | None => Some (plain_replace alo ahi blo bhi)
      | Some (best_i, best_j) =>
          match fancy_helper alo best_i blo best_j,
                fancy_helper (best_i + 1) ahi (best_j + 1) bhi with
          | Some before, Some after =>
              Some (before ++ [[blank; blank; elt a best_i]] ++ after)
          | _, _ => None
          end
      end
  end.

Definition compare_opcode (op : opcode) : option (list str) :=
  let '(t, alo, ahi, blo, bhi) := op in
  match t with
  | Replace => fancy_replace (S (ahi - alo)) alo ahi blo bhi
  | Delete => Some (dump minus_sign a alo ahi)
  | Insert => Some (dump plus_sign b blo bhi)
  | Equal => Some (dump blank a alo ahi)
  end.

Fixpoint compare_loop (ops : list opcode) : option (list str) :=
  match ops with
  | [] => Some []
  | op :: rest =>
      match compare_opcode op, compare_loop rest with
      | Some g, Some gs => Some (g ++ gs)
      | _, _ => None
      end
  end.

Definition compare_opt : option (list str) :=
  match get_opcodes_opt with
  | None => None
  | Some ops => compare_loop ops
  end.

End SequenceMatcher.

(** [list(difflib.ndiff(a, b))].  The loops above are bounded by a fuel
    that is shown never to run out ([compare_opt_total]). *)
Definition ndiff (a b : str) : list str :=
  match compare_opt a b with
  | Some lines => lines
  | None => []
  end.

End Difflib.

(** ** rapidfuzz: [fuzz.ratio] and [process.extractOne]

    As in rapidfuzz 3: [extractOne] applies no processor unless given
    one, and a missing [score_cutoff] lets every choice take part. *)
Module RapidFuzz.

Definition Qlt_bool (x y : Q) : bool := negb (Qle_bool y x).

(** Length of a longest common subsequence: the Indel similarity of
    [s1] and [s2] is twice this number. *)
Fixpoint lcs (s1 s2 : str) : nat :=
  match s1 with
  | [] => 0
  | x :: s1' =>
      (fix lcs_row (s2 : str) : nat :=
         match s2 with
         | [] => 0
         | y :: s2' =>
             if (x =? y)%N then S (lcs s1' s2')
             else Nat.max (lcs s1' s2) (lcs_row s2')
         end) s2
  end.

(** The normalized Indel similarity scaled to [0, 100]:
    [100 * (1 - distance / (len(s1) + len(s2)))], [100] for two empty
    strings. *)
Definition similarity (s1 s2 : str) : Q :=
  let maximum := List.length s1 + List.length s2 in
  if maximum =? 0 then 100%Q
  else Qred (Z.of_nat (200 * lcs s1 s2) # Pos.of_nat maximum).

(** [fuzz.ratio(s1, s2, score_cutoff=c)]: a score below the cutoff is
    reported as [0]. *)
Definition ratio (s1 s2 : str) (score_cutoff : Q) : Q :=
  let score := similarity s1 s2 in
  if Qlt_bool score score_cutoff then 0%Q else score.

Definition scorer_t := str -> str -> Q -> Q.

(** The loop of [extractOne] for a scorer whose worst score is [0] and
    whose optimal score is [100]; [key] is the index [enumerate] gives. *)
Fixpoint extractOne_loop (scorer : scorer_t) (query : str)
         (choices : list str) (key : nat) (score_cutoff : Q)
         (result : option (str * Q * nat)) : option (str * Q * nat) :=
  match choices with
  | [] => result
  | choice :: rest =>
      let score := scorer query choice score_cutoff in
      let better :=
        Qle_bool score_cutoff score
        && match result with
           | None => true
           | Some (_, best, _) => Qlt_bool best score
           end in
      let score_cutoff' := if better then score else score_cutoff in
      let result' := if better then Some (choice, score, key) else result in
      if Qeq_bool score 100 then result'
      else extractOne_loop scorer query rest (S key) score_cutoff' result'
  end.

(** [process.extractOne(query, choices, scorer=scorer)]; [None] when
    nothing was selected, in particular for no choices at all. *)
Definition extractOne (query : str) (choices : list str) (scorer : scorer_t)
  : option (str * Q * nat) :=
  extractOne_loop scorer query choices 0 0%Q None.

End RapidFuzz.

(** ** Insertion-ordered dictionaries ([dict], [collections.Counter]) *)
Module Dict.

Section WithKey.

Variable K : Type.
Variable K_eqb : K -> K -> bool.
Variable V : Type.

Definition dict := list (K * V).

Fixpoint get (d : dict) (k : K) : option V :=
  match d with
  | [] => None
  | (k', v) :: t => if K_eqb k' k then Some v else get t k
  end.

(** [d[k] = v]: a present key keeps its place, a new one goes last. *)
Fixpoint set (d : dict) (k : K) (v : V) : dict :=
  match d with
  | [] => [(k, v)]
  | (k', v') :: t => if K_eqb k' k then (k', v) :: t
                     else (k', v') :: set t k v
  end.

Definition keys (d : dict) : list K := map fst d.

End WithKey.

(** [dict.fromkeys(l)] *)
Definition fromkeys (l : list str) : dict str unit :=
  fold_left (fun d k => set str_eqb d k tt) l [].

End Dict.

(** ** The file system

    The calls through which a run reaches the file system, and the file
    system as the run meets it: a function from the calls made so far
    and the call at hand to the error it answers, if any.  What is
    written is not part of a call; the rows and lines a run writes are
    fields of its [Output]. *)
Module Os.

(** [FileNotFoundError]; any other [OSError]; [ValueError] with its
    subclass [UnicodeEncodeError]. *)
Inductive error :=
| FileNotFoundError
| OSError
| ValueError.

Inductive call :=
| makedirs (path : str)
| open_w (path : str)
| write (path : str)
| close (path : str).

Definition FileSystem : Type := list call -> call -> option error.

(** A file system on which every call succeeds. *)
Definition obliging (fs : FileSystem) : Prop :=
  forall trace c, fs trace c = None.

Definition always_ok : FileSystem := fun _ _ => None.

End Os.

(** ** The alignment engine ([align.py], [align-pagexml.py]) *)
Module Align.

Definition space : char := 32%N.

(** The class [U+0590 .. U+05FF] plus [\s]; [re.sub] deletes its complement. *)
Definition keeps (c : char) : bool :=
  ((0x0590 <=? c) && (c <=? 0x05FF))%N || isspace c.

Definition normalize_hebrew (text : str) : str :=
  let text := filter keeps text in
  strip text.

Definition build_windows (reference_text : str) (window_size : Z) : list str :=
  let words := split reference_text in
  map (fun i => join [space] (slice words i (i + window_size)))
      (range (len words - window_size + 1)).

(** A logged pair [(ocr_char, ref_char)]; the empty string stands for an
    absent side. *)
Definition confusion := (str * str)%type.

Definition confusion_eqb (x y : confusion) : bool :=
  str_eqb (fst x) (fst y) && str_eqb (snd x) (snd y).

(** The [while i < len(diff)] loop of [diff_strings]. *)
Fixpoint diff_loop (fuel : nat) (diff : list str) (i : nat)
         (confusion_log : list confusion) : list confusion :=
  match fuel with
  | 0 => confusion_log
  | S fuel' =>
      if i <? List.length diff then
        let d := nth i diff [] in
        if startswith d [Difflib.minus_sign] then
          if (i + 1 <? List.length diff)
             && startswith (nth (i + 1) diff []) [Difflib.plus_sign]
          then
            let ocr_char := last_char d in
            let ref_char := last_char (nth (i + 1) diff []) in
            diff_loop fuel' diff (i + 1 + 1)
                      (confusion_log ++ [(ocr_char, ref_char)])
          else
            diff_loop fuel' diff (i + 1) (confusion_log ++ [(last_char d, [])])
        else if startswith d [Difflib.plus_sign] then
          diff_loop fuel' diff (i + 1) (confusion_log ++ [([], last_char d)])
        else diff_loop fuel' diff (i + 1) confusion_log
      else confusion_log
  end.

(** [diff_strings(ocr, ref, confusion_log)] appends to the caller's log;
    the log after the call is returned.  Every iteration advances [i], so
    [len(diff)] iterations are enough. *)
Definition diff_strings (ocr ref : str) (confusion_log : list confusion)
  : list confusion :=
  let diff := Difflib.ndiff ocr ref in
  diff_loop (List.length diff) diff 0 confusion_log.

(** One tuple of [results], which is also one row of the alignment CSV
    ([OCR Line, Best Match, Score, Start Index, Final Match]). *)
Record Row := mkRow {
  ocr_line : str;
  best_match : str;
  score : Q;
  start_index : Z;
  final_match : str
}.

(** The exceptions a run can end in: the [TypeError] of the alignment
    and the errors of the file system. *)
Inductive exn :=
| TypeError
| Failed (e : Os.error).

Inductive result (A : Type) :=
| Ok (a : A)
| Raise (e : exn).
Arguments Ok {A} a.
Arguments Raise {A} e.

Definition bind {A B} (m : result A) (f : A -> result B) : result B :=
  match m with
  | Ok a => f a
  | Raise e => Raise e
  end.

(** A piece of the program that calls the file system: given the calls
    made so far, it returns or raises, and leaves the calls extended. *)
Definition M (A : Type) : Type := list Os.call -> result A * list Os.call.

Definition ret {A} (a : A) : M A := fun trace => (Ok a, trace).

Definition lift {A} (r : result A) : M A := fun trace => (r, trace).

Definition bind_io {A B} (m : M A) (f : A -> M B) : M B :=
  fun trace =>
    match m trace with
    | (Ok a, trace) => f a trace
    | (Raise e, trace) => (Raise e, trace)
    end.

(** A program run from the start of the process. *)
Definition run {A} (m : M A) : result A := fst (m []).

Section WithFileSystem.

Variable fs : Os.FileSystem.

(** One call: the file system answers, and an error is raised. *)
Definition syscall (c : Os.call) : M unit :=
  fun trace =>
    match fs trace c with
    | None => (Ok tt, trace ++ [c])
    | Some e => (Raise (Failed e), trace ++ [c])
    end.

(** [os.makedirs(path, exist_ok=True)].  The empty path cannot be
    created on any file system: [FileNotFoundError]. *)
Definition makedirs (path : str) : M unit :=
  match path with
  | [] => lift (Raise (Failed Os.FileNotFoundError))
  | _ => syscall (Os.makedirs path)
  end.

(** [f.write(...)], [writer.writerow(...)] *)
Definition write (path : str) : M unit := syscall (Os.write path).

(** [with open(path, "w", ...) as f: body].  The file is closed
    however [body] ends; an error of [close] is the one that goes on. *)
Definition with_open {A} (path : str) (body : M A) : M A :=
  fun trace =>
    match syscall (Os.open_w path) trace with
    | (Raise e, trace) => (Raise e, trace)
    | (Ok _, trace) =>
        let '(r, trace) := body trace in
        match syscall (Os.close path) trace with
        | (Raise e, trace) => (Raise e, trace)
        | (Ok _, trace) => (r, trace)
        end
    end.

(** [for x in l: f.write(...)] *)
Fixpoint write_each {A} (path : str) (l : list A) : M unit :=
  match l with
  | [] => ret tt
  | _ :: rest => bind_io (write path) (fun _ => write_each path rest)
  end.

End WithFileSystem.

(** Lines 58-64: the candidate windows of one normalized line. *)
Definition candidates_for (ref_norm norm_line : str) : list str :=
  let ocr_tokens := split norm_line in
  let base_size := len ocr_tokens in
  let window_sizes :=
    filter (fun s => 0 <? s)%Z [base_size - 1; base_size; base_size + 1]%Z in
  let candidates :=
    fold_left (fun candidates w => candidates ++ build_windows ref_norm w)
              window_sizes [] in
  Dict.keys (Dict.fromkeys candidates).

(** The body of [for line in ocr_lines] up to [writer.writerow].
    Unpacking the [None] that [extractOne] returns for no candidates
    raises [TypeError]; nothing in the program catches it. *)
Definition align_line (ref_norm : str)
           (st : list Row * list confusion) (line : str)
  : result (list Row * list confusion) :=
  let '(results, confusion_log) := st in
  let norm_line := normalize_hebrew line in
  let candidates := candidates_for ref_norm norm_line in
  match RapidFuzz.extractOne norm_line candidates RapidFuzz.ratio with
  | None => Raise TypeError
  | Some (match_, score, idx) =>
      let start_index := find ref_norm match_ in
      let confusion_log := diff_strings line match_ confusion_log in
      let final_match := match_ in
      Ok (results ++ [mkRow line match_ score start_index final_match],
          confusion_log)
  end.

(** [for line in ocr_lines]: the row of a line is written to the
    alignment CSV before the next line is read. *)
Fixpoint for_lines (fs : Os.FileSystem) (csv_path ref_norm : str)
         (ocr_lines : list str) (st : list Row * list confusion)
  : M (list Row * list confusion) :=
  match ocr_lines with
  | [] => ret st
  | line :: rest =>
      bind_io (lift (align_line ref_norm st line))
              (fun st =>
                 bind_io (write fs csv_path)
                         (fun _ => for_lines fs csv_path ref_norm rest st))
  end.

(** [Counter(confusion_log)] *)
Definition Counter (log : list confusion) : Dict.dict confusion nat :=
  fold_left
    (fun d x =>
       Dict.set confusion_eqb d x
                (match Dict.get confusion_eqb d x with
                 | Some n => n
                 | None => 0
                 end + 1))
    log [].

Fixpoint insert_by_count (x : confusion * nat) (l : list (confusion * nat))
  : list (confusion * nat) :=
  match l with
  | [] => [x]
  | y :: t => if snd x <? snd y then y :: insert_by_count x t else x :: l
  end.

(** [most_common()]: a stable sort by decreasing count. *)
Definition most_common (d : Dict.dict confusion nat)
  : list (confusion * nat) :=
  fold_right insert_by_count [] d.

Definition of_ascii (s : String.string) : str :=
  map (fun c => N.of_nat (Ascii.nat_of_ascii c))
      (String.list_ascii_of_string s).

(** [os.path.join(outdir, name)] for a relative [name]. *)
Definition path_join (outdir name : str) : str :=
  match rev outdir with
  | [] => name
  | c :: _ => if (c =? 47)%N then outdir ++ name
              else outdir ++ [47%N] ++ name
  end.

Record Summary := mkSummary {
  lines_processed : nat;
  avg_score : Q;
  low_conf : nat;
  low_conf_pct : Q
}.

Definition Qsum (l : list Q) : Q := fold_left Qplus l 0%Q.

Definition summary_report (results : list Row) (threshold : Z) : Summary :=
  let scores := map score results in
  let n := inject_Z (len scores) in
  let avg_score :=
    match scores with [] => 0%Q | _ => (Qsum scores / n)%Q end in
  let low_conf :=
    List.length (filter (fun s => RapidFuzz.Qlt_bool s (inject_Z threshold))
                        scores) in
  let low_conf_pct :=
    match scores with
    | [] => 0%Q
    | _ => (inject_Z (Z.of_nat low_conf) / n * 100)%Q
    end in
  mkSummary (List.length results) avg_score low_conf low_conf_pct.

(** What a run returns and leaves behind: the returned tuple, the final
    [confusion_log], the lines of the text file, the rows of the
    confusion CSV and the printed summary. *)
Record Output := mkOutput {
  results : list Row;
  csv_path : str;
  txt_path : str;
  confusion_path : str;
  confusion_log : list confusion;
  txt_lines : list str;
  confusion_rows : list (confusion * nat);
  summary : Summary
}.

(** [align_ocr_lines(ocr_lines, reference_text, outdir, threshold)] on
    the file system [fs].  [uid] is the value of [uuid.uuid4().hex[:8]]
    drawn by the run. *)
Definition align_ocr_lines (fs : Os.FileSystem) (uid : str)
           (ocr_lines : list str) (reference_text outdir : str)
           (threshold : Z) : M Output :=
  bind_io (makedirs fs outdir) (fun _ =>
  let ref_norm := normalize_hebrew reference_text in
  let csv_path :=
    path_join outdir
              (of_ascii "alignment_"%string ++ uid ++ of_ascii ".csv"%string) in
  let txt_path :=
    path_join outdir
              (of_ascii "alignment_"%string ++ uid ++ of_ascii ".txt"%string) in
  let confusion_path :=
    path_join outdir
              (of_ascii "confusions_"%string ++ uid ++ of_ascii ".csv"%string) in
  bind_io
    (with_open fs csv_path
       (bind_io (write fs csv_path)
                (fun _ => for_lines fs csv_path ref_norm ocr_lines ([], []))))
    (fun '(results, confusion_log) =>
  bind_io
    (with_open fs txt_path (write_each fs txt_path results))
    (fun _ =>
  let confusion_counts := Counter confusion_log in
  bind_io
    (with_open fs confusion_path
       (bind_io (write fs confusion_path)
                (fun _ => write_each fs confusion_path
                                     (most_common confusion_counts))))
    (fun _ =>
  ret (mkOutput results csv_path txt_path confusion_path
                confusion_log
                (map final_match results)
                (most_common confusion_counts)
                (summary_report results threshold)))))).

End Align.

(** ** PAGE-XML reading and rewriting ([align-pagexml.py]) *)
Module PageXml.

Import Align.

(** An [ElementTree] tag: [{namespace}local] or a bare [local]. *)
Record qname := QName { ns : option String.string; local : String.string }.

Definition qname_eqb (x y : qname) : bool :=
  match ns x, ns y with
  | Some n1, Some n2 => String.eqb n1 n2
  | None, None => true
  | _, _ => false
  end && String.eqb (local x) (local y).

#[local] Unset Elimination Schemes.
Inductive Element :=
| Elem (tag : qname) (text : option str) (children : list Element).

#[local] Set Elimination Schemes.

Definition tag_of (e : Element) : qname := let '(Elem t _ _) := e in t.
Definition text_of (e : Element) : option str := let '(Elem _ x _) := e in x.
Definition children_of (e : Element) : list Element :=
  let '(Elem _ _ c) := e in c.

(** [elem.find(tag)]: the first direct child with that tag. *)
Definition find_child (e : Element) (t : qname) : option Element :=
  List.find (fun c => qname_eqb (tag_of c) t) (children_of e).

(** [elem.find(tag).text = new]: the assignment reaches the first direct
    child with that tag. *)
Fixpoint set_first_text (t : qname) (new : str) (cs : list Element)
  : list Element :=
  match cs with
  | [] => []
  | c :: rest =>
      if qname_eqb (tag_of c) t
      then Elem (tag_of c) (Some new) (children_of c) :: rest
      else c :: set_first_text t new rest
  end.

(** A parsed document as the program reaches it: the [TextLine] elements
    that [root.findall('.//{ns}TextLine')] lists, in document order and
    taken to be disjoint subtrees, and what
    [root.find('{ns}LastChange')] finds. *)
Record Document := mkDocument {
  namespace : String.string;
  textline_elements : list Element;
  lastchange_elem : option Element
}.

Section WithNamespace.

Variable namespace_ : String.string.

Definition in_ns (name : String.string) : qname := QName (Some namespace_) name.
Definition bare (name : String.string) : qname := QName None name.

Definition or_else {A} (x y : option A) : option A :=
  match x with
  | Some _ => x
  | None => y
  end.

(** The element whose text [extract_ocr_lines_from_pagexml] reads. *)
Definition extracted_unicode (textline : Element) : option Element :=
  match find_child textline (in_ns "TextEquiv"%string) with
  | Some textequiv_elem =>
      or_else (find_child textequiv_elem (in_ns "Unicode"%string))
              (find_child textequiv_elem (bare "Unicode"%string))
  | None =>
      or_else (find_child textline (in_ns "Unicode"%string))
              (find_child textline (bare "Unicode"%string))
  end.

Fixpoint extract_loop (textline_elements : list Element) : list str :=
  match textline_elements with
  | [] => []
  | textline :: rest =>
      match extracted_unicode textline with
      | Some unicode_elem =>
          match text_of unicode_elem with
          | Some (c :: t) => strip (c :: t) :: extract_loop rest
          | _ => extract_loop rest
          end
      | None => extract_loop rest
      end
  end.

(** The loop of [update_pagexml_with_aligned_text]; [nth_error] is
    [None] exactly when [alignment_idx < len(alignment_results)] fails. *)
Fixpoint update_loop (textline_elements : list Element)
         (alignment_results : list Row) (alignment_idx : nat)
  : list Element :=
  match textline_elements with
  | [] => []
  | textline :: rest =>
      match find_child textline (in_ns "Unicode"%string),
            nth_error alignment_results alignment_idx with
      | Some unicode_elem, Some r =>
          let original_text := ocr_line r in
          let matched_text := best_match r in
          let textline' :=
            if negb (str_eqb original_text matched_text)
               && RapidFuzz.Qlt_bool 50 (score r)
            then Elem (tag_of textline) (text_of textline)
                      (set_first_text (in_ns "Unicode"%string) matched_text
                                      (children_of textline))
            else textline in
          textline' :: update_loop rest alignment_results (alignment_idx + 1)
      | _, _ => textline :: update_loop rest alignment_results alignment_idx
      end
  end.

End WithNamespace.

Definition extract_ocr_lines_from_pagexml (doc : Document) : list str :=
  extract_loop (namespace doc) (textline_elements doc).

(** [now] is [datetime.now().isoformat()]. *)
Definition update_pagexml_with_aligned_text (now : str) (doc : Document)
           (alignment_results : list Row) : Document :=
  mkDocument
    (namespace doc)
    (update_loop (namespace doc) (textline_elements doc) alignment_results 0)
    (match lastchange_elem doc with
     | Some e => Some (Elem (tag_of e) (Some now) (children_of e))
     | None => None
     end).

(** The file part of [write_xml_without_namespace_prefixes]: the XML
    declaration and the serialized tree go to [output_path]. *)
Definition write_xml_file (fs : Os.FileSystem) (output_path : str) : M unit :=
  with_open fs output_path
            (bind_io (write fs output_path)
                     (fun _ => write fs output_path)).

(** [process_pagexml_file] on the file system [fs]: [None] when the
    file has no OCR lines, else the rewritten tree, saved under
    [output_dir/xml], and what the alignment returned.
    [xml_filename] is [Path(xml_path).name]. *)
Definition process_pagexml_file (fs : Os.FileSystem) (uid now : str)
           (xml_filename : str) (doc : Document)
           (reference_text output_dir : str) (threshold : Z)
  : M (option (Document * Output)) :=
  let ocr_lines := extract_ocr_lines_from_pagexml doc in
  match ocr_lines with
  | [] => ret None
  | _ =>
      bind_io
        (align_ocr_lines fs uid ocr_lines reference_text output_dir threshold)
        (fun out =>
           let updated_tree :=
             update_pagexml_with_aligned_text now doc (results out) in
           let aligned_xml_dir :=
             path_join output_dir (of_ascii "xml"%string) in
           bind_io (makedirs fs aligned_xml_dir) (fun _ =>
           let aligned_xml_path := path_join aligned_xml_dir xml_filename in
           bind_io (write_xml_file fs aligned_xml_path) (fun _ =>
           ret (Some (updated_tree, out)))))
  end.

End PageXml.

Import Align.

(** ** Reference definitions, written from the specification *)
Module Spec.

(** Stable de-duplication: an element is kept the first time it is seen
    and dropped afterwards; [seen] lists what was met so far. *)
Fixpoint first_seen (seen : list str) (l : list str) : list str :=
  match l with
  | [] => []
  | x :: t =>
      if in_dec str_eq_dec x seen then first_seen seen t
      else x :: first_seen (seen ++ [x]) t
  end.

Definition stable_dedup (l : list str) : list str := first_seen [] l.

(** One position of a character edit script; the payload is [d[-1]]. *)
Inductive edit :=
| Keep (c : str)
| Del (c : str)
| Ins (c : str).

(** How [diff_strings] reads a line of [ndiff]. *)
Definition edit_of_line (d : str) : edit :=
  if startswith d [Difflib.minus_sign] then Del (last_char d)
  else if startswith d [Difflib.plus_sign] then Ins (last_char d)
  else Keep (last_char d).

(** The pairs of a left-to-right scan with one lookahead: a delete
    directly followed by an insert is one substitution, any other delete
    a deletion, a remaining insert an insertion, an equal position
    nothing. *)
Fixpoint pair_up (es : list edit) : list Align.confusion :=
  match es with
  | [] => []
  | Del a :: Ins b :: rest => (a, b) :: pair_up rest
  | Del a :: rest => (a, []) :: pair_up rest
  | Ins b :: rest => ([], b) :: pair_up rest
  | Keep _ :: rest => pair_up rest
  end.

End Spec.

(** ** Invariants and shapes used in the proofs *)
Module Inv.

(** [for_lines] without its writes: the rows and the log that the loop
    computes, or the [TypeError] it ends in. *)
Fixpoint align_loop (ref_norm : str) (ocr_lines : list str)
         (st : list Align.Row * list Align.confusion)
  : Align.result (list Align.Row * list Align.confusion) :=
  match ocr_lines with
  | [] => Align.Ok st
  | line :: rest =>
      Align.bind (Align.align_line ref_norm st line) (align_loop ref_norm rest)
  end.

(** [align_ocr_lines] without its file-system calls: what the run
    computes, and returns when every call succeeds. *)
Definition alignment (uid : str) (ocr_lines : list str)
           (reference_text outdir : str) (threshold : Z)
  : Align.result Align.Output :=
  let ref_norm := Align.normalize_hebrew reference_text in
  let csv_path :=
    Align.path_join
      outdir
      (Align.of_ascii "alignment_"%string ++ uid
       ++ Align.of_ascii ".csv"%string) in
  let txt_path :=
    Align.path_join
      outdir
      (Align.of_ascii "alignment_"%string ++ uid
       ++ Align.of_ascii ".txt"%string) in
  let confusion_path :=
    Align.path_join
      outdir
      (Align.of_ascii "confusions_"%string ++ uid
       ++ Align.of_ascii ".csv"%string) in
  Align.bind
    (align_loop ref_norm ocr_lines ([], []))
    (fun '(results, confusion_log) =>
       let confusion_counts := Align.Counter confusion_log in
       Align.Ok (Align.mkOutput results csv_path txt_path confusion_path
                                confusion_log
                                (map Align.final_match results)
                                (Align.most_common confusion_counts)
                                (Align.summary_report results threshold))).

(** [m] computes [r], as far as the file system lets it: what [m]
    returns is what [r] returns, and a [TypeError] of [m] is one of
    [r]. *)
Definition computes {A} (m : Align.M A) (r : Align.result A) : Prop :=
  forall trace,
    match fst (m trace) with
    | Align.Ok a => r = Align.Ok a
    | Align.Raise Align.TypeError => r = Align.Raise Align.TypeError
    | Align.Raise (Align.Failed _) => True
    end.

(** [m] ends as [r] does, whatever calls were made before. *)
Definition ends_as {A} (m : Align.M A) (r : Align.result A) : Prop :=
  forall trace, fst (m trace) = r.

(** [process_pagexml_file] without its file-system calls. *)
Definition processing (uid now : str) (doc : PageXml.Document)
           (reference_text output_dir : str) (threshold : Z)
  : Align.result (option (PageXml.Document * Align.Output)) :=
  match PageXml.extract_ocr_lines_from_pagexml doc with
  | [] => Align.Ok None
  | ocr_lines =>
      Align.bind
        (alignment uid ocr_lines reference_text output_dir threshold)
        (fun out =>
           Align.Ok
             (Some (PageXml.update_pagexml_with_aligned_text
                      now doc (Align.results out), out)))
  end.

(** [r] is the row the loop body makes for the raw line [line]: the
    match is selected for the normalized line among its candidates, the
    offset is [ref_norm.find(match)]. *)
Definition row_of (ref_norm line : str) (r : Align.Row) : Prop :=
  Align.ocr_line r = line
  /\ Align.final_match r = Align.best_match r
  /\ Align.start_index r = find ref_norm (Align.best_match r)
  /\ exists idx,
       RapidFuzz.extractOne
         (Align.normalize_hebrew line)
         (Align.candidates_for ref_norm (Align.normalize_hebrew line))
         RapidFuzz.ratio
       = Some (Align.best_match r, Align.score r, idx).

(** A match that lies inside [a[alo:ahi]] and [b[blo:bhi]]. *)
Definition within (alo ahi blo bhi : nat) (m : Difflib.Match) : Prop :=
  let '(i, j, k) := m in
  alo <= i /\ i + k <= ahi /\ blo <= j /\ j + k <= bhi.

(** Every entry [j -> k] of a [j2len] dictionary is a match of length
    [k <= n] that ends at [b[j]] and starts at or after [blo]. *)
Definition lengths_ok (blo n : nat) (d : Difflib.j2len_t) : Prop :=
  Forall (fun p => snd p <= n /\ snd p <= fst p + 1 - blo) d.

(** The work left in the queue of [get_matching_blocks]. *)
Definition queue_ok (queue : list (nat * nat * nat * nat)) : Prop :=
  Forall (fun '(alo, ahi, blo, bhi) => alo <= ahi /\ blo <= bhi) queue.

Fixpoint queue_weight (queue : list (nat * nat * nat * nat)) : nat :=
  match queue with
  | [] => 0
  | (alo, ahi, _, _) :: rest => 2 * (ahi - alo) + 1 + queue_weight rest
  end.

(** The shape of one line of [ndiff] on strings. *)
Definition diff_line (d : str) : Prop :=
  exists t c,
    d = [t; Difflib.blank; c]
    /\ (t = Difflib.minus_sign \/ t = Difflib.plus_sign \/ t = Difflib.blank).

(** A string that is empty or starts with a character [p] rejects. *)
Definition head_kept (p : char -> bool) (s : str) : Prop :=
  match s with
  | [] => True
  | c :: _ => p c = false
  end.

(** [m], with score [s], at index [i] is the first best match of [query]
    in [l]: nothing scores higher and everything before it scores lower. *)
Definition first_best (query : str) (l : list str) (m : str) (s : Q)
           (i : nat) : Prop :=
  nth_error l i = Some m
  /\ s = RapidFuzz.similarity query m
  /\ (forall j c, nth_error l j = Some c ->
                  (RapidFuzz.similarity query c <= s)%Q)
  /\ (forall j c, j < i -> nth_error l j = Some c ->
                  (RapidFuzz.similarity query c < s)%Q).

(** What the row of [line] has to be, said without loops, dictionaries
    or cut-offs: among the windows of the sizes tried, listed by
    increasing size and position with repetitions dropped, the match is
    the one of greatest similarity to the normalized line and, of
    several such, the one listed first; the score is that similarity,
    the offset what [find] gives. *)
Definition selected (ref_norm line : str) (r : Align.Row) : Prop :=
  let norm_line := Align.normalize_hebrew line in
  let base_size := len (split norm_line) in
  let sizes :=
    filter (fun s => 0 <? s)%Z
           [base_size - 1; base_size; base_size + 1]%Z in
  let candidates :=
    Spec.stable_dedup (concat (map (Align.build_windows ref_norm) sizes)) in
  Align.ocr_line r = line
  /\ (exists i,
        first_best norm_line candidates (Align.best_match r)
                   (Align.score r) i)
  /\ Align.start_index r = find ref_norm (Align.best_match r)
  /\ Align.final_match r = Align.best_match r.

(** The state of the [extractOne] loop after the choices [pre]. *)
Definition loop_inv (query : str) (pre : list str) (cutoff : Q)
           (result : option (str * Q * nat)) : Prop :=
  match result with
  | None => pre = [] /\ cutoff = 0%Q
  | Some (m, s, i) => cutoff = s /\ first_best query pre m s i
  end.

End Inv.

(** ** Predicates used to state further properties *)
Module Props.

(** A word as [str.split()] gives it: not empty, no whitespace. *)
Definition word (w : str) : Prop :=
  w <> [] /\ Forall (fun c => isspace c = false) w.

(** [m] is [w] consecutive words of [text], joined by single spaces. *)
Definition window_of (text : str) (w : nat) (m : str) : Prop :=
  exists i,
    i + w <= List.length (split text)
    /\ m = join [Align.space] (firstn w (skipn i (split text))).

(** The smallest window size tried for a line of [base_size] tokens. *)
Definition least_size (base_size : Z) : Z := Z.max 1 (base_size - 1).

(** One side of a logged pair: a single character or nothing. *)
Definition side (x : str) : Prop := x = [] \/ exists c, x = [c].

End Props.

(** ** Predicates on confusion logs and tables *)
Module LogProps.

Import Props.

(** A logged pair has a character on at least one side and at most one
    character on each. *)
Definition well_formed_pair (p : Align.confusion) : Prop :=
  side (fst p) /\ side (snd p) /\ p <> ([], []).

(** An edit whose payload is a single character. *)
Definition char_edit (e : Spec.edit) : Prop :=
  exists c, e = Spec.Keep [c] \/ e = Spec.Del [c] \/ e = Spec.Ins [c].

Definition confusion_eq_dec :
  forall x y : Align.confusion, {x = y} + {x <> y}.
Proof. decide equality; apply str_eq_dec. Defined.

(** The distinct elements of a list in the order of their first
    occurrence. *)
Definition first_occurrences (l : list Align.confusion)
  : list Align.confusion :=
  rev (nodup confusion_eq_dec (rev l)).

(** The table a log should give before it is sorted: every distinct
    pair, in first-logged order, with its number of occurrences. *)
Definition tally (log : list Align.confusion)
  : list (Align.confusion * nat) :=
  map (fun x => (x, count_occ confusion_eq_dec log x)) (first_occurrences log).

(** The order of the confusion CSV: counts never increase. *)
Definition by_count_desc (a b : Align.confusion * nat) : Prop :=
  snd b <= snd a.

End LogProps.

(** ** Predicates on rewritten documents *)
Module DocProps.

Import Align PageXml.

(** [c'] is [c] with, at most, another text, and only if [c] carries
    the tag [t]. *)
Definition same_but_text (t : qname) (c c' : Element) : Prop :=
  tag_of c' = tag_of c
  /\ children_of c' = children_of c
  /\ (text_of c' = text_of c \/ qname_eqb (tag_of c) t = true).

(** A result that makes the rewriting replace a line's text. *)
Definition replaces (r : Row) : Prop :=
  ocr_line r <> best_match r /\ (50 < score r)%Q.

(** [t'] is [t] as the rewriting may leave it: untouched, or with the
    text of its first direct [Unicode] child set to the match of a
    replacing result. *)
Definition rewritten (namespace_ : String.string) (alignment_results : list Row)
           (t t' : Element) : Prop :=
  t' = t
  \/ exists r,
       In r alignment_results
       /\ replaces r
       /\ t' = Elem (tag_of t) (text_of t)
                    (set_first_text (in_ns namespace_ "Unicode"%string)
                                    (best_match r) (children_of t)).

End DocProps.

(** ** Documents that keep [Unicode] directly under [TextLine] *)
Module DirectProps.

Import Align PageXml DocProps.

(** [t] has no [TextEquiv] child and a direct [Unicode] child, in the
    namespace, whose text is [x], not empty. *)
Definition direct_text (namespace_ : String.string) (t : Element) (x : str)
  : Prop :=
  find_child t (in_ns namespace_ "TextEquiv"%string) = None
  /\ x <> []
  /\ exists u,
       find_child t (in_ns namespace_ "Unicode"%string) = Some u
       /\ text_of u = Some x.

(** What the rewriting makes of [t] when it pairs it with [r]. *)
Definition rewrite_with (namespace_ : String.string) (r : Row) (t : Element)
  : Element :=
  if negb (str_eqb (ocr_line r) (best_match r))
     && RapidFuzz.Qlt_bool 50 (score r)
  then Elem (tag_of t) (text_of t)
            (set_first_text (in_ns namespace_ "Unicode"%string)
                            (best_match r) (children_of t))
  else t.

End DirectProps.

(** ** More [str] operations, used on tags and attribute names *)
Module PyStr.

Import Py.

(** [s.split(sep)] for a one-character [sep]: the pieces between its
    occurrences, empty pieces included; never an empty list. *)
Fixpoint split_on (sep : char) (s : str) : list str :=
  match s with
  | [] => [[]]
  | c :: t =>
      if (c =? sep)%N then [] :: split_on sep t
      else match split_on sep t with
           | w :: ws => (c :: w) :: ws
           | [] => [[c]]
           end
  end.

(** [sub in s] *)
Fixpoint contains (s sub : str) : bool :=
  startswith s sub
  || match s with
     | [] => false
     | _ :: t => contains t sub
     end.

End PyStr.

(** ** Namespace detection ([align-pagexml.py]) *)
Module Namespace.

Import Py PyStr.

Definition lbrace : char := 123%N.
Definition rbrace : char := 125%N.

Definition PAGE_NAMESPACES : Dict.dict str str :=
  map (fun '(version, namespace) =>
         (Align.of_ascii version, Align.of_ascii namespace))
      [("2009-03-16",
        "http://schema.primaresearch.org/PAGE/gts/pagecontent/2009-03-16");
       ("2010-01-12",
        "http://schema.primaresearch.org/PAGE/gts/pagecontent/2010-01-12");
       ("2010-03-19",
        "http://schema.primaresearch.org/PAGE/gts/pagecontent/2010-03-19");
       ("2013-07-15",
        "http://schema.primaresearch.org/PAGE/gts/pagecontent/2013-07-15");
       ("2014-08-26",
        "http://schema.primaresearch.org/PAGE/gts/pagecontent/2014-08-26");
       ("2016-07-15",
        "http://schema.primaresearch.org/PAGE/gts/pagecontent/2016-07-15");
       ("2017-07-15",
        "http://schema.primaresearch.org/PAGE/gts/pagecontent/2017-07-15");
       ("2018-07-15",
        "http://schema.primaresearch.org/PAGE/gts/pagecontent/2018-07-15");
       ("2019-07-15",
        "http://schema.primaresearch.org/PAGE/gts/pagecontent/2019-07-15")
      ]%string.

(** [PAGE_NAMESPACES['2019-07-15']] *)
Definition most_recent : str :=
  match Dict.get str_eqb PAGE_NAMESPACES (Align.of_ascii "2019-07-15"%string) with
  | Some namespace => namespace
  | None => []
  end.

(** What [detect_page_namespace] reads of the parsed file: the root's
    tag and [root.get('{http://www.w3.org/2000/xmlns/}xmlns')]. *)
Record Root := mkRoot {
  root_tag : str;
  xmlns : option str
}.

(** The [for version, namespace in PAGE_NAMESPACES.items()] loop. *)
Fixpoint first_namespace_in (items : Dict.dict str str) (xmlns : str)
  : option str :=
  match items with
  | [] => None
  | (version, namespace) :: rest =>
      if contains xmlns namespace then Some namespace
      else first_namespace_in rest xmlns
  end.

(** [detect_page_namespace(xml_path)]; the argument is [None] when
    [ET.parse] raises, which the [except] clause answers with the most
    recent namespace. *)
Definition detect_page_namespace (parsed : option Root) : str :=
  match parsed with
  | None => most_recent
  | Some root =>
      if startswith (root_tag root) [lbrace]
      then
        let namespace := skipn 1 (hd [] (split_on rbrace (root_tag root))) in
        namespace
      else
        match xmlns root with
        | Some (c :: t) =>
            match first_namespace_in PAGE_NAMESPACES (c :: t) with
            | Some namespace => namespace
            | None => most_recent
            end
        | _ => most_recent
        end
  end.

End Namespace.

(** ** Writing the tree without namespaces ([align-pagexml.py])

    [write_xml_without_namespace_prefixes] rebuilds the tree that
    [ET.parse] produced as an [lxml] tree, which it then serializes.
    The model stops at the rebuilt tree.  Tags and attribute names are
    strings in [ElementTree]'s [{namespace}local] notation; attributes
    are an insertion-ordered dictionary; [text] and [tail] are [None]
    or a string. *)
Module Writer.

Import Py PyStr.

#[local] Unset Elimination Schemes.
Inductive Node :=
| mkNode (tag : str) (attrib : Dict.dict str str)
         (text tail : option str) (children : list Node).

#[local] Set Elimination Schemes.

Definition tag (n : Node) : str := let '(mkNode t _ _ _ _) := n in t.
Definition attrib (n : Node) : Dict.dict str str :=
  let '(mkNode _ a _ _ _) := n in a.
Definition text (n : Node) : option str := let '(mkNode _ _ x _ _) := n in x.
Definition tail (n : Node) : option str := let '(mkNode _ _ _ x _) := n in x.
Definition children (n : Node) : list Node :=
  let '(mkNode _ _ _ _ c) := n in c.

(** [name.split('}')[-1] if '}' in name else name] *)
Definition without_namespace (name : str) : str :=
  if contains name [Namespace.rbrace]
  then last (split_on Namespace.rbrace name) []
  else name.

(** The attribute loop: [new.set(new_key, value)] for every item. *)
Definition copy_attrib (attrib : Dict.dict str str) : Dict.dict str str :=
  fold_left
    (fun new '(key, value) =>
       let new_key := without_namespace key in
       Dict.set str_eqb new new_key value)
    attrib [].

(** [if x: new.x = x]: an empty string is not copied. *)
Definition if_nonempty (x : option str) : option str :=
  match x with
  | Some (_ :: _) => x
  | _ => None
  end.

(** One iteration of [copy_element]'s loop: the copy of [child] that is
    appended to [dest]. *)
Fixpoint copy_child (child : Node) : Node :=
  let '(mkNode tag attrib text tail children) := child in
  mkNode (without_namespace tag) (copy_attrib attrib)
         (if_nonempty text) (if_nonempty tail)
         (map copy_child children).

Definition copy_element (src : Node) : list Node :=
  map copy_child (children src).

(** The tree handed to [etree.tostring]. *)
Definition write_xml_without_namespace_prefixes (root : Node) : Node :=
  mkNode (without_namespace (tag root)) (copy_attrib (attrib root))
         None None (copy_element root).

End Writer.

(** ** Batches of files ([align-pagexml.py]) *)
Module Batch.

Import Py Align PageXml.

(** One file of a batch: its name ([Path(xml_path).name]), its parsed
    content, and the values drawn while it is processed:
    [uuid.uuid4().hex[:8]] and [datetime.now().isoformat()]. *)
Record XmlFile := mkXmlFile {
  file_name : str;
  file_doc : Document;
  file_uid : str;
  file_now : str
}.

(** [input_path]: a file, or a directory with its [glob("*.xml")]. *)
Inductive InputPath :=
| IsFile (f : XmlFile)
| IsDirectory (xml_files : list XmlFile).

Definition process (fs : Os.FileSystem) (reference_text output_dir : str)
           (threshold : Z) (f : XmlFile) : M (option (Document * Output)) :=
  process_pagexml_file fs (file_uid f) (file_now f) (file_name f) (file_doc f)
                       reference_text output_dir threshold.

(** The [for xml_file in xml_files] loop. *)
Fixpoint directory_loop (fs : Os.FileSystem) (reference_text output_dir : str)
         (threshold : Z) (xml_files : list XmlFile)
         (results : list (option (Document * Output)))
  : M (list (option (Document * Output))) :=
  match xml_files with
  | [] => ret results
  | xml_file :: rest =>
      bind_io (process fs reference_text output_dir threshold xml_file)
              (fun result =>
                 directory_loop fs reference_text output_dir threshold rest
                                (match result with
                                 | Some _ => results ++ [result]
                                 | None => results
                                 end))
  end.

Definition process_pagexml_directory (fs : Os.FileSystem)
           (input_path : InputPath) (reference_text output_dir : str)
           (threshold : Z) : M (list (option (Document * Output))) :=
  match input_path with
  | IsFile f =>
      bind_io (process fs reference_text output_dir threshold f)
              (fun result => ret [result])
  | IsDirectory xml_files =>
      match xml_files with
      | [] => ret []
      | _ => directory_loop fs reference_text output_dir threshold xml_files []
      end
  end.

End Batch.

(** ** Predicates on rebuilt trees and batches *)
Module TreeProps.

Import Py PyStr Writer.

Definition namespace_free (name : str) : bool :=
  negb (contains name [Namespace.rbrace]).

(** No tag and no attribute name of the tree holds a closing brace. *)
Fixpoint all_namespace_free (n : Node) : bool :=
  let '(mkNode tag attrib _ _ children) := n in
  namespace_free tag
  && forallb (fun kv => namespace_free (fst kv)) attrib
  && forallb all_namespace_free children.

(** The number of elements of a tree. *)
Fixpoint size (n : Node) : nat :=
  let '(mkNode _ _ _ _ children) := n in
  S (list_sum (map size children)).

(** The text content in document order: each element's text, then its
    children, then its tail. *)
Fixpoint content (n : Node) : str :=
  let '(mkNode _ _ text tail children) := n in
  match text with Some x => x | None => [] end
  ++ concat (map content children)
  ++ match tail with Some x => x | None => [] end.

End TreeProps.

(** ** The Streamlit front end ([streamlit/app.py])

    [normalize_hebrew] and [build_windows] are the same text as in
    [align.py]; the embedding shares them. *)
Module App.

Import Py.

(** One entry of the front end's log:
    [(ocr, ref, ocr_char, ref_char)]. *)
Definition entry : Type := str * str * str * str.

Section Markup.

(** How a deleted and an inserted character are displayed. *)
Variables red green : str -> str.

(** The [while i < len(diff)] loop shared by [diff_strings] and
    [diff_strings_html], which differ in the markup only. *)
Fixpoint diff_loop (fuel : nat) (ocr ref : str) (diff : list str) (i : nat)
         (out : list str) (confusion_log : list entry)
  : list str * list entry :=
  match fuel with
  | 0 => (out, confusion_log)
  | S fuel' =>
      if i <? List.length diff then
        let d := nth i diff [] in
        if startswith d [Difflib.blank] then
          diff_loop fuel' ocr ref diff (i + 1) (out ++ [last_char d])
                    confusion_log
        else if startswith d [Difflib.minus_sign] then
          if (i + 1 <? List.length diff)
             && startswith (nth (i + 1) diff []) [Difflib.plus_sign]
          then
            let ocr_char := last_char d in
            let ref_char := last_char (nth (i + 1) diff []) in
            diff_loop fuel' ocr ref diff (i + 1 + 1)
                      (out ++ [red ocr_char] ++ [green ref_char])
                      (confusion_log ++ [(ocr, ref, ocr_char, ref_char)])
          else
            diff_loop fuel' ocr ref diff (i + 1)
                      (out ++ [red (last_char d)])
                      (confusion_log ++ [(ocr, ref, last_char d, [])])
        else if startswith d [Difflib.plus_sign] then
          diff_loop fuel' ocr ref diff (i + 1)
                    (out ++ [green (last_char d)])
                    (confusion_log ++ [(ocr, ref, [], last_char d)])
        else diff_loop fuel' ocr ref diff (i + 1) out confusion_log
      else (out, confusion_log)
  end.

(** The returned string and the log after the call. *)
Definition diff_with (ocr ref : str) (confusion_log : list entry)
  : str * list entry :=
  let diff := Difflib.ndiff ocr ref in
  let '(out, confusion_log) :=
    diff_loop (List.length diff) ocr ref diff 0 [] confusion_log in
  (concat out, confusion_log).

End Markup.

Definition quote : str := [34%N].

Definition md_red (c : str) : str :=
  Align.of_ascii ":red["%string ++ c ++ Align.of_ascii "]"%string.
Definition md_green (c : str) : str :=
  Align.of_ascii ":green["%string ++ c ++ Align.of_ascii "]"%string.

Definition span (color c : str) : str :=
  Align.of_ascii "<span style="%string ++ quote
  ++ Align.of_ascii "color:"%string ++ color
  ++ Align.of_ascii ";font-weight:bold"%string ++ quote
  ++ Align.of_ascii ">"%string ++ c ++ Align.of_ascii "</span>"%string.
Definition html_red (c : str) : str := span (Align.of_ascii "red"%string) c.
Definition html_green (c : str) : str :=
  span (Align.of_ascii "green"%string) c.

Definition diff_strings := diff_with md_red md_green.
Definition diff_strings_html := diff_with html_red html_green.

(** One dictionary of [results]. *)
Record Result := mkResult {
  line_num : Z;
  ocr : str;
  match_ : str;
  score : Q;
  index : Z;
  final_match : str;
  diff : str
}.

(** The body of [for line_num, line in enumerate(ocr_lines, start=1)]. *)
Definition align_line (ref_norm : str) (st : list Result * list entry)
           (line_num : Z) (line : str)
  : Align.result (list Result * list entry) :=
  let '(results, confusion_log) := st in
  let norm_line := Align.normalize_hebrew line in
  let candidates := Align.candidates_for ref_norm norm_line in
  match RapidFuzz.extractOne norm_line candidates RapidFuzz.ratio with
  | None => Align.Raise Align.TypeError
  | Some (match_, score, idx) =>
      let start_index := find ref_norm match_ in
      let '(diff_str, confusion_log) :=
        diff_strings_html line match_ confusion_log in
      Align.Ok (results ++ [mkResult line_num line match_ score start_index
                                     match_ diff_str],
                confusion_log)
  end.

Fixpoint align_loop (ref_norm : str) (ocr_lines : list str) (line_num : Z)
         (st : list Result * list entry)
  : Align.result (list Result * list entry) :=
  match ocr_lines with
  | [] => Align.Ok st
  | line :: rest =>
      Align.bind (align_line ref_norm st line_num line)
                 (align_loop ref_norm rest (line_num + 1))
  end.

Definition align_ocr_lines (ocr_lines : list str) (reference_text : str)
           (threshold : Z) : Align.result (list Result * list entry) :=
  let ref_norm := Align.normalize_hebrew reference_text in
  align_loop ref_norm ocr_lines 1 ([], []).

(** *** Session state, pagination and navigation *)

Record SessionState := mkState {
  page : Z;
  results : list Result;
  confusions : list entry
}.

Definition initial : SessionState := mkState 0 [] [].

Definition page_size : Z := 10.

Definition total_pages (results : list Result) : Z :=
  match results with
  | [] => 1
  | _ => (len results - 1) / page_size + 1
  end.

Definition current_page_results (page : Z) (results : list Result)
  : list Result :=
  let start := (page * page_size)%Z in
  let end_ := (start + page_size)%Z in
  slice results start end_.

Inductive Exn := TypeError | IndexError.

(** How a piece of the script ends, with what it leaves behind. *)
Inductive Outcome (A : Type) :=
| Done (a : A)
| Abort (e : Exn) (a : A).
Arguments Done {A} a.
Arguments Abort {A} e a.

(** [r["final_match"] = r["match"]] *)
Definition persist (r : Result) : Result :=
  mkResult (line_num r) (ocr r) (match_ r) (score r) (index r)
           (match_ r) (diff r).

(** The list with [f] applied at position [k]. *)
Fixpoint update_at {A} (f : A -> A) (k : nat) (l : list A) : list A :=
  match l, k with
  | [], _ => []
  | x :: t, 0 => f x :: t
  | x :: t, S k' => x :: update_at f k' t
  end.

(** The position that the subscript [l[k]] denotes; [None] when it
    raises [IndexError]. *)
Definition position {A} (l : list A) (k : Z) : option nat :=
  let k' := (if k <? 0 then k + len l else k)%Z in
  if ((0 <=? k') && (k' <? len l))%Z then Some (Z.to_nat k') else None.

(** The loop [for i, r in enumerate(current_page_results)], [n]
    iterations from [i].  The dictionaries of the slice are those of
    [results]: item [i] of the slice is the object at position [lo + i],
    [lo] being the adjusted lower bound of the slice.
    [r["final_match"] = r["match"]] changes that object in place;
    [results[start + i] = r] then stores it at the position that
    [start + i] denotes. *)
Fixpoint display_loop (n i : nat) (start : Z) (lo : nat)
         (results : list Result) : Outcome (list Result) :=
  match n with
  | 0 => Done results
  | S n' =>
      let results := update_at persist (lo + i) results in
      match position results (start + Z.of_nat i) with
      | Some k =>
          let r := nth (lo + i) results (mkResult 0 [] [] 0 0 [] []) in
          display_loop n' (i + 1) start lo (update_at (fun _ => r) k results)
      | None => Abort IndexError results
      end
  end.

Inductive Event :=
| RunAlignment (ocr_lines : list str) (reference_text : str) (threshold : Z)
| Previous
| Next
| NoClick.

(** [if st.button("Run Alignment"): ...] *)
Definition run_alignment (e : Event) (st : SessionState)
  : Outcome SessionState :=
  match e with
  | RunAlignment ocr_lines reference_text threshold =>
      match ocr_lines with
      | [] => Done st
      | _ =>
          match align_ocr_lines ocr_lines reference_text threshold with
          | Align.Ok (results, confusion_log) =>
              Done (mkState 0 results confusion_log)
          | Align.Raise _ => Abort TypeError st
          end
      end
  | _ => Done st
  end.

(** The navigation buttons: the state they leave and whether
    [st.rerun()] was called.  A button that is not drawn reports no
    click. *)
Definition navigation (e : Event) (total_pages : Z) (st : SessionState)
  : SessionState * bool :=
  match e with
  | Previous =>
      if (page st >? 0)%Z
      then (mkState (page st - 1) (results st) (confusions st), true)
      else (st, false)
  | Next =>
      if (page st <? total_pages - 1)%Z
      then (mkState (page st + 1) (results st) (confusions st), true)
      else (st, false)
  | _ => (st, false)
  end.

(** One execution of the script from top to bottom, [e] being the
    button that reports a click in it. *)
Definition script_run (e : Event) (st : SessionState)
  : Outcome (SessionState * bool) :=
  match run_alignment e st with
  | Abort x st => Abort x (st, false)
  | Done st =>
      let results := results st in
      let total_pages := total_pages results in
      let start := (page st * page_size)%Z in
      let current_page_results := current_page_results (page st) results in
      match results with
      | [] => Done (st, false)
      | _ =>
          let lo := Z.to_nat (adjust_index (len results) start) in
          match display_loop (List.length current_page_results) 0 start lo
                             results with
          | Abort x results =>
              Abort x (mkState (page st) results (confusions st), false)
          | Done results =>
              Done (navigation e total_pages
                               (mkState (page st) results (confusions st)))
          end
      end
  end.

(** A click and the script runs it causes: [st.rerun()] starts the
    script again, with no button reporting a click. *)
Definition script (e : Event) (st : SessionState) : Outcome SessionState :=
  match script_run e st with
  | Abort x (st, _) => Abort x st
  | Done (st, false) => Done st
  | Done (st, true) =>
      match script_run NoClick st with
      | Abort x (st, _) => Abort x st
      | Done (st, _) => Done st
      end
  end.

Definition state_of {A} (r : Outcome A) : A :=
  match r with
  | Done a => a
  | Abort _ a => a
  end.

(** The session after a sequence of clicks. *)
Definition session (events : list Event) : SessionState :=
  fold_left (fun st e => state_of (script e st)) events initial.

End App.

(** ** Predicates on the front end's results and state *)
Module AppProps.

Import Py.

(** The row of the alignment CSV that the front end writes for a
    result. *)
Definition row_of_result (r : App.Result) : Align.Row :=
  Align.mkRow (App.ocr r) (App.match_ r) (App.score r) (App.index r)
              (App.final_match r).

(** The character pair of a log entry. *)
Definition pair_of_entry (x : App.entry) : Align.confusion :=
  let '(_, _, c, cw) := x in (c, cw).

Definition tagged (ocr ref : str) (x : Align.confusion) : App.entry :=
  let '(c, cw) := x in (ocr, ref, c, cw).

Definition page_valid (st : App.SessionState) : Prop :=
  (0 <= App.page st < App.total_pages (App.results st))%Z.

Definition persisted (r : App.Result) : Prop :=
  App.final_match r = App.match_ r.

(** The page number is in range and no result was edited. *)
Definition valid (st : App.SessionState) : Prop :=
  page_valid st /\ Forall persisted (App.results st).

(** The clicks that do not start an alignment. *)
Definition keeps_results (e : App.Event) : bool :=
  match e with
  | App.RunAlignment _ _ _ => false
  | _ => true
  end.

End AppProps.

(** ** Predicates on batches *)
Module BatchProps.

Import Py Align PageXml Batch.

(** Some OCR line of the file has no candidate window in the
    reference. *)
Definition no_candidates_in (reference_text : str) (f : XmlFile) : Prop :=
  Exists (fun line =>
            candidates_for (normalize_hebrew reference_text)
                           (normalize_hebrew line) = [])
         (extract_ocr_lines_from_pagexml (file_doc f)).

(** [if result:] *)
Definition kept (r : option (Document * Output)) : bool :=
  match r with
  | Some _ => true
  | None => false
  end.

(** The file has OCR lines. *)
Definition has_lines (f : XmlFile) : Prop :=
  extract_ocr_lines_from_pagexml (file_doc f) <> [].

(** What processing the file computes, file-system calls apart. *)
Definition processed (reference_text output_dir : str) (threshold : Z)
           (f : XmlFile) : result (option (Document * Output)) :=
  Inv.processing (file_uid f) (file_now f) (file_doc f)
                 reference_text output_dir threshold.

(** [directory_loop] without its file-system calls. *)
Fixpoint directory_results (reference_text output_dir : str) (threshold : Z)
         (xml_files : list XmlFile)
         (results : list (option (Document * Output)))
  : result (list (option (Document * Output))) :=
  match xml_files with
  | [] => Ok results
  | xml_file :: rest =>
      bind (processed reference_text output_dir threshold xml_file)
           (fun result =>
              directory_results reference_text output_dir threshold rest
                                (match result with
                                 | Some _ => results ++ [result]
                                 | None => results
                                 end))
  end.

End BatchProps.

(* ================================================================== *)
(** * Part II. Theorems                                                *)
(* ================================================================== *)

(** ** Normalisation *)

Import Spec Inv.

Section Dropwhile.

Variable p : char -> bool.

Lemma dropwhile_suffix (s : str) : exists w, s = w ++ dropwhile p s.
Proof.
  induction s as [|c s [w IH]]; simpl.
  - now exists [].
  - destruct (p c).
    + exists (c :: w). simpl. now rewrite <- IH.
    + now exists [].
Qed.

Lemma dropwhile_head_kept (s : str) : head_kept p (dropwhile p s).
Proof.
  induction s as [|c s IH]; simpl; [exact I|].
  destruct (p c) eqn:E; [exact IH | exact E].
Qed.

Lemma dropwhile_fixed (s : str) : head_kept p s -> dropwhile p s = s.
Proof.
  destruct s as [|c s]; simpl; [reflexivity|].
  intros ->. reflexivity.
Qed.

Lemma dropwhile_idem (s : str) :
  dropwhile p (dropwhile p s) = dropwhile p s.
Proof. apply dropwhile_fixed, dropwhile_head_kept. Qed.

Lemma head_kept_prefix (v w : str) :
  head_kept p (v ++ w) -> head_kept p v.
Proof. destruct v; simpl; auto. Qed.

Lemma dropwhile_Forall (P : char -> Prop) (s : str) :
  Forall P s -> Forall P (dropwhile p s).
Proof.
  intros H. destruct (dropwhile_suffix s) as [w E].
  rewrite E in H. now apply Forall_app in H.
Qed.

End Dropwhile.

Lemma rstrip_prefix (s : str) : exists w, s = rstrip s ++ w.
Proof.
  unfold rstrip. destruct (dropwhile_suffix isspace (rev s)) as [w E].
  exists (rev w). rewrite <- rev_app_distr, <- E. now rewrite rev_involutive.
Qed.

Lemma rstrip_idem (s : str) : rstrip (rstrip s) = rstrip s.
Proof. unfold rstrip. now rewrite rev_involutive, dropwhile_idem. Qed.

Lemma lstrip_rstrip_lstrip (s : str) :
  lstrip (rstrip (lstrip s)) = rstrip (lstrip s).
Proof.
  unfold lstrip at 1. apply dropwhile_fixed.
  destruct (rstrip_prefix (lstrip s)) as [w E].
  apply head_kept_prefix with (w := w). rewrite <- E.
  apply dropwhile_head_kept.
Qed.

Lemma strip_idem (s : str) : strip (strip s) = strip s.
Proof.
  unfold strip. now rewrite lstrip_rstrip_lstrip, rstrip_idem.
Qed.

Lemma strip_Forall (P : char -> Prop) (s : str) :
  Forall P s -> Forall P (strip s).
Proof.
  intros H. unfold strip, rstrip, lstrip.
  apply Forall_rev, dropwhile_Forall, Forall_rev, dropwhile_Forall, H.
Qed.

Lemma filter_Forall_true (f : char -> bool) (s : str) :
  Forall (fun c => f c = true) (filter f s).
Proof.
  induction s as [|c s IH]; simpl; [constructor|].
  destruct (f c) eqn:E; auto.
Qed.

Lemma filter_fixed (f : char -> bool) (s : str) :
  Forall (fun c => f c = true) s -> filter f s = s.
Proof.
  induction 1 as [|c s Hc _ IH]; simpl; [reflexivity|].
  now rewrite Hc, IH.
Qed.

(** C10. Normalisation is idempotent: a normalized string holds only
    kept characters and has no whitespace at either end, so the second
    pass removes nothing. *)
Theorem normalize_hebrew_idempotent (text : str) :
  normalize_hebrew (normalize_hebrew text) = normalize_hebrew text.
Proof.
  unfold normalize_hebrew.
  rewrite filter_fixed.
  - apply strip_idem.
  - apply strip_Forall, filter_Forall_true.
Qed.

(** ** Window generation *)

Lemma range_length (n : Z) : List.length (range n) = Z.to_nat n.
Proof. unfold range. now rewrite length_map, length_seq. Qed.

Lemma range_nth_error (n : Z) (i : nat) :
  i < Z.to_nat n -> nth_error (range n) i = Some (Z.of_nat i).
Proof.
  intros H. unfold range.
  rewrite nth_error_map, nth_error_seq.
  destruct (Nat.ltb_spec i (Z.to_nat n)); [reflexivity | lia].
Qed.

(** Inside the bounds Python's slice is the plain [firstn]/[skipn]. *)
Lemma slice_in_bounds {A} (l : list A) (i : nat) (w : Z) :
  (0 <= w)%Z -> (Z.of_nat i + w <= len l)%Z ->
  slice l (Z.of_nat i) (Z.of_nat i + w) = firstn (Z.to_nat w) (skipn i l).
Proof.
  intros Hw Hi. unfold slice, adjust_index.
  destruct (Z.ltb_spec (Z.of_nat i) 0); [lia|].
  destruct (Z.ltb_spec (Z.of_nat i + w) 0); [lia|].
  rewrite !Z.min_l by lia.
  replace (Z.of_nat i + w - Z.of_nat i)%Z with w by lia.
  now rewrite Nat2Z.id.
Qed.

Lemma window_words_length {A} (l : list A) (i : nat) (w : Z) :
  (0 <= w)%Z -> (Z.of_nat i + w <= len l)%Z ->
  List.length (firstn (Z.to_nat w) (skipn i l)) = Z.to_nat w.
Proof.
  intros Hw Hi. unfold len in Hi.
  rewrite length_firstn, length_skipn. lia.
Qed.

(** C4. For [n] reference words and a positive window size [w],
    [build_windows] returns exactly [max(0, n - w + 1)] windows; window
    [i] is the [w] words [i, i+w) joined by single spaces, in
    increasing [i]; for [w > n] the result is the empty list. *)
Theorem build_windows_spec (reference_text : str) (w : Z) :
  (0 < w)%Z ->
  let words := split reference_text in
  let n := len words in
  List.length (build_windows reference_text w)
  = Z.to_nat (Z.max 0 (n - w + 1))
  /\ (forall i : nat,
         i < Z.to_nat (n - w + 1) ->
         nth_error (build_windows reference_text w) i
         = Some (join [space] (firstn (Z.to_nat w) (skipn i words)))
         /\ List.length (firstn (Z.to_nat w) (skipn i words)) = Z.to_nat w)
  /\ ((n < w)%Z -> build_windows reference_text w = []).
Proof.
  intros Hw words n. unfold build_windows. fold words. fold n.
  split; [|split].
  - rewrite length_map, range_length. lia.
  - intros i Hi.
    assert (Hb : (Z.of_nat i + w <= len words)%Z) by (fold n; lia).
    rewrite nth_error_map, range_nth_error by exact Hi. simpl.
    rewrite slice_in_bounds by lia.
    split; [reflexivity | apply window_words_length; lia].
  - intros Hn. unfold range.
    replace (Z.to_nat (n - w + 1)) with 0 by lia. reflexivity.
Qed.

Lemma build_windows_spec_witness :
  let text := [1488; 32; 1489; 32; 1490]%N in
  (0 < 2)%Z
  /\ build_windows text 2 = [[1488; 32; 1489]; [1489; 32; 1490]]%N
  /\ List.length (build_windows text 2)
     = Z.to_nat (Z.max 0 (len (split text) - 2 + 1)).
Proof.
  split; [lia|]. split; [reflexivity|].
  apply (build_windows_spec [1488; 32; 1489; 32; 1490]%N (w := 2)). lia.
Defined.


(** ** Candidate sets *)

Lemma str_eqb_eq (x y : str) : str_eqb x y = true <-> x = y.
Proof.
  unfold str_eqb. destruct (str_eq_dec x y); split; congruence.
Qed.

Lemma str_eqb_refl (x : str) : str_eqb x x = true.
Proof. now apply str_eqb_eq. Qed.

Lemma str_eqb_neq (x y : str) : str_eqb x y = false <-> x <> y.
Proof.
  unfold str_eqb. destruct (str_eq_dec x y); split; congruence.
Qed.

Lemma keys_set_present (d : Dict.dict str unit) (k : str) :
  In k (Dict.keys d) -> Dict.keys (Dict.set str_eqb d k tt) = Dict.keys d.
Proof.
  induction d as [|[k' v] d IH]; simpl; [tauto|].
  intros H. destruct (str_eqb k' k) eqn:E; simpl; [reflexivity|].
  apply str_eqb_neq in E. destruct H as [H|H]; [congruence|].
  now rewrite IH.
Qed.

Lemma keys_set_absent (d : Dict.dict str unit) (k : str) :
  ~ In k (Dict.keys d) ->
  Dict.keys (Dict.set str_eqb d k tt) = Dict.keys d ++ [k].
Proof.
  induction d as [|[k' v] d IH]; simpl; [reflexivity|].
  intros H. destruct (str_eqb k' k) eqn:E; simpl.
  - apply str_eqb_eq in E. tauto.
  - rewrite IH; [reflexivity | tauto].
Qed.

Lemma keys_fold_set (l : list str) (d : Dict.dict str unit) :
  Dict.keys (fold_left (fun d k => Dict.set str_eqb d k tt) l d)
  = Dict.keys d ++ Spec.first_seen (Dict.keys d) l.
Proof.
  revert d. induction l as [|x l IH]; intros d; simpl.
  - now rewrite app_nil_r.
  - rewrite IH. destruct (in_dec str_eq_dec x (Dict.keys d)) as [Hin|Hout].
    + now rewrite keys_set_present.
    + rewrite keys_set_absent by exact Hout. now rewrite <- app_assoc.
Qed.

(** [list(dict.fromkeys(l))] is the stable de-duplication of [l]. *)
Lemma fromkeys_stable_dedup (l : list str) :
  Dict.keys (Dict.fromkeys l) = Spec.stable_dedup l.
Proof. unfold Dict.fromkeys. now rewrite keys_fold_set. Qed.

Lemma first_seen_In (l seen : list str) (y : str) :
  In y (Spec.first_seen seen l) <-> In y l /\ ~ In y seen.
Proof.
  revert seen. induction l as [|x l IH]; intros seen; simpl; [tauto|].
  destruct (in_dec str_eq_dec x seen) as [Hin|Hout]; simpl; rewrite IH.
  - split; [tauto|]. intros [[->|H] Hn]; tauto.
  - rewrite in_app_iff. simpl.
    destruct (str_eq_dec x y) as [->|Hne]; tauto.
Qed.

Lemma first_seen_NoDup (l seen : list str) : NoDup (Spec.first_seen seen l).
Proof.
  revert seen. induction l as [|x l IH]; intros seen; simpl; [constructor|].
  destruct (in_dec str_eq_dec x seen); [apply IH|].
  constructor; [|apply IH].
  rewrite first_seen_In, in_app_iff. simpl. tauto.
Qed.

Lemma first_seen_congr (l seen seen' : list str) :
  (forall y, In y seen <-> In y seen') ->
  Spec.first_seen seen l = Spec.first_seen seen' l.
Proof.
  revert seen seen'. induction l as [|x l IH]; intros seen seen' H; simpl;
    [reflexivity|].
  destruct (in_dec str_eq_dec x seen) as [H1|H1],
           (in_dec str_eq_dec x seen') as [H2|H2];
    try (apply H in H1; tauto); try (apply H in H2; tauto).
  - now apply IH.
  - f_equal. apply IH. intros y. rewrite !in_app_iff, H. tauto.
Qed.

Lemma first_seen_app (l1 l2 seen : list str) :
  Spec.first_seen seen (l1 ++ l2)
  = Spec.first_seen seen l1
    ++ Spec.first_seen (seen ++ Spec.first_seen seen l1) l2.
Proof.
  revert seen. induction l1 as [|x l1 IH]; intros seen; simpl.
  - now rewrite app_nil_r.
  - destruct (in_dec str_eq_dec x seen); rewrite IH; [reflexivity|].
    simpl. f_equal. f_equal. now rewrite <- app_assoc.
Qed.

(** The survivors that precede the first occurrence of [x] are the
    values met before it. *)
Lemma stable_dedup_order (l1 l2 : list str) (x : str) :
  ~ In x l1 ->
  exists r1 r2,
    Spec.stable_dedup (l1 ++ x :: l2) = r1 ++ x :: r2
    /\ forall y, In y r1 <-> In y l1.
Proof.
  intros Hx. unfold Spec.stable_dedup. rewrite first_seen_app. simpl.
  destruct (in_dec str_eq_dec x (Spec.first_seen [] l1)) as [Hin|Hout].
  - apply first_seen_In in Hin. tauto.
  - eexists _, _. split; [reflexivity|].
    intros y. rewrite first_seen_In. simpl. tauto.
Qed.

Lemma fold_extend {A B} (f : B -> list A) (l : list B) (acc : list A) :
  fold_left (fun c w => c ++ f w) l acc = acc ++ concat (map f l).
Proof.
  revert acc. induction l as [|w l IH]; intros acc; simpl.
  - now rewrite app_nil_r.
  - now rewrite IH, app_assoc.
Qed.

(** C5. For a normalized line of [base_size] tokens the window sizes
    are [base_size-1, base_size, base_size+1] filtered to the positive
    ones; the windows of the selected sizes are concatenated in
    increasing size and de-duplicated stably: no string is repeated,
    every string of the concatenation survives, and the survivors ahead
    of a string are exactly the strings met before its first
    occurrence. *)
Theorem candidates_for_spec (ref_norm norm_line : str) :
  let base_size := len (split norm_line) in
  let sizes :=
    filter (fun s => 0 <? s)%Z
           [base_size - 1; base_size; base_size + 1]%Z in
  let all := concat (map (build_windows ref_norm) sizes) in
  let candidates := candidates_for ref_norm norm_line in
  (base_size = 0%Z -> sizes = [1%Z])
  /\ (base_size = 1%Z -> sizes = [1; 2]%Z)
  /\ ((2 <= base_size)%Z ->
      sizes = [base_size - 1; base_size; base_size + 1]%Z)
  /\ candidates = Spec.stable_dedup all
  /\ NoDup candidates
  /\ (forall x, In x candidates <-> In x all)
  /\ (forall l1 x l2,
         all = l1 ++ x :: l2 -> ~ In x l1 ->
         exists r1 r2,
           candidates = r1 ++ x :: r2 /\ forall y, In y r1 <-> In y l1).
Proof.
  intros base_size sizes all candidates.
  assert (E : candidates = Spec.stable_dedup all).
  { unfold candidates, candidates_for. fold base_size. fold sizes.
    now rewrite fold_extend, fromkeys_stable_dedup. }
  repeat split.
  - intros H. unfold sizes. now rewrite H.
  - intros H. unfold sizes. now rewrite H.
  - intros H. unfold sizes. simpl.
    destruct (Z.ltb_spec 0 (base_size - 1)); [|lia].
    destruct (Z.ltb_spec 0 base_size); [|lia].
    destruct (Z.ltb_spec 0 (base_size + 1)); [|lia].
    reflexivity.
  - exact E.
  - rewrite E. apply first_seen_NoDup.
  - rewrite E. unfold Spec.stable_dedup. rewrite first_seen_In. tauto.
  - rewrite E. unfold Spec.stable_dedup. rewrite first_seen_In. simpl. tauto.
  - intros l1 x l2 Hall Hx. rewrite E, Hall.
    now apply stable_dedup_order.
Qed.

Lemma candidates_for_spec_witness :
  let ref_norm := [1488; 32; 1488; 32; 1489]%N in
  let norm_line := [1488]%N in
  candidates_for ref_norm norm_line
  = [[1488]; [1489]; [1488; 32; 1488]; [1488; 32; 1489]]%N
  /\ exists r1 r2,
       candidates_for ref_norm norm_line = r1 ++ [1489]%N :: r2
       /\ forall y, In y r1 <-> In y [[1488]; [1488]]%N.
Proof.
  split; [reflexivity|].
  apply (candidates_for_spec [1488; 32; 1488; 32; 1489]%N [1488]%N)
    with (l2 := [[1488; 32; 1488]; [1488; 32; 1489]]%N).
  - reflexivity.
  - simpl. intros [H|[H|[]]]; discriminate H.
Defined.


(** ** Match selection *)

Import RapidFuzz.

Lemma Qlt_bool_iff (x y : Q) : Qlt_bool x y = true <-> (x < y)%Q.
Proof.
  unfold Qlt_bool. rewrite negb_true_iff.
  destruct (Qle_bool y x) eqn:E.
  - apply Qle_bool_iff in E. split; [discriminate | lra].
  - split; [|reflexivity]. intros _.
    destruct (Qlt_le_dec x y) as [H|H]; [exact H|].
    apply Qle_bool_iff in H. congruence.
Qed.

Lemma Qlt_bool_false (x y : Q) : Qlt_bool x y = false <-> (y <= x)%Q.
Proof.
  destruct (Qlt_bool x y) eqn:E.
  - apply Qlt_bool_iff in E. split; [discriminate | lra].
  - split; [|reflexivity]. intros _.
    destruct (Qlt_le_dec x y) as [H|H]; [|exact H].
    apply Qlt_bool_iff in H. congruence.
Qed.

Lemma lcs_le_left (s1 s2 : str) : lcs s1 s2 <= List.length s1.
Proof.
  revert s2. induction s1 as [|x s1 IH]; intros s2; [simpl; lia|].
  induction s2 as [|y s2 IH2]; [simpl; lia|].
  simpl in *. destruct (x =? y)%N.
  - specialize (IH s2). lia.
  - specialize (IH (y :: s2)). lia.
Qed.

Lemma lcs_le_right (s1 s2 : str) : lcs s1 s2 <= List.length s2.
Proof.
  revert s2. induction s1 as [|x s1 IH]; intros s2; [simpl; lia|].
  induction s2 as [|y s2 IH2]; [simpl; lia|].
  simpl in *. destruct (x =? y)%N.
  - specialize (IH s2). lia.
  - specialize (IH (y :: s2)). simpl in IH. lia.
Qed.

(** Scores lie in [0, 100]. *)
Lemma similarity_bounds (s1 s2 : str) :
  (0 <= similarity s1 s2 <= 100)%Q.
Proof.
  unfold similarity.
  destruct (Nat.eqb_spec (List.length s1 + List.length s2) 0) as [E|E].
  - lra.
  - rewrite Qred_correct.
    pose proof (lcs_le_left s1 s2). pose proof (lcs_le_right s1 s2).
    assert (Hp : Z.pos (Pos.of_nat (List.length s1 + List.length s2))
                 = Z.of_nat (List.length s1 + List.length s2)).
    { rewrite <- positive_nat_Z, Nat2Pos.id by exact E. reflexivity. }
    unfold Qle. cbn [Qnum Qden]. rewrite Hp. lia.
Qed.

Lemma ratio_cutoff (s1 s2 : str) (c : Q) :
  ratio s1 s2 c
  = if Qlt_bool (similarity s1 s2) c then 0%Q else similarity s1 s2.
Proof. reflexivity. Qed.

Section ExtractOne.

Variable query : str.


Lemma first_best_snoc_keep (pre : list str) (x m : str) (s : Q) (i : nat) :
  first_best query pre m s i -> (similarity query x <= s)%Q -> first_best query (pre ++ [x]) m s i.
Proof.
  intros (Hn & Hs & Hall & Hbefore) Hx.
  assert (Hi : i < List.length pre) by (apply nth_error_Some; congruence).
  repeat split.
  - now rewrite nth_error_app1.
  - exact Hs.
  - intros j c Hj.
    destruct (Nat.lt_ge_cases j (List.length pre)) as [Hlt|Hge].
    + rewrite nth_error_app1 in Hj by exact Hlt. eauto.
    + rewrite nth_error_app2 in Hj by exact Hge.
      destruct (j - List.length pre) as [|k]; simpl in Hj.
      * injection Hj as <-. exact Hx.
      * destruct k; discriminate.
  - intros j c Hji Hj.
    rewrite nth_error_app1 in Hj by lia. eauto.
Qed.

Lemma first_best_snoc_new (pre : list str) (x : str) :
  (forall j c, nth_error pre j = Some c -> (similarity query c < similarity query x)%Q) ->
  first_best query (pre ++ [x]) x (similarity query x) (List.length pre).
Proof.
  intros Hlt. repeat split.
  - rewrite nth_error_app2, Nat.sub_diag by lia. reflexivity.
  - intros j c Hj.
    destruct (Nat.lt_ge_cases j (List.length pre)) as [Hl|Hge].
    + rewrite nth_error_app1 in Hj by exact Hl.
      apply Qlt_le_weak. eauto.
    + rewrite nth_error_app2 in Hj by exact Hge.
      destruct (j - List.length pre) as [|k]; simpl in Hj.
      * injection Hj as <-. lra.
      * destruct k; discriminate.
  - intros j c Hji Hj.
    rewrite nth_error_app1 in Hj by lia. eauto.
Qed.

Lemma first_best_app_top (pre rest : list str) (m : str) (s : Q) (i : nat) :
  first_best query pre m s i -> (100 <= s)%Q -> first_best query (pre ++ rest) m s i.
Proof.
  intros (Hn & Hs & Hall & Hbefore) Htop.
  assert (Hi : i < List.length pre) by (apply nth_error_Some; congruence).
  repeat split.
  - now rewrite nth_error_app1.
  - exact Hs.
  - intros j c _. pose proof (similarity_bounds query c). lra.
  - intros j c Hji Hj.
    rewrite nth_error_app1 in Hj by lia. eauto.
Qed.

Lemma extractOne_loop_spec (rest pre : list str) (cutoff : Q)
      (result : option (str * Q * nat)) :
  loop_inv query pre cutoff result ->
  match extractOne_loop ratio query rest (List.length pre) cutoff result with
  | None => pre ++ rest = []
  | Some (m, s, i) => first_best query (pre ++ rest) m s i
  end.
Proof.
  revert pre cutoff result.
  induction rest as [|x rest IH]; intros pre cutoff result Hinv.
  - simpl. rewrite app_nil_r.
    destruct result as [[[m s] i]|]; simpl in Hinv; tauto.
  - (* one iteration on [x] *)
    pose proof (similarity_bounds query x) as Hb.
    assert (Hstep : pre ++ x :: rest = (pre ++ [x]) ++ rest)
      by now rewrite <- app_assoc.
    assert (Hlen : S (List.length pre) = List.length (pre ++ [x]))
      by (rewrite length_app; simpl; lia).
    cbn [extractOne_loop]. rewrite ratio_cutoff.
    destruct result as [[[m s] i]|]; simpl in Hinv.
    + destruct Hinv as [-> Hbest].
      assert (Hs : (0 <= s <= 100)%Q).
      { destruct Hbest as (_ & -> & _). apply similarity_bounds. }
      destruct (Qlt_bool (similarity query x) s) eqn:Ecut.
      * (* below the cutoff: reported as 0, never better *)
        apply Qlt_bool_iff in Ecut.
        assert (Eb : Qle_bool s 0 && Qlt_bool s 0 = false).
        { apply andb_false_intro2, Qlt_bool_false. lra. }
        rewrite Eb. cbn [Qeq_bool Qnum Qden]. simpl Z.eqb.
        cbv iota. rewrite Hstep, Hlen.
        apply IH. simpl. split; [reflexivity|].
        apply first_best_snoc_keep; [exact Hbest | lra].
      * apply Qlt_bool_false in Ecut.
        assert (Ele : Qle_bool s (similarity query x) = true) by now apply Qle_bool_iff.
        rewrite Ele. cbn [andb].
        destruct (Qlt_bool s (similarity query x)) eqn:Elt.
        -- (* strictly better: [x] becomes the result *)
           apply Qlt_bool_iff in Elt.
           assert (Hnew : first_best query (pre ++ [x]) x (similarity query x) (List.length pre)).
           { apply first_best_snoc_new. intros j c Hj.
             destruct Hbest as (_ & _ & Hall & _).
             specialize (Hall j c Hj). lra. }
           destruct (Qeq_bool (similarity query x) 100) eqn:Etop.
           ++ apply Qeq_bool_iff in Etop. rewrite Hstep.
              apply first_best_app_top; [exact Hnew | lra].
           ++ rewrite Hstep, Hlen. apply IH. simpl. tauto.
        -- (* a tie: the earlier one stays *)
           apply Qlt_bool_false in Elt.
           assert (Hkeep : first_best query (pre ++ [x]) m s i)
             by (apply first_best_snoc_keep; [exact Hbest | lra]).
           destruct (Qeq_bool (similarity query x) 100) eqn:Etop.
           ++ apply Qeq_bool_iff in Etop. rewrite Hstep.
              apply first_best_app_top; [exact Hkeep | lra].
           ++ rewrite Hstep, Hlen. apply IH. simpl. tauto.
    + (* nothing selected yet: the first element always is *)
      destruct Hinv as [-> ->].
      assert (Ecut : Qlt_bool (similarity query x) 0 = false)
        by (apply Qlt_bool_false; lra).
      rewrite Ecut.
      assert (Ele : Qle_bool 0 (similarity query x) = true) by (apply Qle_bool_iff; lra).
      rewrite Ele. cbn [andb].
      assert (Hnew : first_best query ([] ++ [x]) x (similarity query x) (List.length (@nil str))).
      { apply first_best_snoc_new. intros [|j] c Hj; discriminate. }
      destruct (Qeq_bool (similarity query x) 100) eqn:Etop.
      * apply Qeq_bool_iff in Etop. rewrite Hstep.
        apply first_best_app_top; [exact Hnew | lra].
      * rewrite Hstep, Hlen. apply IH. simpl. tauto.
Qed.

End ExtractOne.

Lemma extractOne_nil (query : str) (scorer : scorer_t) :
  extractOne query [] scorer = None.
Proof. reflexivity. Qed.

Lemma extractOne_some (query : str) (candidates : list str) :
  candidates <> [] ->
  exists m s i,
    extractOne query candidates ratio = Some (m, s, i)
    /\ first_best query candidates m s i.
Proof.
  intros Hne. unfold extractOne.
  pose proof (@extractOne_loop_spec query candidates [] 0%Q None) as H.
  simpl in H. specialize (H (conj eq_refl eq_refl)).
  destruct (extractOne_loop ratio query candidates 0 0%Q None)
    as [[[m s] i]|].
  - now exists m, s, i.
  - contradiction.
Qed.

(** C6. On a non-empty candidate sequence the selector returns a
    candidate of greatest similarity to the line, with its score and
    its index; every candidate before it scores strictly less, so among
    tied candidates the earliest one is returned. *)
Theorem extractOne_picks_first_best (norm_line : str) (candidates : list str) :
  candidates <> [] ->
  exists match_ score idx,
    extractOne norm_line candidates ratio = Some (match_, score, idx)
    /\ nth_error candidates idx = Some match_
    /\ score = similarity norm_line match_
    /\ (forall j c, nth_error candidates j = Some c ->
                    (similarity norm_line c <= score)%Q)
    /\ (forall j c, j < idx -> nth_error candidates j = Some c ->
                    (similarity norm_line c < score)%Q).
Proof.
  intros Hne.
  destruct (extractOne_some norm_line Hne) as (m & s & i & E & Hbest).
  exists m, s, i. split; [exact E | exact Hbest].
Qed.

Lemma extractOne_picks_first_best_witness :
  let line := [1488; 1489]%N in
  let candidates := [[1490]; [1488; 1491]; [1491; 1489]; [1488; 1492]]%N in
  candidates <> []
  /\ extractOne line candidates ratio = Some ([1488; 1491]%N, 50%Q, 1)
  /\ exists match_ score idx,
       extractOne line candidates ratio = Some (match_, score, idx)
       /\ nth_error candidates idx = Some match_
       /\ score = similarity line match_
       /\ (forall j c, nth_error candidates j = Some c ->
                       (similarity line c <= score)%Q)
       /\ (forall j c, j < idx -> nth_error candidates j = Some c ->
                       (similarity line c < score)%Q).
Proof.
  split; [discriminate|]. split; [reflexivity|].
  apply extractOne_picks_first_best. discriminate.
Defined.


(** ** Confusion extraction *)

Lemma skipn_cons_nth {A} (l : list A) (i : nat) (d : A) :
  i < List.length l -> skipn i l = nth i l d :: skipn (S i) l.
Proof.
  revert i. induction l as [|x l IH]; intros [|i] H; simpl in *;
    try lia; [reflexivity|].
  apply IH. lia.
Qed.

Lemma startswith_nil (d : str) : startswith d [] = true.
Proof. now destruct d. Qed.

Lemma startswith_plus_not_minus (d : str) :
  startswith d [Difflib.plus_sign] = true ->
  startswith d [Difflib.minus_sign] = false.
Proof.
  destruct d as [|c d]; simpl; [discriminate|].
  rewrite startswith_nil, !andb_true_r.
  intros H. apply N.eqb_eq in H. now subst c.
Qed.

Lemma pair_up_delete_alone (a : str) (rest : list edit) :
  (forall b rest', rest <> Ins b :: rest') ->
  pair_up (Del a :: rest) = (a, []) :: pair_up rest.
Proof.
  intros H. destruct rest as [|[c|c|c] rest]; try reflexivity.
  now destruct (H c rest).
Qed.

(** The index loop computes the scan of the lines not yet visited. *)
Lemma diff_loop_pair_up (fuel : nat) (diff : list str) (i : nat)
      (log : list confusion) :
  List.length diff - i <= fuel ->
  diff_loop fuel diff i log
  = log ++ pair_up (map edit_of_line (skipn i diff)).
Proof.
  revert i log. induction fuel as [|fuel IH]; intros i log Hfuel.
  - simpl. rewrite skipn_all2 by lia. simpl. now rewrite app_nil_r.
  - cbn [diff_loop].
    destruct (Nat.ltb_spec i (List.length diff)) as [Hi|Hi].
    2:{ rewrite skipn_all2 by lia. simpl. now rewrite app_nil_r. }
    rewrite (skipn_cons_nth diff []) by exact Hi.
    set (d := nth i diff []).
    cbn [map]. unfold edit_of_line at 1.
    destruct (startswith d [Difflib.minus_sign]) eqn:Em.
    + destruct (Nat.ltb_spec (i + 1) (List.length diff)) as [Hi1|Hi1].
      * replace (i + 1) with (S i) in * by lia.
        rewrite (skipn_cons_nth diff []) by exact Hi1.
        set (d' := nth (S i) diff []).
        cbn [map andb].
        destruct (startswith d' [Difflib.plus_sign]) eqn:Ep.
        -- unfold edit_of_line at 1.
           rewrite (startswith_plus_not_minus d' Ep), Ep.
           rewrite IH by lia. replace (S i + 1) with (S (S i)) by lia.
           cbn [pair_up]. now rewrite <- app_assoc.
        -- rewrite IH by lia.
           rewrite (skipn_cons_nth diff []) by exact Hi1. fold d'.
           cbn [map]. rewrite pair_up_delete_alone.
           ++ now rewrite <- app_assoc.
           ++ intros b rest'. unfold edit_of_line. rewrite Ep.
              destruct (startswith d' [Difflib.minus_sign]); discriminate.
      * cbn [andb]. rewrite IH by lia.
        replace (i + 1) with (S i) by lia.
        rewrite skipn_all2 by lia. simpl. now rewrite <- app_assoc.
    + replace (i + 1) with (S i) by lia.
      destruct (startswith d [Difflib.plus_sign]) eqn:Ep;
        rewrite IH by lia; cbn [pair_up];
        [now rewrite <- app_assoc | reflexivity].
Qed.

(** C7. Confusion extraction scans an edit script left to right,
    whatever alignment produced it: a delete directly followed by an
    insert gives one substitution pair, a delete with no insert right
    after it gives [(a_char, absent)], a remaining insert gives
    [(absent, b_char)], an equal position gives nothing; [diff_strings]
    does so on the script of its two strings, and for "alef bet gimel"
    against "alef bet dalet" the log receives exactly [(gimel, dalet)]. *)
Theorem diff_strings_pairs :
  (forall diff log,
      diff_loop (List.length diff) diff 0 log
      = log ++ pair_up (map edit_of_line diff))
  /\ (forall ocr ref log,
         diff_strings ocr ref log
         = log ++ pair_up (map edit_of_line (Difflib.ndiff ocr ref)))
  /\ (forall a b rest, pair_up (Del a :: Ins b :: rest) = (a, b) :: pair_up rest)
  /\ (forall a rest,
         (forall b rest', rest <> Ins b :: rest') ->
         pair_up (Del a :: rest) = (a, []) :: pair_up rest)
  /\ (forall b rest, pair_up (Ins b :: rest) = ([], b) :: pair_up rest)
  /\ (forall c rest, pair_up (Keep c :: rest) = pair_up rest)
  /\ diff_strings [1488; 1489; 1490]%N [1488; 1489; 1491]%N []
     = [([1490]%N, [1491]%N)].
Proof.
  split; [|split; [|split; [|split; [|split; [|split]]]]];
    try reflexivity.
  - intros diff log. now rewrite diff_loop_pair_up by lia.
  - intros ocr ref log. unfold diff_strings.
    now rewrite diff_loop_pair_up by lia.
  - exact pair_up_delete_alone.
Qed.

Lemma diff_strings_pairs_witness :
  (forall b rest', [Keep [1489]%N] <> Ins b :: rest')
  /\ pair_up (Del [1488]%N :: [Keep [1489]%N])
     = ([1488]%N, []) :: pair_up [Keep [1489]%N].
Proof.
  split; [discriminate|].
  apply diff_strings_pairs. discriminate.
Defined.

(** The insertion and deletion examples of the specification. *)
Example diff_strings_insertion :
  diff_strings [1488; 1489]%N [1488; 1489; 1490]%N [] = [([], [1490]%N)].
Proof. reflexivity. Qed.

Example diff_strings_deletion :
  diff_strings [1488; 1489; 1490]%N [1488; 1489]%N [] = [([1490]%N, [])].
Proof. reflexivity. Qed.

(** ** The per-line loop *)

(** What one iteration leaves in [results] for its line. *)
Lemma align_line_inv (ref_norm : str) (rows : list Row)
      (log : list confusion) (line : str) :
  match align_line ref_norm (rows, log) line with
  | Raise e =>
      e = TypeError
      /\ candidates_for ref_norm (normalize_hebrew line) = []
  | Ok (rows', log') =>
      exists r,
        rows' = rows ++ [r]
        /\ log' = diff_strings (ocr_line r) (best_match r) log
        /\ row_of ref_norm line r
  end.
Proof.
  unfold align_line.
  destruct (candidates_for ref_norm (normalize_hebrew line)) as [|c cs] eqn:Ec.
  - rewrite extractOne_nil. now split.
  - destruct (@extractOne_some (normalize_hebrew line) (c :: cs))
      as (m & s & i & E & Hbest); [discriminate|].
    rewrite E. eexists. split; [reflexivity|]. split; [reflexivity|].
    unfold row_of. simpl. rewrite Ec. eauto.
Qed.

Lemma align_loop_raises (ref_norm : str) (pre post : list str) (line : str)
      (st : list Row * list confusion) :
  candidates_for ref_norm (normalize_hebrew line) = [] ->
  align_loop ref_norm (pre ++ line :: post) st = Raise TypeError.
Proof.
  intros Hnone. revert st.
  induction pre as [|l pre IH]; intros [rows log]; cbn [app align_loop].
  - unfold align_line. rewrite Hnone, extractOne_nil. reflexivity.
  - pose proof (align_line_inv ref_norm rows log l) as H.
    destruct (align_line ref_norm (rows, log) l) as [st'|e]; simpl.
    + apply IH.
    + destruct H as [-> _]. reflexivity.
Qed.

(** A run that returns has one row per line, in order, each made from
    the raw line, and a log grown by [diff_strings] row after row. *)
Lemma align_loop_ok (ref_norm : str) (ocr_lines : list str)
      (rows : list Row) (log : list confusion)
      (rows' : list Row) (log' : list confusion) :
  align_loop ref_norm ocr_lines (rows, log) = Ok (rows', log') ->
  exists new,
    rows' = rows ++ new
    /\ Forall2 (row_of ref_norm) ocr_lines new
    /\ log' = fold_left (fun log r => diff_strings (ocr_line r) (best_match r) log)
                        new log.
Proof.
  revert rows log. induction ocr_lines as [|l ls IH]; intros rows log;
    cbn [align_loop].
  - intros [= <- <-]. exists []. rewrite app_nil_r. repeat split. constructor.
  - pose proof (align_line_inv ref_norm rows log l) as H.
    destruct (align_line ref_norm (rows, log) l) as [[rows1 log1]|e]; simpl;
      [|discriminate].
    destruct H as (r & -> & -> & Hr). intros Hrest.
    destruct (IH _ _ Hrest) as (new & -> & Hnew & ->).
    exists (r :: new). rewrite <- app_assoc. repeat split.
    now constructor.
Qed.

Lemma align_loop_total (ref_norm : str) (ocr_lines : list str)
      (st : list Row * list confusion) :
  Forall (fun l => candidates_for ref_norm (normalize_hebrew l) <> [])
         ocr_lines ->
  exists st', align_loop ref_norm ocr_lines st = Ok st'.
Proof.
  intros H. revert st. induction H as [|l ls Hl _ IH]; intros [rows log];
    cbn [align_loop]; [eauto|].
  pose proof (align_line_inv ref_norm rows log l) as Hi.
  destruct (align_line ref_norm (rows, log) l) as [st'|e]; simpl.
  - apply IH.
  - destruct Hi as [_ Hi]. contradiction.
Qed.

(** ** Runs and the file system *)

Section FileSystemCalls.

Variable fs : Os.FileSystem.

Lemma computes_ret {A} (a : A) : computes (ret a) (Ok a).
Proof. intros trace. reflexivity. Qed.

Lemma computes_lift {A} (r : result A) : computes (lift r) r.
Proof. intros trace. cbn. now destruct r as [a|[|e]]. Qed.

Lemma computes_bind {A B} (m : M A) (f : A -> M B)
      (r : result A) (g : A -> result B) :
  computes m r -> (forall a, computes (f a) (g a)) ->
  computes (bind_io m f) (bind r g).
Proof.
  intros Hm Hf trace. unfold bind_io. specialize (Hm trace).
  destruct (m trace) as [[a|[|e]] trace']; cbn [fst] in *.
  - rewrite Hm. cbn [bind]. apply Hf.
  - now rewrite Hm.
  - exact I.
Qed.

Lemma computes_syscall (c : Os.call) : computes (syscall fs c) (Ok tt).
Proof. intros trace. unfold syscall. now destruct (fs trace c). Qed.

Lemma computes_makedirs (path : str) : computes (makedirs fs path) (Ok tt).
Proof.
  destruct path as [|c path]; [intros trace; exact I|].
  apply computes_syscall.
Qed.

Lemma computes_with_open {A} (path : str) (body : M A) (r : result A) :
  computes body r -> computes (with_open fs path body) r.
Proof.
  intros Hbody trace. unfold with_open, syscall.
  destruct (fs trace (Os.open_w path)); [exact I|].
  specialize (Hbody (trace ++ [Os.open_w path])).
  destruct (body (trace ++ [Os.open_w path])) as [res trace'].
  destruct (fs trace' (Os.close path)); [exact I | exact Hbody].
Qed.

Lemma computes_write_each {A} (path : str) (l : list A) :
  computes (write_each fs path l) (Ok tt).
Proof.
  induction l as [|x l IH]; [apply computes_ret|].
  cbn [write_each].
  apply (@computes_bind _ _ _ _ (Ok tt) (fun _ => Ok tt));
    [apply computes_syscall | intros _; exact IH].
Qed.

Lemma computes_for_lines (csv_path ref_norm : str) (ocr_lines : list str)
      (st : list Row * list confusion) :
  computes (for_lines fs csv_path ref_norm ocr_lines st)
           (align_loop ref_norm ocr_lines st).
Proof.
  revert st. induction ocr_lines as [|line rest IH]; intros st;
    [apply computes_ret|].
  cbn [for_lines align_loop].
  apply computes_bind; [apply computes_lift|]. intros st'.
  apply (@computes_bind _ _ _ _ (Ok tt) (fun _ => align_loop ref_norm rest st'));
    [apply computes_syscall | intros _; apply IH].
Qed.

Lemma computes_align_ocr_lines (uid : str) (ocr_lines : list str)
      (reference_text outdir : str) (threshold : Z) :
  computes (align_ocr_lines fs uid ocr_lines reference_text outdir threshold)
           (alignment uid ocr_lines reference_text outdir threshold).
Proof.
  unfold align_ocr_lines, alignment.
  apply (@computes_bind _ _ _ _ (Ok tt) (fun _ => _));
    [apply computes_makedirs | intros _].
  apply computes_bind.
  - apply computes_with_open.
    apply (@computes_bind _ _ _ _ (Ok tt) (fun _ => _));
      [apply computes_syscall | intros _; apply computes_for_lines].
  - intros [results confusion_log].
    apply (@computes_bind _ _ _ _ (Ok tt) (fun _ => _)).
    + apply computes_with_open, computes_write_each.
    + intros _. apply (@computes_bind _ _ _ _ (Ok tt) (fun _ => _)).
      * apply computes_with_open.
        apply (@computes_bind _ _ _ _ (Ok tt) (fun _ => Ok tt));
          [apply computes_syscall | intros _; apply computes_write_each].
      * intros _. apply computes_ret.
Qed.

Hypothesis fs_obliging : Os.obliging fs.

Lemma ends_ret {A} (a : A) : ends_as (ret a) (Ok a).
Proof. intros trace. reflexivity. Qed.

Lemma ends_lift {A} (r : result A) : ends_as (lift r) r.
Proof. intros trace. reflexivity. Qed.

Lemma ends_bind {A B} (m : M A) (f : A -> M B)
      (r : result A) (g : A -> result B) :
  ends_as m r -> (forall a, ends_as (f a) (g a)) ->
  ends_as (bind_io m f) (bind r g).
Proof.
  intros Hm Hf trace. unfold bind_io. specialize (Hm trace).
  destruct (m trace) as [[a|e] trace']; cbn [fst] in *; subst r; cbn [bind];
    [apply Hf | reflexivity].
Qed.

Lemma ends_syscall (c : Os.call) : ends_as (syscall fs c) (Ok tt).
Proof. intros trace. unfold syscall. now rewrite fs_obliging. Qed.

Lemma ends_makedirs (path : str) :
  path <> [] -> ends_as (makedirs fs path) (Ok tt).
Proof.
  destruct path as [|c path]; [congruence|]. intros _. apply ends_syscall.
Qed.

Lemma ends_with_open {A} (path : str) (body : M A) (r : result A) :
  ends_as body r -> ends_as (with_open fs path body) r.
Proof.
  intros Hbody trace. unfold with_open, syscall. rewrite fs_obliging.
  specialize (Hbody (trace ++ [Os.open_w path])).
  destruct (body (trace ++ [Os.open_w path])) as [res trace'].
  now rewrite fs_obliging.
Qed.

Lemma ends_write_each {A} (path : str) (l : list A) :
  ends_as (write_each fs path l) (Ok tt).
Proof.
  induction l as [|x l IH]; [apply ends_ret|].
  cbn [write_each].
  apply (@ends_bind _ _ _ _ (Ok tt) (fun _ => Ok tt));
    [apply ends_syscall | intros _; exact IH].
Qed.

Lemma ends_for_lines (csv_path ref_norm : str) (ocr_lines : list str)
      (st : list Row * list confusion) :
  ends_as (for_lines fs csv_path ref_norm ocr_lines st)
          (align_loop ref_norm ocr_lines st).
Proof.
  revert st. induction ocr_lines as [|line rest IH]; intros st;
    [apply ends_ret|].
  cbn [for_lines align_loop].
  apply ends_bind; [apply ends_lift|]. intros st'.
  apply (@ends_bind _ _ _ _ (Ok tt) (fun _ => align_loop ref_norm rest st'));
    [apply ends_syscall | intros _; apply IH].
Qed.

Lemma ends_align_ocr_lines (uid : str) (ocr_lines : list str)
      (reference_text outdir : str) (threshold : Z) :
  outdir <> [] ->
  ends_as (align_ocr_lines fs uid ocr_lines reference_text outdir threshold)
          (alignment uid ocr_lines reference_text outdir threshold).
Proof.
  intros Hdir. unfold align_ocr_lines, alignment.
  apply (@ends_bind _ _ _ _ (Ok tt) (fun _ => _));
    [now apply ends_makedirs | intros _].
  apply ends_bind.
  - apply ends_with_open.
    apply (@ends_bind _ _ _ _ (Ok tt) (fun _ => _));
      [apply ends_syscall | intros _; apply ends_for_lines].
  - intros [results confusion_log].
    apply (@ends_bind _ _ _ _ (Ok tt) (fun _ => _)).
    + apply ends_with_open, ends_write_each.
    + intros _. apply (@ends_bind _ _ _ _ (Ok tt) (fun _ => _)).
      * apply ends_with_open.
        apply (@ends_bind _ _ _ _ (Ok tt) (fun _ => Ok tt));
          [apply ends_syscall | intros _; apply ends_write_each].
      * intros _. apply ends_ret.
Qed.

End FileSystemCalls.

Lemma always_ok_obliging : Os.obliging Os.always_ok.
Proof. intros trace c. reflexivity. Qed.

(** What a run on any file system has to do with the alignment it
    computes. *)
Lemma computes_run_ok {A} (m : M A) (r : result A) (a : A) :
  computes m r -> run m = Ok a -> r = Ok a.
Proof. intros Hc H. specialize (Hc []). unfold run in H. now rewrite H in Hc. Qed.

Lemma computes_run_type_error {A} (m : M A) (r : result A) :
  computes m r -> run m = Raise TypeError -> r = Raise TypeError.
Proof. intros Hc H. specialize (Hc []). unfold run in H. now rewrite H in Hc. Qed.

Lemma computes_run_never_ok {A} (m : M A) (r : result A) (e : exn) :
  computes m r -> r = Raise e -> forall a, run m <> Ok a.
Proof.
  intros Hc Hr a H. apply (computes_run_ok Hc) in H. congruence.
Qed.

Lemma run_ok (fs : Os.FileSystem) (uid : str) (ocr_lines : list str)
      (reference_text outdir : str) (threshold : Z) (out : Output) :
  run (align_ocr_lines fs uid ocr_lines reference_text outdir threshold)
  = Ok out ->
  alignment uid ocr_lines reference_text outdir threshold = Ok out.
Proof. apply computes_run_ok, computes_align_ocr_lines. Qed.

Lemma run_type_error (fs : Os.FileSystem) (uid : str) (ocr_lines : list str)
      (reference_text outdir : str) (threshold : Z) :
  run (align_ocr_lines fs uid ocr_lines reference_text outdir threshold)
  = Raise TypeError ->
  alignment uid ocr_lines reference_text outdir threshold = Raise TypeError.
Proof. apply computes_run_type_error, computes_align_ocr_lines. Qed.

Lemma run_obliging (fs : Os.FileSystem) (uid : str) (ocr_lines : list str)
      (reference_text outdir : str) (threshold : Z) :
  Os.obliging fs -> outdir <> [] ->
  run (align_ocr_lines fs uid ocr_lines reference_text outdir threshold)
  = alignment uid ocr_lines reference_text outdir threshold.
Proof. intros Hfs Hdir. now apply ends_align_ocr_lines. Qed.

(** The empty output directory: [os.makedirs] raises before anything
    is aligned. *)
Lemma run_empty_outdir (fs : Os.FileSystem) (uid : str) (ocr_lines : list str)
      (reference_text : str) (threshold : Z) :
  run (align_ocr_lines fs uid ocr_lines reference_text [] threshold)
  = Raise (Failed Os.FileNotFoundError).
Proof. reflexivity. Qed.

(** ** Runs of [align_ocr_lines] *)

Lemma alignment_ok (uid : str) (ocr_lines : list str)
      (reference_text outdir : str) (threshold : Z) (out : Output) :
  alignment uid ocr_lines reference_text outdir threshold = Ok out ->
  align_loop (normalize_hebrew reference_text) ocr_lines ([], [])
  = Ok (results out, confusion_log out).
Proof.
  unfold alignment.
  destruct (align_loop (normalize_hebrew reference_text) ocr_lines ([], []))
    as [[rows log]|e]; simpl; [|discriminate].
  now intros [= <-].
Qed.

(** The end-to-end scenario of the specification: reference
    "abg dhw zHT" in Hebrew letters, two lines, both matched with score
    100, at offsets 0 and 8. *)
Example end_to_end_scenario :
  let reference := [1488; 1489; 1490; 32; 1491; 1492; 1493; 32;
                    1494; 1495; 1496]%N in
  let line1 := [1488; 1489; 1490; 32; 1491; 1492; 1493]%N in
  let line2 := [1494; 1495; 1496]%N in
  exists out,
    run (align_ocr_lines Os.always_ok (of_ascii "0a1b2c3d"%string)
                         [line1; line2] reference
                         (of_ascii "aligned"%string) 70) = Ok out
    /\ map best_match (results out) = [line1; line2]
    /\ map score (results out) = [100%Q; 100%Q]
    /\ map start_index (results out) = [0%Z; 8%Z]
    /\ confusion_log out = []
    /\ lines_processed (summary out) = 2
    /\ (avg_score (summary out) == 100)%Q
    /\ low_conf (summary out) = 0.
Proof.
  eexists. split; [vm_compute; reflexivity|].
  repeat split; vm_compute; reflexivity.
Qed.

(** C1, as the program has it. A line whose candidate set is empty
    makes the selector return nothing; unpacking that result raises a
    [TypeError] that nothing catches, so the whole run ends with the
    error, whatever lines come before or after: no result is recorded
    for the line and no later line is processed.  On no file system
    does such a run return; where the directory and the files can be
    written, the error it ends in is the [TypeError]. *)
Theorem empty_candidates_abort_run (fs : Os.FileSystem) (uid : str)
        (pre post : list str)
        (line reference_text outdir : str) (threshold : Z) :
  candidates_for (normalize_hebrew reference_text) (normalize_hebrew line) = [] ->
  extractOne (normalize_hebrew line)
             (candidates_for (normalize_hebrew reference_text)
                             (normalize_hebrew line)) ratio = None
  /\ (forall out,
         run (align_ocr_lines fs uid (pre ++ line :: post) reference_text
                              outdir threshold) <> Ok out)
  /\ (Os.obliging fs -> outdir <> [] ->
      run (align_ocr_lines fs uid (pre ++ line :: post) reference_text
                           outdir threshold)
      = Raise TypeError).
Proof.
  intros Hnone.
  assert (Hpure : alignment uid (pre ++ line :: post) reference_text
                            outdir threshold = Raise TypeError)
    by (unfold alignment; now rewrite align_loop_raises).
  split; [|split].
  - rewrite Hnone. apply extractOne_nil.
  - apply (computes_run_never_ok (computes_align_ocr_lines _ _ _ _ _ _) Hpure).
  - intros Hfs Hdir. now rewrite run_obliging.
Qed.

Lemma empty_candidates_abort_run_witness :
  candidates_for (normalize_hebrew []) (normalize_hebrew [1489]%N) = []
  /\ run (align_ocr_lines Os.always_ok (of_ascii "0a1b2c3d"%string)
                          ([[1488]%N] ++ [1489]%N :: [[1490]%N])
                          [] (of_ascii "aligned"%string) 70)
     = Raise TypeError.
Proof.
  split; [vm_compute; reflexivity|].
  apply (@empty_candidates_abort_run
           Os.always_ok
           (of_ascii "0a1b2c3d"%string) [[1488]%N] [[1490]%N] [1489]%N []
           (of_ascii "aligned"%string) 70%Z).
  - vm_compute; reflexivity.
  - intros trace c. reflexivity.
  - discriminate.
Defined.

(** C1 refuted as stated: with an empty reference the non-empty line
    "alef" has no candidates, and the run over that line and a second
    one, on a file system where every call succeeds, returns no results
    at all, sentinel or other. *)
Lemma empty_reference_no_sentinel :
  let uid := of_ascii "0a1b2c3d"%string in
  let outdir := of_ascii "aligned"%string in
  let run_ :=
    run (align_ocr_lines Os.always_ok uid [[1488]%N; [1489]%N] [] outdir 70) in
  [1488]%N <> []
  /\ candidates_for (normalize_hebrew []) (normalize_hebrew [1488]%N) = []
  /\ run_ = Raise TypeError
  /\ ~ exists out,
         run_ = Ok out
         /\ map best_match (results out) = [[]; []]
         /\ map score (results out) = [0%Q; 0%Q].
Proof.
  split; [discriminate|]. split; [vm_compute; reflexivity|]. split; [vm_compute; reflexivity|].
  intros (out & H & _). vm_compute in H. discriminate H.
Qed.

(** C2, as the program has it. The pairs logged for a line come from
    [diff_strings] applied to the raw line, exactly as it was passed in,
    and the matched window of the normalized reference; the line is not
    normalized before the diff. *)
Theorem confusions_from_raw_lines (fs : Os.FileSystem) (uid : str)
        (ocr_lines : list str)
        (reference_text outdir : str) (threshold : Z) (out : Output) :
  run (align_ocr_lines fs uid ocr_lines reference_text outdir threshold)
  = Ok out ->
  map ocr_line (results out) = ocr_lines
  /\ Forall2 (row_of (normalize_hebrew reference_text)) ocr_lines (results out)
  /\ confusion_log out
     = fold_left (fun log r => diff_strings (ocr_line r) (best_match r) log)
                 (results out) [].
Proof.
  intros H. apply run_ok, alignment_ok in H.
  destruct (@align_loop_ok _ _ _ _ _ _ H) as (new & E & Hrows & Hlog).
  simpl in E. subst new. split; [|split; assumption].
  clear -Hrows. induction Hrows as [|l r ls rs Hr _ IH]; simpl; [reflexivity|].
  destruct Hr as [-> _]. now rewrite IH.
Qed.

Lemma confusions_from_raw_lines_witness :
  exists out,
    run (align_ocr_lines Os.always_ok (of_ascii "0a1b2c3d"%string)
                         [[1488; 97]%N] [1488]%N
                         (of_ascii "aligned"%string) 70) = Ok out
    /\ map ocr_line (results out) = [[1488; 97]%N]
    /\ confusion_log out
       = fold_left (fun log r => diff_strings (ocr_line r) (best_match r) log)
                   (results out) [].
Proof.
  eexists. split; [vm_compute; reflexivity|].
  split;
    apply (@confusions_from_raw_lines
             Os.always_ok
             (of_ascii "0a1b2c3d"%string) [[1488; 97]%N] [1488]%N
             (of_ascii "aligned"%string) 70%Z);
    vm_compute; reflexivity.
Defined.

(** C2 refuted as stated: the raw line "a" has the empty normal form;
    the run logs the pair ("a", alef), which holds the Latin letter,
    whereas the two normalized strings give the insertion of alef alone. *)
Lemma raw_character_is_logged :
  exists out,
    run (align_ocr_lines Os.always_ok (of_ascii "0a1b2c3d"%string)
                         [[97]%N] [1488]%N
                         (of_ascii "aligned"%string) 70) = Ok out
    /\ map best_match (results out) = [[1488]%N]
    /\ confusion_log out = [([97]%N, [1488]%N)]
    /\ diff_strings (normalize_hebrew [97]%N) [1488]%N [] = [([], [1488]%N)]
    /\ confusion_log out
       <> diff_strings (normalize_hebrew [97]%N) [1488]%N [].
Proof.
  eexists. split; [vm_compute; reflexivity|].
  repeat split; try (vm_compute; reflexivity). discriminate.
Qed.

(** C3 at a reference whose two words are separated by a line feed:
    the two-word window is joined by a space, does not occur in the
    normalized reference, and the recorded offset is [-1]. *)
Theorem start_index_of_rejoined_window :
  exists out,
    run (align_ocr_lines Os.always_ok (of_ascii "0a1b2c3d"%string)
                         [[1488; 32; 1489]%N]
                         [1488; 10; 1489]%N (of_ascii "aligned"%string) 70)
    = Ok out
    /\ normalize_hebrew [1488; 10; 1489]%N = [1488; 10; 1489]%N
    /\ map best_match (results out) = [[1488; 32; 1489]%N]
    /\ map score (results out) = [100%Q]
    /\ map start_index (results out) = [(-1)%Z].
Proof.
  eexists. split; [vm_compute; reflexivity|].
  repeat split; vm_compute; reflexivity.
Qed.

(** ** Rewriting the PAGE-XML tree *)

Import PageXml.

(** A [TextLine] without a direct [Unicode] child is never rewritten,
    whatever the alignment says, and uses up no alignment result. *)
Lemma update_loop_skips_wrapped (namespace_ : String.string)
      (textlines : list Element) (alignment_results : list Row) (idx : nat) :
  Forall (fun t => find_child t (in_ns namespace_ "Unicode"%string) = None)
         textlines ->
  update_loop namespace_ textlines alignment_results idx = textlines.
Proof.
  induction 1 as [|t ts Ht _ IH]; cbn [update_loop]; [reflexivity|].
  now rewrite Ht, IH.
Qed.

(** A [TextLine] with a direct [Unicode] child and a result to pair with
    gets the matched text exactly when the match differs from the
    result's OCR text and scores above 50. *)
Lemma update_loop_direct (namespace_ : String.string) (t u : Element)
      (ts : list Element) (alignment_results : list Row) (idx : nat) (r : Row) :
  find_child t (in_ns namespace_ "Unicode"%string) = Some u ->
  nth_error alignment_results idx = Some r ->
  update_loop namespace_ (t :: ts) alignment_results idx
  = (if negb (str_eqb (ocr_line r) (best_match r)) && Qlt_bool 50 (score r)
     then Elem (tag_of t) (text_of t)
               (set_first_text (in_ns namespace_ "Unicode"%string)
                               (best_match r) (children_of t))
     else t)
    :: update_loop namespace_ ts alignment_results (idx + 1).
Proof. intros Hu Hr. cbn [update_loop]. now rewrite Hu, Hr. Qed.

(** C8 on a schema-conforming line, whose text sits in
    [TextLine/TextEquiv/Unicode]: the OCR text "alef bet dalet" is
    extracted and matched to "alef bet gimel" with score 200/3, above
    50, yet the rewritten tree is the tree that was read. *)
Theorem textequiv_line_not_rewritten :
  let ns := "http://schema.primaresearch.org/PAGE/gts/pagecontent/2019-07-15"%string in
  let el name text children := Elem (QName (Some ns) name) text children in
  let textline :=
    el "TextLine"%string None
       [el "Coords"%string None [];
        el "TextEquiv"%string None
           [el "Unicode"%string (Some [1488; 1489; 1491]%N) []]] in
  let doc := mkDocument ns [textline] None in
  exists out updated,
    extract_ocr_lines_from_pagexml doc = [[1488; 1489; 1491]%N]
    /\ run (process_pagexml_file
               Os.always_ok
               (of_ascii "0a1b2c3d"%string)
               (of_ascii "2025-01-01T00:00:00"%string)
               (of_ascii "page.xml"%string)
               doc [1488; 1489; 1490]%N
               (of_ascii "aligned"%string) 70)
       = Ok (Some (updated, out))
    /\ map ocr_line (results out) = [[1488; 1489; 1491]%N]
    /\ map best_match (results out) = [[1488; 1489; 1490]%N]
    /\ map score (results out) = [(200 # 3)%Q]
    /\ (50 < 200 # 3)%Q
    /\ textline_elements updated = [textline].
Proof.
  eexists _, _. split; [vm_compute; reflexivity|].
  split; [vm_compute; reflexivity|].
  repeat split; vm_compute; reflexivity.
Qed.


(** ** [difflib]: the bounded loops never run out of fuel *)

Section MatcherTotal.

Import Difflib.

Variables a b : str.

Lemma j2len_lookup_ok (blo n : nat) (d : j2len_t) (j : nat) :
  lengths_ok blo n d ->
  j2len_lookup d j <= n /\ j2len_lookup d j <= j + 1 - blo.
Proof.
  induction 1 as [|[j' k] d Hk _ IH]; simpl; [lia|].
  destruct (Nat.eqb_spec j' j) as [<-|_]; [exact Hk | exact IH].
Qed.

Lemma j2len_get_pred_ok (blo n : nat) (d : j2len_t) (j : nat) :
  lengths_ok blo n d -> blo <= j ->
  j2len_get_pred d j + 1 <= n + 1
  /\ j2len_get_pred d j + 1 <= j + 1 - blo.
Proof.
  intros H Hj. destruct j as [|j]; cbn [j2len_get_pred]; [lia|].
  destruct (j2len_lookup_ok j H). lia.
Qed.

(** The bounds below also show that the natural-number subtractions of
    the model ([i + 1 - k], [j + 1 - k], [besti - 1], [bestj - 1]) never
    truncate. *)
Lemma scan_j_within (alo ahi blo bhi i : nat) (j2len : j2len_t)
      (js : list nat) (newj2len : j2len_t) (best : Match) :
  alo <= i -> i < ahi ->
  lengths_ok blo (i - alo) j2len ->
  lengths_ok blo (i + 1 - alo) newj2len ->
  within alo (i + 1) blo bhi best ->
  lengths_ok blo (i + 1 - alo)
             (fst (scan_j blo bhi i j2len js newj2len best))
  /\ within alo (i + 1) blo bhi
            (snd (scan_j blo bhi i j2len js newj2len best)).
Proof.
  intros Hi Hahi Hold. revert newj2len best.
  induction js as [|j js IH]; intros newj2len best Hnew Hbest;
    cbn [scan_j]; [now split|].
  destruct (Nat.ltb_spec j blo) as [_|Hblo]; [now apply IH|].
  destruct (Nat.leb_spec bhi j) as [_|Hbhi]; [now split|].
  destruct (j2len_get_pred_ok Hold Hblo) as [Hk1 Hk2].
  destruct best as [[bi bj] bs].
  apply IH.
  - constructor; [simpl; lia | exact Hnew].
  - destruct (bs <? j2len_get_pred j2len j + 1); [|exact Hbest].
    simpl. lia.
Qed.

Lemma scan_i_within (alo ahi blo bhi n i : nat) (j2len : j2len_t)
      (best : Match) :
  alo <= i -> i + n <= ahi ->
  lengths_ok blo (i - alo) j2len ->
  within alo i blo bhi best ->
  within alo (i + n) blo bhi (scan_i a b blo bhi (seq i n) j2len best).
Proof.
  revert i j2len best.
  induction n as [|n IH]; intros i j2len best Hi Hn Hlen Hbest;
    cbn [seq scan_i].
  - now rewrite Nat.add_0_r.
  - assert (Hbest' : within alo (i + 1) blo bhi best).
    { destruct best as [[bi bj] bs]. simpl in *. lia. }
    destruct (@scan_j_within alo ahi blo bhi i j2len (b2j_get b (elt a i)) []
                             best Hi ltac:(lia) Hlen (Forall_nil _) Hbest')
      as [Hl Hb].
    destruct (scan_j blo bhi i j2len (b2j_get b (elt a i)) [] best)
      as [newj2len best'].
    simpl in Hl, Hb.
    replace (i + S n) with (S i + n) by lia.
    apply IH; [lia | lia | | ].
    + now replace (S i - alo) with (i + 1 - alo) by lia.
    + now replace (S i) with (i + 1) by lia.
Qed.

Lemma extend_left_within (alo ahi blo bhi besti bestj bestsize : nat) :
  within alo ahi blo bhi (besti, bestj, bestsize) ->
  within alo ahi blo bhi (extend_left a b alo blo besti bestj bestsize).
Proof.
  revert bestj bestsize.
  induction besti as [|besti IH]; intros bestj bestsize H; cbn [extend_left];
    [exact H|].
  destruct (Nat.ltb_spec alo (S besti)) as [Hlt|Hge]; cbn [andb]; [|exact H].
  destruct (Nat.ltb_spec blo bestj) as [Hlt'|Hge]; cbn [andb]; [|exact H].
  destruct (elt a (S besti - 1) =? elt b (bestj - 1))%N; [|exact H].
  apply IH. simpl in *. lia.
Qed.

Lemma extend_right_within (alo ahi blo bhi room besti bestj bestsize : nat) :
  within alo ahi blo bhi (besti, bestj, bestsize) ->
  within alo ahi blo bhi
         (extend_right a b ahi bhi room besti bestj bestsize).
Proof.
  revert bestsize.
  induction room as [|room IH]; intros bestsize H; cbn [extend_right];
    [exact H|].
  destruct (Nat.ltb_spec (besti + bestsize) ahi) as [Hlt|Hge]; cbn [andb];
    [|exact H].
  destruct (Nat.ltb_spec (bestj + bestsize) bhi) as [Hlt'|Hge]; cbn [andb];
    [|exact H].
  destruct (elt a (besti + bestsize) =? elt b (bestj + bestsize))%N;
    [|exact H].
  apply IH. simpl in *. lia.
Qed.

(** The longest match of [a[alo:ahi]] and [b[blo:bhi]] lies inside both. *)
Lemma find_longest_match_within (alo ahi blo bhi : nat) :
  alo <= ahi -> blo <= bhi ->
  within alo ahi blo bhi (find_longest_match a b alo ahi blo bhi).
Proof.
  intros Hle Hle'. unfold find_longest_match.
  assert (H0 : within alo (alo + (ahi - alo)) blo bhi
                      (scan_i a b blo bhi (seq alo (ahi - alo)) []
                              (alo, blo, 0))).
  { apply scan_i_within with (ahi := ahi);
      [lia | lia | constructor | simpl; lia]. }
  replace (alo + (ahi - alo)) with ahi in H0 by lia.
  destruct (scan_i a b blo bhi (seq alo (ahi - alo)) [] (alo, blo, 0))
    as [[bi bj] bs].
  pose proof (@extend_left_within alo ahi blo bhi bi bj bs H0) as H1.
  destruct (extend_left a b alo blo bi bj bs) as [[bi' bj'] bs'].
  now apply extend_right_within.
Qed.

Lemma blocks_loop_total (fuel : nat) (queue : list (nat * nat * nat * nat))
      (acc : list Match) :
  queue_ok queue -> queue_weight queue <= fuel ->
  exists blocks, blocks_loop a b fuel queue acc = Some blocks.
Proof.
  revert queue acc.
  induction fuel as [|fuel IH]; intros queue acc Hok Hw.
  - destruct queue as [|[[[alo ahi] blo] bhi] queue]; simpl in *;
      [eauto | lia].
  - destruct queue as [|[[[alo ahi] blo] bhi] queue]; [simpl; eauto|].
    cbn [blocks_loop]. inversion Hok as [|x q Hx Hq]; subst.
    destruct Hx as [Hle Hle'].
    pose proof (@find_longest_match_within alo ahi blo bhi Hle Hle') as Hin.
    destruct (find_longest_match a b alo ahi blo bhi) as [[i j] k].
    simpl in Hin, Hw.
    destruct (Nat.eqb_spec k 0) as [Hk|Hk].
    + apply IH; [exact Hq | lia].
    + apply IH.
      * destruct ((i + k <? ahi) && (j + k <? bhi)),
                 ((alo <? i) && (blo <? j));
          repeat (constructor; [lia|]); exact Hq.
      * destruct ((i + k <? ahi) && (j + k <? bhi)),
                 ((alo <? i) && (blo <? j)); simpl; lia.
Qed.

Lemma get_opcodes_opt_total : exists ops, get_opcodes_opt a b = Some ops.
Proof.
  unfold get_opcodes_opt, get_matching_blocks_opt.
  destruct (@blocks_loop_total (blocks_fuel a) [(0, List.length a, 0, List.length b)] [])
    as [blocks E].
  - repeat constructor; lia.
  - unfold blocks_fuel. simpl. lia.
  - rewrite E. eauto.
Qed.

Lemma first_identical_range (alo ahi blo bhi i j : nat) :
  first_identical a b alo ahi blo bhi = Some (i, j) -> alo <= i < ahi.
Proof.
  unfold first_identical.
  destruct (List.find _ (seq blo (bhi - blo))) as [j'|]; [|discriminate].
  destruct (List.find _ (seq alo (ahi - alo))) as [i'|] eqn:E; [|discriminate].
  intros [= <- <-]. apply find_some in E. destruct E as [E _].
  apply in_seq in E. lia.
Qed.

Lemma fancy_replace_total (fuel alo ahi blo bhi : nat) :
  ahi - alo < fuel ->
  exists lines, fancy_replace a b fuel alo ahi blo bhi = Some lines.
Proof.
  revert alo ahi blo bhi.
  induction fuel as [|fuel IH]; intros alo ahi blo bhi Hfuel; [lia|].
  cbn [fancy_replace].
  destruct (first_identical a b alo ahi blo bhi) as [[i j]|] eqn:E; [|eauto].
  apply first_identical_range in E.
  assert (H1 : exists l,
             (if alo <? i
              then if blo <? j then fancy_replace a b fuel alo i blo j
                   else Some (dump minus_sign a alo i)
              else if blo <? j then Some (dump plus_sign b blo j)
                   else Some []) = Some l).
  { destruct (alo <? i), (blo <? j); eauto. apply IH. lia. }
  assert (H2 : exists l,
             (if i + 1 <? ahi
              then if j + 1 <? bhi
                   then fancy_replace a b fuel (i + 1) ahi (j + 1) bhi
                   else Some (dump minus_sign a (i + 1) ahi)
              else if j + 1 <? bhi then Some (dump plus_sign b (j + 1) bhi)
                   else Some []) = Some l).
  { destruct (i + 1 <? ahi), (j + 1 <? bhi); eauto. apply IH. lia. }
  destruct H1 as [l1 ->], H2 as [l2 ->]. eauto.
Qed.

Lemma compare_loop_total (ops : list opcode) :
  exists lines, compare_loop a b ops = Some lines.
Proof.
  induction ops as [|[[[[t alo] ahi] blo] bhi] ops [ls IH]];
    cbn [compare_loop]; [eauto|].
  rewrite IH.
  assert (H : exists g, compare_opcode a b (t, alo, ahi, blo, bhi) = Some g).
  { destruct t; cbn [compare_opcode]; eauto.
    apply fancy_replace_total. lia. }
  destruct H as [g ->]. eauto.
Qed.

(** [ndiff] always comes back with its lines. *)
Lemma compare_opt_total : exists lines, compare_opt a b = Some lines.
Proof.
  unfold compare_opt. destruct get_opcodes_opt_total as [ops ->].
  apply compare_loop_total.
Qed.

End MatcherTotal.

Lemma ndiff_compare_opt (a b : str) :
  Difflib.compare_opt a b = Some (Difflib.ndiff a b).
Proof.
  unfold Difflib.ndiff. now destruct (compare_opt_total a b) as [lines ->].
Qed.

Create HintDb difflines.

Section MatcherLines.

Import Difflib.

Variables a b : str.

Lemma dump_lines (t : char) (x : str) (lo hi : nat) :
  t = minus_sign \/ t = plus_sign \/ t = blank ->
  Forall diff_line (dump t x lo hi).
Proof.
  intros Ht. unfold dump. apply Forall_map, Forall_forall.
  intros i _. now exists t, (elt x i).
Qed.

#[local] Hint Resolve dump_lines Forall_nil : difflines.

Lemma plain_replace_lines (alo ahi blo bhi : nat) :
  Forall diff_line (plain_replace a b alo ahi blo bhi).
Proof.
  unfold plain_replace.
  destruct (bhi - blo <? ahi - alo); apply Forall_app; split;
    auto with difflines.
Qed.

Lemma fancy_replace_lines (fuel alo ahi blo bhi : nat) (lines : list str) :
  fancy_replace a b fuel alo ahi blo bhi = Some lines ->
  Forall diff_line lines.
Proof.
  revert alo ahi blo bhi lines.
  induction fuel as [|fuel IH]; intros alo ahi blo bhi lines; [discriminate|].
  cbn [fancy_replace].
  destruct (first_identical a b alo ahi blo bhi) as [[i j]|].
  - destruct (if alo <? i then _ else _) as [before|] eqn:E1; [|discriminate].
    destruct (if i + 1 <? ahi then _ else _) as [after|] eqn:E2;
      [|discriminate].
    intros [= <-].
    assert (H1 : Forall diff_line before).
    { destruct (alo <? i), (blo <? j); try (injection E1 as <-);
        eauto with difflines. }
    assert (H2 : Forall diff_line after).
    { destruct (i + 1 <? ahi), (j + 1 <? bhi); try (injection E2 as <-);
        eauto with difflines. }
    apply Forall_app. split; [exact H1|].
    constructor; [|exact H2]. exists blank, (elt a i). auto.
  - intros [= <-]. apply plain_replace_lines.
Qed.

Lemma compare_loop_lines (ops : list opcode) (lines : list str) :
  compare_loop a b ops = Some lines -> Forall diff_line lines.
Proof.
  revert lines.
  induction ops as [|[[[[t alo] ahi] blo] bhi] ops IH]; intros lines;
    cbn [compare_loop]; [intros [= <-]; constructor|].
  destruct (compare_opcode a b (t, alo, ahi, blo, bhi)) as [g|] eqn:Eg;
    [|discriminate].
  destruct (compare_loop a b ops) as [gs|]; [|discriminate].
  intros [= <-]. apply Forall_app. split; [|now apply IH].
  destruct t; cbn [compare_opcode] in Eg;
    try (injection Eg as <-; auto with difflines).
  now apply fancy_replace_lines in Eg.
Qed.

(** Every line of [ndiff] on two strings is a marker, a blank and one
    character; there are no hint lines. *)
Lemma ndiff_lines : Forall diff_line (ndiff a b).
Proof.
  unfold ndiff, compare_opt.
  destruct (get_opcodes_opt a b) as [ops|]; [|constructor].
  destruct (compare_loop a b ops) as [lines|] eqn:E; [|constructor].
  now apply compare_loop_lines in E.
Qed.

End MatcherLines.

(** On such lines the reading of [diff_strings] is the obvious one. *)
Lemma edit_of_diff_line (d : str) :
  diff_line d ->
  exists c,
    (d = [Difflib.minus_sign; Difflib.blank; c] /\ edit_of_line d = Del [c])
    \/ (d = [Difflib.plus_sign; Difflib.blank; c] /\ edit_of_line d = Ins [c])
    \/ (d = [Difflib.blank; Difflib.blank; c] /\ edit_of_line d = Keep [c]).
Proof.
  intros (t & c & E & H). subst d.
  destruct H as [H|[H|H]]; subst t; exists c; auto.
Qed.

(** ** [str.find] *)

Lemma find_from_spec (sub s : str) (i : Z) :
  (find_from s sub i = (-1)%Z
   /\ forall k, startswith (skipn k s) sub = false)
  \/ (exists n,
         find_from s sub i = (i + Z.of_nat n)%Z
         /\ startswith (skipn n s) sub = true
         /\ forall k, k < n -> startswith (skipn k s) sub = false)
  \/ (i < -1)%Z.
Proof.
  destruct (Z.ltb_spec i (-1)) as [Hneg|Hi]; [right; right; exact Hneg|].
  revert i Hi. induction s as [|c s IH]; intros i Hi; cbn [find_from].
  - destruct (startswith [] sub) eqn:E.
    + right; left. exists 0. rewrite Z.add_0_r. repeat split; [exact E|lia].
    + left. split; [reflexivity|]. intros k. now rewrite skipn_nil.
  - destruct (startswith (c :: s) sub) eqn:E.
    + right; left. exists 0. rewrite Z.add_0_r. repeat split; [exact E|lia].
    + destruct (IH (i + 1)%Z ltac:(lia)) as [[E1 H1]|[(n & E1 & H1 & H2)|Hbad]];
        [| |lia].
      * left. split; [exact E1|]. intros [|k]; [exact E | apply H1].
      * right; left. exists (S n). split; [rewrite E1; lia|].
        split; [exact H1|]. intros [|k] Hk; [exact E | apply H2; lia].
Qed.

(** [s.find(sub)] is the offset of the first occurrence of [sub] in [s],
    and [-1] exactly when there is none. *)
Lemma find_first_occurrence (s sub : str) :
  (find s sub = (-1)%Z /\ forall k, startswith (skipn k s) sub = false)
  \/ (exists n,
         find s sub = Z.of_nat n
         /\ startswith (skipn n s) sub = true
         /\ forall k, k < n -> startswith (skipn k s) sub = false).
Proof.
  unfold find.
  destruct (find_from_spec sub s 0) as [H|[H|H]]; [now left | now right | lia].
Qed.

(** ** When the recorded offset is a real offset *)

Lemma build_windows_In (reference_text m : str) (w : Z) :
  (0 < w)%Z ->
  In m (build_windows reference_text w) ->
  exists i,
    m = join [space] (firstn (Z.to_nat w) (skipn i (split reference_text)))
    /\ i + Z.to_nat w <= List.length (split reference_text).
Proof.
  intros Hw. unfold build_windows, range.
  rewrite map_map, in_map_iff. intros (i & <- & Hi).
  apply in_seq in Hi. exists i.
  assert (Hb : (Z.of_nat i + w <= len (split reference_text))%Z)
    by (unfold len in *; lia).
  rewrite slice_in_bounds by lia. split; [reflexivity|].
  unfold len in Hb. lia.
Qed.

Lemma candidates_for_In (ref_norm norm_line m : str) :
  In m (candidates_for ref_norm norm_line) ->
  exists w, (0 < w)%Z /\ In m (build_windows ref_norm w).
Proof.
  unfold candidates_for.
  rewrite fold_extend, fromkeys_stable_dedup. unfold stable_dedup.
  rewrite first_seen_In. intros [H _].
  apply in_concat in H. destruct H as (ws & Hws & Hm).
  apply in_map_iff in Hws. destruct Hws as (w & <- & Hw).
  apply filter_In in Hw. destruct Hw as [_ Hw].
  exists w. split; [now apply Z.ltb_lt | exact Hm].
Qed.

Lemma candidates_for_empty_reference (norm_line : str) :
  candidates_for [] norm_line = [].
Proof.
  destruct (candidates_for [] norm_line) as [|m ms] eqn:E; [reflexivity|].
  assert (H : In m (candidates_for [] norm_line)) by (rewrite E; now left).
  apply candidates_for_In in H. destruct H as (w & Hw & H).
  apply build_windows_In in H; [|exact Hw].
  destruct H as (i & _ & Hi). simpl in Hi. lia.
Qed.

(** An empty reference, or one without any kept character, stops every
    run that has a line to align. *)
Lemma empty_reference_raises (uid : str) (line : str) (ocr_lines : list str)
      (reference_text outdir : str) (threshold : Z) :
  normalize_hebrew reference_text = [] ->
  alignment uid (line :: ocr_lines) reference_text outdir threshold
  = Raise TypeError.
Proof.
  intros E. unfold alignment. rewrite E.
  rewrite (@align_loop_raises [] [] ocr_lines line); [reflexivity|].
  apply candidates_for_empty_reference.
Qed.

Lemma extractOne_In (query m : str) (candidates : list str) (s : Q) (i : nat) :
  extractOne query candidates ratio = Some (m, s, i) -> In m candidates.
Proof.
  intros E. destruct candidates as [|c cs]; [discriminate|].
  destruct (@extractOne_some query (c :: cs)) as (m' & s' & i' & E' & Hb);
    [discriminate|].
  rewrite E in E'. injection E' as <- <- <-.
  destruct Hb as [Hn _]. now apply nth_error_In in Hn.
Qed.

Lemma join_app (sep : str) (l1 l2 : list str) :
  l1 <> [] -> l2 <> [] ->
  join sep (l1 ++ l2) = join sep l1 ++ sep ++ join sep l2.
Proof.
  intros H1 H2. induction l1 as [|x l1 IH]; [contradiction|].
  destruct l1 as [|y l1].
  - destruct l2; [contradiction | reflexivity].
  - change (join sep ((x :: y :: l1) ++ l2))
      with (x ++ sep ++ join sep ((y :: l1) ++ l2)).
    rewrite IH by discriminate.
    change (join sep (x :: y :: l1)) with (x ++ sep ++ join sep (y :: l1)).
    now rewrite <- !app_assoc.
Qed.

Lemma startswith_app (m s : str) : startswith (m ++ s) m = true.
Proof.
  induction m as [|c m IH]; simpl; [apply startswith_nil|].
  now rewrite N.eqb_refl.
Qed.

Lemma startswith_refl (m : str) : startswith m m = true.
Proof.
  pose proof (startswith_app m []) as H. now rewrite app_nil_r in H.
Qed.

Lemma occurs_prefix_end (p m : str) :
  startswith (skipn (List.length p) (p ++ m)) m = true.
Proof.
  rewrite skipn_app, Nat.sub_diag, skipn_all. simpl. apply startswith_refl.
Qed.

Lemma occurs_middle (p m s : str) :
  startswith (skipn (List.length p) (p ++ m ++ s)) m = true.
Proof.
  rewrite skipn_app, Nat.sub_diag, skipn_all. simpl. apply startswith_app.
Qed.

(** A run of consecutive words, joined, occurs in the join of all words. *)
Lemma window_occurs (sep : str) (ws : list str) (i w : nat) :
  0 < w -> i + w <= List.length ws ->
  exists k,
    startswith (skipn k (join sep ws)) (join sep (firstn w (skipn i ws)))
    = true.
Proof.
  intros Hw Hi.
  set (l1 := firstn i ws). set (l2 := firstn w (skipn i ws)).
  set (l3 := skipn w (skipn i ws)).
  assert (E : ws = l1 ++ l2 ++ l3).
  { unfold l1, l2, l3. now rewrite !firstn_skipn. }
  assert (H2 : l2 <> []).
  { intros H. apply (f_equal (@List.length str)) in H. unfold l2 in H.
    rewrite length_firstn, length_skipn in H. simpl in H. lia. }
  rewrite E. destruct l1 as [|x1 l1'] eqn:E1, l3 as [|x3 l3'] eqn:E3.
  - exists 0. rewrite app_nil_r. simpl. apply startswith_refl.
  - exists 0. cbn [app]. rewrite join_app by (auto; discriminate).
    apply startswith_app.
  - exists (List.length (join sep (x1 :: l1') ++ sep)).
    rewrite app_nil_r, (@join_app sep (x1 :: l1') l2)
      by (auto; discriminate).
    rewrite app_assoc. apply occurs_prefix_end.
  - exists (List.length (join sep (x1 :: l1') ++ sep)).
    rewrite (@join_app sep (x1 :: l1') (l2 ++ x3 :: l3'))
      by (solve [discriminate
                | intros Hc; apply app_eq_nil in Hc; tauto]).
    rewrite (@join_app sep l2 (x3 :: l3')) by (auto; discriminate).
    rewrite app_assoc. apply occurs_middle.
Qed.

(** With the reference words separated by single spaces the matched
    window does occur in the normalized reference, and the recorded
    offset is that of its first occurrence. *)
Lemma start_index_single_spaced (ref_norm line : str) (r : Row) :
  ref_norm = join [space] (split ref_norm) ->
  row_of ref_norm line r ->
  exists n,
    start_index r = Z.of_nat n
    /\ startswith (skipn n ref_norm) (best_match r) = true
    /\ forall k, k < n -> startswith (skipn k ref_norm) (best_match r) = false.
Proof.
  intros Hsp (_ & _ & Hstart & idx & Hsel).
  apply extractOne_In, candidates_for_In in Hsel.
  destruct Hsel as (w & Hw & Hm).
  apply build_windows_In in Hm; [|exact Hw]. destruct Hm as (i & Em & Hi).
  destruct (@window_occurs [space] (split ref_norm) i (Z.to_nat w))
    as [k Hk]; [lia | exact Hi |].
  rewrite <- Hsp, <- Em in Hk.
  rewrite Hstart.
  destruct (find_first_occurrence ref_norm (best_match r))
    as [[_ Hnone]|Hsome]; [|exact Hsome].
  rewrite Hnone in Hk. discriminate.
Qed.

(* ================================================================== *)
(** * Part III. Further properties of the code                        *)
(* ================================================================== *)

(** ** The shape of normalized text *)

Lemma rstrip_last_kept (s : str) : head_kept isspace (rev (rstrip s)).
Proof.
  unfold rstrip. rewrite rev_involutive. apply dropwhile_head_kept.
Qed.

Lemma strip_first_kept (s : str) : head_kept isspace (strip s).
Proof.
  unfold strip. destruct (rstrip_prefix (lstrip s)) as [w E].
  apply head_kept_prefix with (w := w). rewrite <- E.
  apply dropwhile_head_kept.
Qed.

Lemma strip_fixed (s : str) :
  head_kept isspace s -> head_kept isspace (rev s) -> strip s = s.
Proof.
  intros H1 H2. unfold strip, lstrip, rstrip.
  rewrite (@dropwhile_fixed isspace s H1).
  rewrite (@dropwhile_fixed isspace (rev s) H2).
  apply rev_involutive.
Qed.

(** X1. A normalized string holds only characters of the Hebrew block
    and whitespace, and it is empty or begins and ends with a character
    that is not whitespace. *)
Theorem normalize_hebrew_shape (text : str) :
  Forall (fun c => keeps c = true) (normalize_hebrew text)
  /\ head_kept isspace (normalize_hebrew text)
  /\ head_kept isspace (rev (normalize_hebrew text)).
Proof.
  unfold normalize_hebrew. split; [|split].
  - apply strip_Forall, filter_Forall_true.
  - apply strip_first_kept.
  - unfold strip. apply rstrip_last_kept.
Qed.

Lemma filter_dropwhile_others (p : char -> bool) (s : str) :
  filter (fun c => negb (p c)) (dropwhile p s)
  = filter (fun c => negb (p c)) s.
Proof.
  induction s as [|c s IH]; simpl; [reflexivity|].
  destruct (p c) eqn:E; simpl; [exact IH | now rewrite E].
Qed.

Lemma filter_strip_others (s : str) :
  filter (fun c => negb (isspace c)) (strip s)
  = filter (fun c => negb (isspace c)) s.
Proof.
  unfold strip, rstrip, lstrip.
  rewrite filter_rev, filter_dropwhile_others, <- filter_rev, rev_involutive.
  apply filter_dropwhile_others.
Qed.

Lemma hebrew_block_not_space (c : char) :
  ((0x0590 <=? c) && (c <=? 0x05FF))%N = true -> isspace c = false.
Proof.
  intros H. apply andb_true_iff in H. destruct H as [H1 H2].
  apply N.leb_le in H1, H2. unfold isspace.
  repeat match goal with
         | |- context [(?x <=? ?y)%N] => destruct (N.leb_spec x y); try lia
         | |- context [(?x =? ?y)%N] => destruct (N.eqb_spec x y); try lia
         end.
Qed.

Lemma filter_filter_and {A} (f g : A -> bool) (l : list A) :
  filter f (filter g l) = filter (fun x => g x && f x) l.
Proof.
  induction l as [|x l IH]; simpl; [reflexivity|].
  destruct (g x); simpl; [destruct (f x)|]; now rewrite IH.
Qed.

(** X2. Normalisation removes every character outside the Hebrew block
    and no character inside it: what is left besides whitespace is the
    sequence of Hebrew-block characters of the input, in their order. *)
Theorem normalize_hebrew_keeps_letters (text : str) :
  filter (fun c => negb (isspace c)) (normalize_hebrew text)
  = filter (fun c => ((0x0590 <=? c) && (c <=? 0x05FF))%N) text.
Proof.
  unfold normalize_hebrew.
  rewrite filter_strip_others, filter_filter_and.
  apply filter_ext. intros c. unfold keeps.
  destruct (((0x0590 <=? c) && (c <=? 0x05FF))%N) eqn:E; simpl.
  - now rewrite (hebrew_block_not_space c E).
  - now destruct (isspace c).
Qed.

(** ** Words and windows *)

Import Props.

Lemma split_go_words (s cur : str) :
  Forall (fun c => isspace c = false) cur ->
  Forall word (split_go cur s).
Proof.
  revert cur. induction s as [|c s IH]; intros cur Hcur; cbn [split_go].
  - destruct cur as [|x cur]; constructor; [|constructor].
    split; [|now apply Forall_rev].
    intros E. apply (f_equal (@List.length char)) in E.
    rewrite length_rev in E. discriminate.
  - destruct (isspace c) eqn:Ec.
    + destruct cur as [|x cur]; [apply IH; constructor|].
      constructor; [|apply IH; constructor].
      split; [|now apply Forall_rev].
      intros E. apply (f_equal (@List.length char)) in E.
      rewrite length_rev in E. discriminate.
    + apply IH. now constructor.
Qed.

Lemma split_words (s : str) : Forall word (split s).
Proof. apply split_go_words. constructor. Qed.

Lemma split_go_chars (P : char -> Prop) (s cur : str) :
  Forall P cur -> Forall P s -> Forall (Forall P) (split_go cur s).
Proof.
  revert cur. induction s as [|c s IH]; intros cur Hcur Hs; cbn [split_go].
  - destruct cur; constructor; [now apply Forall_rev | constructor].
  - inversion Hs as [|c' s' Hc Hs']; subst.
    destruct (isspace c).
    + destruct cur as [|x cur]; [now apply IH|].
      constructor; [now apply Forall_rev | apply IH; [constructor | exact Hs']].
    + apply IH; [now constructor | exact Hs'].
Qed.

Lemma split_chars (P : char -> Prop) (s : str) :
  Forall P s -> Forall (Forall P) (split s).
Proof. apply split_go_chars. constructor. Qed.

Lemma head_kept_app (p : char -> bool) (u v : str) :
  u <> [] -> head_kept p u -> head_kept p (u ++ v).
Proof. destruct u; [contradiction | simpl; auto]. Qed.

Lemma join_head (sep : str) (x : str) (t : list str) :
  exists rest, join sep (x :: t) = x ++ rest.
Proof.
  destruct t as [|y t]; [exists []; simpl; now rewrite app_nil_r|].
  now exists (sep ++ join sep (y :: t)).
Qed.

Lemma word_first (w : str) : word w -> head_kept isspace w.
Proof.
  intros [Hne Hall]. destruct w as [|c w]; [exact I|].
  now inversion Hall.
Qed.

Lemma word_last (w : str) : word w -> head_kept isspace (rev w).
Proof.
  intros [Hne Hall]. apply Forall_rev in Hall.
  destruct (rev w) as [|c r]; [exact I | now inversion Hall].
Qed.

Lemma rev_nonempty {A} (l : list A) : l <> [] -> rev l <> [].
Proof.
  intros H E. apply H. apply (f_equal (@rev A)) in E.
  now rewrite rev_involutive in E.
Qed.

Lemma join_words_nonempty (sep : str) (ws : list str) :
  ws <> [] -> Forall word ws -> join sep ws <> [].
Proof.
  intros Hne Hall. destruct ws as [|x t]; [contradiction|].
  destruct (join_head sep x t) as [rest ->].
  inversion Hall as [|x' t' [Hx _] _]; subst.
  destruct x; [contradiction | discriminate].
Qed.

Lemma join_words_first (sep : str) (ws : list str) :
  Forall word ws -> head_kept isspace (join sep ws).
Proof.
  intros Hall. destruct ws as [|x t]; [exact I|].
  destruct (join_head sep x t) as [rest ->].
  inversion Hall as [|x' t' Hx _]; subst.
  apply head_kept_app; [apply Hx | now apply word_first].
Qed.

Lemma join_words_last (sep : str) (ws : list str) :
  Forall word ws -> head_kept isspace (rev (join sep ws)).
Proof.
  induction 1 as [|x t Hx Ht IH]; [exact I|].
  destruct t as [|y t]; [now apply word_last|].
  change (join sep (x :: y :: t)) with (x ++ sep ++ join sep (y :: t)).
  rewrite !rev_app_distr, <- app_assoc.
  apply head_kept_app; [|exact IH].
  apply rev_nonempty, join_words_nonempty; [discriminate | exact Ht].
Qed.

Lemma join_chars (P : char -> Prop) (sep : str) (ws : list str) :
  Forall P sep -> Forall (Forall P) ws -> Forall P (join sep ws).
Proof.
  intros Hsep. induction 1 as [|x t Hx Ht IH]; [constructor|].
  destruct t as [|y t]; [exact Hx|].
  change (join sep (x :: y :: t)) with (x ++ sep ++ join sep (y :: t)).
  apply Forall_app. split; [exact Hx|].
  apply Forall_app. split; [exact Hsep | exact IH].
Qed.

Lemma Forall_firstn {A} (P : A -> Prop) (n : nat) (l : list A) :
  Forall P l -> Forall P (firstn n l).
Proof.
  intros H. rewrite <- (firstn_skipn n l) in H.
  now apply Forall_app in H.
Qed.

Lemma Forall_skipn {A} (P : A -> Prop) (n : nat) (l : list A) :
  Forall P l -> Forall P (skipn n l).
Proof.
  intros H. rewrite <- (firstn_skipn n l) in H.
  now apply Forall_app in H.
Qed.

(** A window of at least one word is a normalized, non-empty string as
    soon as the text it is cut from holds kept characters only. *)
Lemma window_normalized (text m : str) (w : nat) :
  0 < w ->
  Forall (fun c => keeps c = true) text ->
  window_of text w m ->
  m <> [] /\ normalize_hebrew m = m.
Proof.
  intros Hw Hkeep (i & Hi & ->).
  set (ws := firstn w (skipn i (split text))).
  assert (Hws : Forall word ws)
    by (apply Forall_firstn, Forall_skipn, split_words).
  assert (Hne : ws <> []).
  { intros E. apply (f_equal (@List.length str)) in E. unfold ws in E.
    rewrite length_firstn, length_skipn in E. simpl in E. lia. }
  split; [now apply join_words_nonempty|].
  unfold normalize_hebrew. rewrite filter_fixed.
  - apply strip_fixed; [now apply join_words_first | now apply join_words_last].
  - apply join_chars; [repeat constructor|].
    apply Forall_firstn, Forall_skipn, split_chars, Hkeep.
Qed.

Lemma build_windows_length (reference_text : str) (w : Z) :
  List.length (build_windows reference_text w)
  = Z.to_nat (len (split reference_text) - w + 1).
Proof. unfold build_windows. now rewrite length_map, range_length. Qed.

Lemma build_windows_window_of (reference_text m : str) (w : Z) :
  (0 < w)%Z ->
  In m (build_windows reference_text w) ->
  window_of reference_text (Z.to_nat w) m.
Proof.
  intros Hw H. apply build_windows_In in H; [|exact Hw].
  destruct H as (i & -> & Hi). now exists i.
Qed.

(** Membership in the candidate set, with the size of the window. *)
Lemma candidates_for_In_iff (ref_norm norm_line m : str) :
  In m (candidates_for ref_norm norm_line)
  <-> exists w,
        (0 < w)%Z
        /\ (len (split norm_line) - 1 <= w <= len (split norm_line) + 1)%Z
        /\ In m (build_windows ref_norm w).
Proof.
  unfold candidates_for.
  rewrite fold_extend, fromkeys_stable_dedup. unfold stable_dedup.
  rewrite first_seen_In. cbn [app]. rewrite in_concat. split.
  - intros [(ws & Hws & Hm) _].
    apply in_map_iff in Hws. destruct Hws as (w & <- & Hw).
    apply filter_In in Hw. destruct Hw as [Hin Hpos].
    exists w. split; [now apply Z.ltb_lt|]. split; [|exact Hm].
    simpl in Hin. lia.
  - intros (w & Hpos & Hrange & Hm). split; [|tauto].
    exists (build_windows ref_norm w). split; [|exact Hm].
    apply in_map, filter_In. split; [|now apply Z.ltb_lt].
    simpl. lia.
Qed.

Lemma candidates_some_when_enough (ref_norm norm_line : str) :
  (least_size (len (split norm_line)) <= len (split ref_norm))%Z ->
  candidates_for ref_norm norm_line <> [].
Proof.
  unfold least_size. intros Hge E.
  set (w0 := Z.max 1 (len (split norm_line) - 1)) in *.
  assert (Hlen : 0 < List.length (build_windows ref_norm w0))
    by (rewrite build_windows_length; lia).
  destruct (build_windows ref_norm w0) as [|m ms] eqn:Ew; [simpl in Hlen; lia|].
  assert (Hin : In m (candidates_for ref_norm norm_line)).
  { apply candidates_for_In_iff. exists w0. rewrite Ew.
    assert (0 <= len (split norm_line))%Z by (unfold len; lia).
    repeat split; try (unfold w0; lia). now left. }
  rewrite E in Hin. contradiction.
Qed.

Lemma candidates_none_when_short (ref_norm norm_line : str) :
  (len (split ref_norm) < least_size (len (split norm_line)))%Z ->
  candidates_for ref_norm norm_line = [].
Proof.
  unfold least_size. intros Hlt.
  destruct (candidates_for ref_norm norm_line) as [|m ms] eqn:E;
    [reflexivity | exfalso].
  assert (Hin : In m (candidates_for ref_norm norm_line))
    by (rewrite E; now left).
  apply candidates_for_In_iff in Hin. destruct Hin as (w & Hpos & Hr & Hm).
  assert (Hlen : List.length (build_windows ref_norm w) = 0)
    by (rewrite build_windows_length; lia).
  destruct (build_windows ref_norm w); [contradiction | discriminate].
Qed.

(** ** What every row of a run satisfies *)

Lemma run_rows (uid : str) (ocr_lines : list str)
      (reference_text outdir : str) (threshold : Z) (out : Output) :
  alignment uid ocr_lines reference_text outdir threshold = Ok out ->
  Forall2 (row_of (normalize_hebrew reference_text)) ocr_lines (results out).
Proof.
  intros H. apply alignment_ok in H.
  destruct (@align_loop_ok _ _ _ _ _ _ H) as (new & E & Hrows & _).
  simpl in E. now subst new.
Qed.

Lemma Forall2_right {A B} (R : A -> B -> Prop) (P : B -> Prop)
      (l : list A) (l' : list B) :
  (forall x y, R x y -> P y) -> Forall2 R l l' -> Forall P l'.
Proof.
  intros HR. induction 1; constructor; eauto.
Qed.

Lemma extractOne_first_best (query m : str) (candidates : list str)
      (s : Q) (i : nat) :
  extractOne query candidates ratio = Some (m, s, i) ->
  first_best query candidates m s i.
Proof.
  intros E. destruct candidates as [|c cs]; [discriminate|].
  destruct (@extractOne_some query (c :: cs)) as (m' & s' & i' & E' & Hb);
    [discriminate|].
  rewrite E in E'. now injection E' as <- <- <-.
Qed.

Lemma row_of_window (ref_norm line : str) (r : Row) :
  row_of ref_norm line r ->
  exists w : Z,
    (0 < w)%Z
    /\ (len (split (normalize_hebrew line)) - 1 <= w
        <= len (split (normalize_hebrew line)) + 1)%Z
    /\ window_of ref_norm (Z.to_nat w) (best_match r).
Proof.
  intros (_ & _ & _ & idx & Hsel).
  apply extractOne_In, candidates_for_In_iff in Hsel.
  destruct Hsel as (w & Hpos & Hrange & Hm).
  exists w. repeat split; try lia. now apply build_windows_window_of.
Qed.

(** X3. Every matched text of a run is a non-empty string that is
    already normalized: normalizing it again changes nothing. *)
Theorem matches_are_normalized (fs : Os.FileSystem) (uid : str) (ocr_lines : list str)
        (reference_text outdir : str) (threshold : Z) (out : Output) :
  run (align_ocr_lines fs uid ocr_lines reference_text outdir threshold)
  = Ok out ->
  Forall (fun r => best_match r <> []
                   /\ normalize_hebrew (best_match r) = best_match r)
         (results out).
Proof.
  intros H. apply run_ok, run_rows in H.
  apply Forall2_right with (P := fun r => best_match r <> []
                     /\ normalize_hebrew (best_match r) = best_match r) in H;
    [exact H|].
  intros line r Hr. apply row_of_window in Hr.
  destruct Hr as (w & Hpos & _ & Hwin).
  apply window_normalized with (text := normalize_hebrew reference_text)
                               (w := Z.to_nat w); [lia | | exact Hwin].
  unfold normalize_hebrew. apply strip_Forall, filter_Forall_true.
Qed.

Lemma matches_are_normalized_witness :
  exists out,
    run (align_ocr_lines Os.always_ok (of_ascii "0a1b2c3d"%string) [[97; 1488; 33]%N]
                    [1488; 10; 1489; 46]%N (of_ascii "aligned"%string) 70)
    = Ok out
    /\ Forall (fun r => best_match r <> []
                        /\ normalize_hebrew (best_match r) = best_match r)
              (results out).
Proof.
  eexists. split; [vm_compute; reflexivity|].
  apply (@matches_are_normalized
           Os.always_ok
           (of_ascii "0a1b2c3d"%string) [[97; 1488; 33]%N]
           [1488; 10; 1489; 46]%N (of_ascii "aligned"%string) 70%Z).
  vm_compute; reflexivity.
Defined.

(** X4. The candidate set of a line is empty exactly when the
    normalized reference has fewer words than the smallest window size
    tried for the line, which is [max(1, tokens - 1)]. *)
Theorem candidates_for_empty_iff (ref_norm norm_line : str) :
  candidates_for ref_norm norm_line = []
  <-> (len (split ref_norm) < Z.max 1 (len (split norm_line) - 1))%Z.
Proof.
  fold (least_size (len (split norm_line))). split.
  - intros E.
    destruct (Z.lt_ge_cases (len (split ref_norm))
                            (least_size (len (split norm_line))))
      as [Hlt|Hge]; [exact Hlt|].
    apply Z.ge_le_iff in Hge || idtac.
    exfalso. apply (@candidates_some_when_enough ref_norm norm_line); [lia|].
    exact E.
  - apply candidates_none_when_short.
Qed.

(** The alignment returns exactly when, for every line, the
    normalized reference has at least [max(1, tokens - 1)] words; in
    every other case it ends with the [TypeError]. *)
Lemma alignment_succeeds_iff (uid : str) (ocr_lines : list str)
        (reference_text outdir : str) (threshold : Z) :
  let enough line :=
    (Z.max 1 (len (split (normalize_hebrew line)) - 1)
     <= len (split (normalize_hebrew reference_text)))%Z in
  ((exists out,
       alignment uid ocr_lines reference_text outdir threshold = Ok out
       /\ List.length (results out) = List.length ocr_lines)
   <-> Forall enough ocr_lines)
  /\ (alignment uid ocr_lines reference_text outdir threshold
      = Raise TypeError
      <-> Exists (fun line => ~ enough line) ocr_lines).
Proof.
  intros enough.
  assert (Hen : forall line,
             enough line
             <-> candidates_for (normalize_hebrew reference_text)
                                (normalize_hebrew line) <> []).
  { intros line. unfold enough. split.
    - intros H. apply candidates_some_when_enough. unfold least_size. lia.
    - intros H.
      destruct (Z.lt_ge_cases
                  (len (split (normalize_hebrew reference_text)))
                  (Z.max 1 (len (split (normalize_hebrew line)) - 1)))
        as [Hlt|Hge]; [|lia].
      exfalso. apply H. apply candidates_none_when_short.
      unfold least_size. lia. }
  assert (Hok : Forall enough ocr_lines ->
                exists out,
                  alignment uid ocr_lines reference_text outdir threshold
                  = Ok out
                  /\ List.length (results out) = List.length ocr_lines).
  { intros Hall.
    destruct (@align_loop_total (normalize_hebrew reference_text) ocr_lines
                                ([], [])) as [[rows log] E].
    - eapply Forall_impl; [|exact Hall]. intros l. apply Hen.
    - assert (Hrun : exists out,
                 alignment uid ocr_lines reference_text outdir threshold
                 = Ok out).
      { unfold alignment. rewrite E. simpl. eauto. }
      destruct Hrun as [out Hrun]. exists out. split; [exact Hrun|].
      apply run_rows in Hrun. apply Forall2_length in Hrun. lia. }
  assert (Hbad : Exists (fun line => ~ enough line) ocr_lines ->
                 alignment uid ocr_lines reference_text outdir threshold
                 = Raise TypeError).
  { intros Hex. apply Exists_exists in Hex. destruct Hex as (line & Hin & Hn).
    apply in_split in Hin. destruct Hin as (pre & post & ->).
    unfold alignment. rewrite align_loop_raises; [reflexivity|].
    destruct (candidates_for (normalize_hebrew reference_text)
                             (normalize_hebrew line)) eqn:E; [reflexivity|].
    exfalso. apply Hn, Hen. rewrite E. discriminate. }
  assert (Hdec : Forall enough ocr_lines
                 \/ Exists (fun line => ~ enough line) ocr_lines).
  { clear. induction ocr_lines as [|l ls [IH|IH]]; [left; constructor| |].
    - destruct (Z_le_dec (Z.max 1 (len (split (normalize_hebrew l)) - 1))
                         (len (split (normalize_hebrew reference_text))))
        as [Hl|Hl].
      + left. now constructor.
      + right. now left.
    - right. now right. }
  split; split.
  - intros (out & Hrun & _). destruct Hdec as [Hall|Hex]; [exact Hall|].
    rewrite (Hbad Hex) in Hrun. discriminate.
  - exact Hok.
  - intros Hrun. destruct Hdec as [Hall|Hex]; [|exact Hex].
    destruct (Hok Hall) as (out & Hrun' & _).
    rewrite Hrun in Hrun'. discriminate.
  - exact Hbad.
Qed.

(** X5. On every file system, a run that returns has one row per line
    and, for every line, a normalized reference of at least
    [max(1, tokens - 1)] words; a run that ends with the [TypeError]
    has a line that fails that test, and a run with such a line never
    returns.  Where the output directory is not the empty path and every
    call to the file system succeeds, the run returns exactly when every
    line passes the test and ends with the [TypeError] exactly when
    some line fails it.  With the empty path as output directory the
    run ends in [os.makedirs] with [FileNotFoundError], whatever the
    lines are. *)
Theorem run_succeeds_iff (fs : Os.FileSystem) (uid : str)
        (ocr_lines : list str)
        (reference_text outdir : str) (threshold : Z) :
  let enough line :=
    (Z.max 1 (len (split (normalize_hebrew line)) - 1)
     <= len (split (normalize_hebrew reference_text)))%Z in
  let run_ :=
    run (align_ocr_lines fs uid ocr_lines reference_text outdir threshold) in
  (forall out,
      run_ = Ok out ->
      Forall enough ocr_lines
      /\ List.length (results out) = List.length ocr_lines)
  /\ (run_ = Raise TypeError -> Exists (fun line => ~ enough line) ocr_lines)
  /\ (Exists (fun line => ~ enough line) ocr_lines ->
      forall out, run_ <> Ok out)
  /\ (Os.obliging fs -> outdir <> [] ->
      ((exists out,
           run_ = Ok out
           /\ List.length (results out) = List.length ocr_lines)
       <-> Forall enough ocr_lines)
      /\ (run_ = Raise TypeError
          <-> Exists (fun line => ~ enough line) ocr_lines))
  /\ (outdir = [] -> run_ = Raise (Failed Os.FileNotFoundError)).
Proof.
  cbv zeta.
  destruct (alignment_succeeds_iff uid ocr_lines reference_text outdir
                                   threshold) as [Hok Hbad].
  cbv zeta in Hok, Hbad.
  split; [|split; [|split; [|split]]].
  - intros out H. apply run_ok in H.
    assert (Hex : exists out,
               alignment uid ocr_lines reference_text outdir threshold
               = Ok out
               /\ List.length (results out) = List.length ocr_lines).
    { exists out. split; [exact H|].
      apply run_rows, Forall2_length in H. lia. }
    split; [now apply Hok|].
    destruct Hex as (out' & H' & Hlen). congruence.
  - intros H. apply run_type_error in H. now apply Hbad.
  - intros Hex out H. apply run_ok in H. apply Hbad in Hex. congruence.
  - intros Hfs Hdir. rewrite run_obliging by assumption.
    split; assumption.
  - intros ->. apply run_empty_outdir.
Qed.

Lemma run_succeeds_iff_witness :
  exists out,
    run (align_ocr_lines Os.always_ok (of_ascii "0a1b2c3d"%string)
                         [[1488; 32; 1489; 32; 1490]%N; [1488]%N]
                         [1488; 32; 1489]%N
                         (of_ascii "aligned"%string) 70) = Ok out
    /\ List.length (results out) = 2.
Proof.
  apply (proj1 (proj1 (proj2 (proj2 (proj2 (@run_succeeds_iff
           Os.always_ok (of_ascii "0a1b2c3d"%string)
           [[1488; 32; 1489; 32; 1490]%N; [1488]%N]
           [1488; 32; 1489]%N (of_ascii "aligned"%string) 70%Z))))
         always_ok_obliging ltac:(discriminate))).
  repeat constructor; vm_compute; discriminate.
Defined.

(** X6. Every matched text of a run is a window of the normalized
    reference: [w] consecutive reference words joined by single spaces,
    where [w] is positive and differs from the number of tokens of the
    normalized line by at most one. *)
Theorem matches_are_windows (fs : Os.FileSystem) (uid : str) (ocr_lines : list str)
        (reference_text outdir : str) (threshold : Z) (out : Output) :
  run (align_ocr_lines fs uid ocr_lines reference_text outdir threshold)
  = Ok out ->
  Forall (fun r =>
            exists w : Z,
              (0 < w)%Z
              /\ (len (split (normalize_hebrew (ocr_line r))) - 1 <= w
                  <= len (split (normalize_hebrew (ocr_line r))) + 1)%Z
              /\ window_of (normalize_hebrew reference_text) (Z.to_nat w)
                           (best_match r))
         (results out).
Proof.
  intros H. apply run_ok, run_rows in H.
  eapply Forall2_right; [|exact H].
  intros line r Hr. cbv beta.
  destruct Hr as [Hline Hrest]. rewrite Hline.
  apply (@row_of_window (normalize_hebrew reference_text) line r).
  split; assumption.
Qed.

Lemma matches_are_windows_witness :
  exists out,
    run (align_ocr_lines Os.always_ok (of_ascii "0a1b2c3d"%string) [[1488; 32; 1490]%N]
                    [1488; 10; 1489; 32; 32; 1490]%N
                    (of_ascii "aligned"%string) 70)
    = Ok out
    /\ Forall (fun r =>
                 exists w : Z,
                   (0 < w)%Z
                   /\ (len (split (normalize_hebrew (ocr_line r))) - 1 <= w
                       <= len (split (normalize_hebrew (ocr_line r))) + 1)%Z
                   /\ window_of (normalize_hebrew
                                   [1488; 10; 1489; 32; 32; 1490]%N)
                                (Z.to_nat w) (best_match r))
              (results out).
Proof.
  eexists. split; [vm_compute; reflexivity|].
  apply (@matches_are_windows
           Os.always_ok
           (of_ascii "0a1b2c3d"%string) [[1488; 32; 1490]%N]
           [1488; 10; 1489; 32; 32; 1490]%N (of_ascii "aligned"%string) 70%Z).
  vm_compute; reflexivity.
Defined.

(** ** Recorded scores *)

Lemma lcs_cons_cons (x y : char) (s1 s2 : str) :
  lcs (x :: s1) (y :: s2)
  = if (x =? y)%N then S (lcs s1 s2)
    else Nat.max (lcs s1 (y :: s2)) (lcs (x :: s1) s2).
Proof. reflexivity. Qed.

Lemma lcs_refl (s : str) : lcs s s = List.length s.
Proof.
  induction s as [|x s IH]; [reflexivity|].
  rewrite lcs_cons_cons, N.eqb_refl, IH. reflexivity.
Qed.

Lemma lcs_full_eq (s1 s2 : str) :
  lcs s1 s2 = List.length s1 -> List.length s1 = List.length s2 -> s1 = s2.
Proof.
  revert s2. induction s1 as [|x s1 IH]; intros [|y s2] Hl Hlen;
    try discriminate; [reflexivity|].
  rewrite lcs_cons_cons in Hl. cbn [List.length] in Hl, Hlen.
  destruct (N.eqb_spec x y) as [->|Hne].
  - f_equal. apply IH; lia.
  - pose proof (lcs_le_left s1 (y :: s2)).
    pose proof (lcs_le_right (x :: s1) s2). lia.
Qed.

Lemma Pos_of_nat_Z (n : nat) : n <> 0 -> Z.pos (Pos.of_nat n) = Z.of_nat n.
Proof.
  intros H. rewrite <- positive_nat_Z, Nat2Pos.id by exact H. reflexivity.
Qed.

Lemma similarity_refl (s : str) : similarity s s = 100%Q.
Proof.
  unfold similarity.
  destruct (Nat.eqb_spec (List.length s + List.length s) 0) as [E|E];
    [reflexivity|].
  change 100%Q with (Qred 100). apply Qred_complete.
  unfold Qeq. cbn [Qnum Qden]. rewrite lcs_refl, Pos_of_nat_Z by exact E. lia.
Qed.

Lemma similarity_top_eq (s1 s2 : str) :
  (similarity s1 s2 == 100)%Q -> s1 = s2.
Proof.
  unfold similarity.
  destruct (Nat.eqb_spec (List.length s1 + List.length s2) 0) as [E|E].
  - intros _. destruct s1, s2; try discriminate. reflexivity.
  - rewrite Qred_correct. unfold Qeq. cbn [Qnum Qden].
    rewrite Pos_of_nat_Z by exact E. intros H.
    pose proof (lcs_le_left s1 s2). pose proof (lcs_le_right s1 s2).
    apply lcs_full_eq; lia.
Qed.

Lemma row_of_best (ref_norm line : str) (r : Row) :
  row_of ref_norm line r ->
  exists idx,
    first_best (normalize_hebrew line)
               (candidates_for ref_norm (normalize_hebrew line))
               (best_match r) (score r) idx.
Proof.
  intros (_ & _ & _ & idx & Hsel). exists idx.
  now apply extractOne_first_best.
Qed.

(** X7. The score recorded for a line is the similarity of the
    normalized line and the matched text; it lies between 0 and 100 and
    no candidate of the line has a greater similarity. *)
Theorem recorded_scores (fs : Os.FileSystem) (uid : str) (ocr_lines : list str)
        (reference_text outdir : str) (threshold : Z) (out : Output) :
  run (align_ocr_lines fs uid ocr_lines reference_text outdir threshold)
  = Ok out ->
  Forall (fun r =>
            score r = similarity (normalize_hebrew (ocr_line r)) (best_match r)
            /\ (0 <= score r <= 100)%Q
            /\ forall c,
                 In c (candidates_for (normalize_hebrew reference_text)
                                      (normalize_hebrew (ocr_line r))) ->
                 (similarity (normalize_hebrew (ocr_line r)) c <= score r)%Q)
         (results out).
Proof.
  intros H. apply run_ok, run_rows in H.
  eapply Forall2_right; [|exact H].
  intros line r Hr. cbv beta.
  destruct (row_of_best Hr) as (idx & _ & Hs & Hmax & _).
  destruct Hr as [-> _].
  split; [exact Hs|]. split; [rewrite Hs; apply similarity_bounds|].
  intros c Hc. apply In_nth_error in Hc. destruct Hc as [j Hj]. eauto.
Qed.

Lemma recorded_scores_witness :
  exists out,
    run (align_ocr_lines Os.always_ok (of_ascii "0a1b2c3d"%string) [[1488; 1491]%N]
                    [1488; 1489; 32; 1490]%N (of_ascii "aligned"%string) 70)
    = Ok out
    /\ map score (results out) = [50%Q]
    /\ Forall (fun r => (0 <= score r <= 100)%Q) (results out).
Proof.
  eexists. split; [vm_compute; reflexivity|].
  split; [vm_compute; reflexivity|].
  eapply Forall_impl;
    [|apply (@recorded_scores
               Os.always_ok
               (of_ascii "0a1b2c3d"%string) [[1488; 1491]%N]
               [1488; 1489; 32; 1490]%N (of_ascii "aligned"%string) 70%Z);
      vm_compute; reflexivity].
  intros r (_ & Hb & _). exact Hb.
Defined.

(** X8. A line whose normalized form is itself one of its candidates is
    matched to exactly that text, with score 100. *)
Theorem exact_match_scores_100 (fs : Os.FileSystem) (uid : str) (ocr_lines : list str)
        (reference_text outdir : str) (threshold : Z) (out : Output) :
  run (align_ocr_lines fs uid ocr_lines reference_text outdir threshold)
  = Ok out ->
  Forall (fun r =>
            In (normalize_hebrew (ocr_line r))
               (candidates_for (normalize_hebrew reference_text)
                               (normalize_hebrew (ocr_line r))) ->
            best_match r = normalize_hebrew (ocr_line r)
            /\ score r = 100%Q)
         (results out).
Proof.
  intros H. apply run_ok, run_rows in H.
  eapply Forall2_right; [|exact H].
  intros line r Hr. cbv beta.
  destruct (row_of_best Hr) as (idx & _ & Hs & Hmax & _).
  destruct Hr as [<- _]. intros Hin.
  apply In_nth_error in Hin. destruct Hin as [j Hj].
  specialize (Hmax j _ Hj). rewrite similarity_refl in Hmax.
  pose proof (similarity_bounds (normalize_hebrew (ocr_line r)) (best_match r))
    as Hb.
  assert (Heq : normalize_hebrew (ocr_line r) = best_match r).
  { rewrite Hs in Hmax. apply similarity_top_eq. lra. }
  split; [now symmetry|].
  rewrite Hs, <- Heq. apply similarity_refl.
Qed.

Lemma exact_match_scores_100_witness :
  exists out,
    run (align_ocr_lines Os.always_ok (of_ascii "0a1b2c3d"%string) [[33; 1489; 32; 1490; 63]%N]
                    [1488; 32; 1489; 32; 1490]%N (of_ascii "aligned"%string) 70)
    = Ok out
    /\ Forall (fun r =>
                 In (normalize_hebrew (ocr_line r))
                    (candidates_for (normalize_hebrew [1488; 32; 1489; 32; 1490]%N)
                                    (normalize_hebrew (ocr_line r))) ->
                 best_match r = normalize_hebrew (ocr_line r)
                 /\ score r = 100%Q)
              (results out)
    /\ map best_match (results out) = [[1489; 32; 1490]%N].
Proof.
  eexists. split; [vm_compute; reflexivity|].
  split; [|vm_compute; reflexivity].
  apply (@exact_match_scores_100
           Os.always_ok
           (of_ascii "0a1b2c3d"%string) [[33; 1489; 32; 1490; 63]%N]
           [1488; 32; 1489; 32; 1490]%N (of_ascii "aligned"%string) 70%Z).
  vm_compute; reflexivity.
Defined.

(** ** Recorded offsets *)

(** X9. The Start Index of a row is either [-1], and then the matched
    text occurs nowhere in the normalized reference, or the offset of
    the first place where it occurs. *)
Theorem start_index_meaning (fs : Os.FileSystem) (uid : str) (ocr_lines : list str)
        (reference_text outdir : str) (threshold : Z) (out : Output) :
  run (align_ocr_lines fs uid ocr_lines reference_text outdir threshold)
  = Ok out ->
  Forall (fun r =>
            (start_index r = (-1)%Z
             /\ forall k,
                  startswith (skipn k (normalize_hebrew reference_text))
                             (best_match r) = false)
            \/ (exists n,
                   start_index r = Z.of_nat n
                   /\ startswith (skipn n (normalize_hebrew reference_text))
                                 (best_match r) = true
                   /\ forall k, k < n ->
                        startswith (skipn k (normalize_hebrew reference_text))
                                   (best_match r) = false))
         (results out).
Proof.
  intros H. apply run_ok, run_rows in H.
  eapply Forall2_right; [|exact H].
  intros line r (_ & _ & -> & _). apply find_first_occurrence.
Qed.

Lemma start_index_meaning_witness :
  exists out,
    run (align_ocr_lines Os.always_ok (of_ascii "0a1b2c3d"%string) [[1489]%N]
                    [1488; 32; 1489]%N (of_ascii "aligned"%string) 70)
    = Ok out
    /\ map start_index (results out) = [2%Z]
    /\ Forall (fun r => (-1 <= start_index r)%Z) (results out).
Proof.
  eexists. split; [vm_compute; reflexivity|].
  split; [vm_compute; reflexivity|].
  eapply Forall_impl;
    [|apply (@start_index_meaning
               Os.always_ok
               (of_ascii "0a1b2c3d"%string) [[1489]%N]
               [1488; 32; 1489]%N (of_ascii "aligned"%string) 70%Z);
      vm_compute; reflexivity].
  intros r [[-> _]|(n & -> & _)]; lia.
Defined.

(** X10. When the words of the normalized reference are separated by
    single spaces only, every matched text occurs in it and every Start
    Index is the non-negative offset of its first occurrence. *)
Theorem start_index_found_when_single_spaced
        (fs : Os.FileSystem) (uid : str) (ocr_lines : list str)
        (reference_text outdir : str) (threshold : Z) (out : Output) :
  normalize_hebrew reference_text
  = join [space] (split (normalize_hebrew reference_text)) ->
  run (align_ocr_lines fs uid ocr_lines reference_text outdir threshold)
  = Ok out ->
  Forall (fun r =>
            exists n,
              start_index r = Z.of_nat n
              /\ startswith (skipn n (normalize_hebrew reference_text))
                            (best_match r) = true
              /\ forall k, k < n ->
                   startswith (skipn k (normalize_hebrew reference_text))
                              (best_match r) = false)
         (results out).
Proof.
  intros Hsp H. apply run_ok, run_rows in H.
  eapply Forall2_right; [|exact H].
  intros line r Hr. now apply start_index_single_spaced with (line := line).
Qed.

Lemma start_index_found_when_single_spaced_witness :
  exists out,
    run (align_ocr_lines Os.always_ok (of_ascii "0a1b2c3d"%string) [[1489; 32; 1490]%N]
                    [1488; 32; 1489; 32; 1490; 10]%N
                    (of_ascii "aligned"%string) 70)
    = Ok out
    /\ map start_index (results out) = [2%Z]
    /\ Forall (fun r => (0 <= start_index r)%Z) (results out).
Proof.
  eexists. split; [vm_compute; reflexivity|].
  split; [vm_compute; reflexivity|].
  eapply Forall_impl;
    [|apply (@start_index_found_when_single_spaced
               Os.always_ok
               (of_ascii "0a1b2c3d"%string) [[1489; 32; 1490]%N]
               [1488; 32; 1489; 32; 1490; 10]%N
               (of_ascii "aligned"%string) 70%Z);
      vm_compute; reflexivity].
  intros r (n & -> & _). lia.
Defined.

(** ** The shape of logged pairs *)

Import LogProps.

Lemma pair_up_well_formed_upto (n : nat) (es : list edit) :
  List.length es <= n ->
  Forall char_edit es -> Forall well_formed_pair (pair_up es).
Proof.
  revert es. induction n as [|n IH]; intros es Hn Hes.
  - destruct es; [constructor | simpl in Hn; lia].
  - destruct es as [|e es]; [constructor|].
    inversion Hes as [|e' es' Hce Hes']; subst. destruct Hce as [c He].
    simpl in Hn.
    assert (Htail : Forall well_formed_pair (pair_up es))
      by (apply IH; [lia | exact Hes']).
    assert (Hdel : well_formed_pair ([c], [])).
    { unfold well_formed_pair, side. simpl.
      split; [right; eauto | split; [now left | discriminate]]. }
    assert (Hins : well_formed_pair ([], [c])).
    { unfold well_formed_pair, side. simpl.
      split; [now left | split; [right; eauto | discriminate]]. }
    destruct He as [-> | [-> | ->]].
    + exact Htail.
    + destruct es as [|e2 es2];
        [cbn [pair_up]; constructor; [exact Hdel | constructor]|].
      inversion Hes' as [|e2' es2' Hce2 Hes2]; subst.
      destruct Hce2 as [c2 He2].
      destruct He2 as [-> | [-> | ->]]; cbn [pair_up].
      * constructor; [exact Hdel | exact Htail].
      * constructor; [exact Hdel | exact Htail].
      * constructor; [|apply IH; [simpl in Hn; lia | exact Hes2]].
        unfold well_formed_pair, side. simpl.
        split; [right; eauto | split; [right; eauto | discriminate]].
    + cbn [pair_up]. constructor; [exact Hins | exact Htail].
Qed.

Lemma edits_of_diff_lines (lines : list str) :
  Forall diff_line lines -> Forall char_edit (map edit_of_line lines).
Proof.
  intros H. apply Forall_map. eapply Forall_impl; [|exact H].
  intros d Hd. destruct (edit_of_diff_line Hd) as [c [[_ E]|[[_ E]|[_ E]]]];
    exists c; rewrite E; auto.
Qed.

Lemma diff_strings_appends (ocr ref : str) (log : list confusion) :
  exists new,
    diff_strings ocr ref log = log ++ new /\ Forall well_formed_pair new.
Proof.
  exists (pair_up (map edit_of_line (Difflib.ndiff ocr ref))). split.
  - unfold diff_strings. now rewrite diff_loop_pair_up by lia.
  - apply pair_up_well_formed_upto with (n := List.length (Difflib.ndiff ocr ref));
      [now rewrite length_map|].
    apply edits_of_diff_lines, ndiff_lines.
Qed.

Lemma fold_diff_strings_well_formed (rows : list Row) (log : list confusion) :
  Forall well_formed_pair log ->
  Forall well_formed_pair
         (fold_left (fun log r => diff_strings (ocr_line r) (best_match r) log)
                    rows log).
Proof.
  revert log. induction rows as [|r rows IH]; intros log Hlog; [exact Hlog|].
  cbn [fold_left]. apply IH.
  destruct (diff_strings_appends (ocr_line r) (best_match r) log)
    as (new & -> & Hnew).
  apply Forall_app. now split.
Qed.

Lemma run_log (uid : str) (ocr_lines : list str)
      (reference_text outdir : str) (threshold : Z) (out : Output) :
  alignment uid ocr_lines reference_text outdir threshold = Ok out ->
  confusion_log out
  = fold_left (fun log r => diff_strings (ocr_line r) (best_match r) log)
              (results out) [].
Proof.
  intros H. apply alignment_ok in H.
  destruct (@align_loop_ok _ _ _ _ _ _ H) as (new & E & _ & Hlog).
  simpl in E. now subst new.
Qed.

(** X11. [diff_strings] only ever appends to the log it is given, and
    every pair it appends, in every run, has a single character or
    nothing on each side and never nothing on both. *)
Theorem logged_pairs_well_formed :
  (forall ocr ref log,
      exists new,
        diff_strings ocr ref log = log ++ new
        /\ Forall well_formed_pair new)
  /\ (forall fs uid ocr_lines reference_text outdir threshold out,
         run (align_ocr_lines fs uid ocr_lines reference_text outdir
                              threshold) = Ok out ->
         Forall well_formed_pair (confusion_log out)).
Proof.
  split; [exact diff_strings_appends|].
  intros fs uid ocr_lines reference_text outdir threshold out H.
  apply run_ok in H. erewrite run_log by exact H.
  apply fold_diff_strings_well_formed. constructor.
Qed.

Lemma logged_pairs_well_formed_witness :
  exists out,
    run (align_ocr_lines Os.always_ok (of_ascii "0a1b2c3d"%string) [[1488; 97; 1490]%N]
                    [1488; 1489]%N (of_ascii "aligned"%string) 70)
    = Ok out
    /\ confusion_log out = [([], [1489]%N); ([97]%N, []); ([1490]%N, [])]
    /\ Forall well_formed_pair (confusion_log out).
Proof.
  eexists. split; [vm_compute; reflexivity|].
  split; [vm_compute; reflexivity|].
  apply logged_pairs_well_formed
    with (fs := Os.always_ok)
         (uid := of_ascii "0a1b2c3d"%string) (ocr_lines := [[1488; 97; 1490]%N])
         (reference_text := [1488; 1489]%N)
         (outdir := of_ascii "aligned"%string) (threshold := 70%Z).
  vm_compute; reflexivity.
Defined.

(** ** The confusion table *)

Lemma confusion_eqb_eq (x y : confusion) : confusion_eqb x y = true <-> x = y.
Proof.
  destruct x as [x1 x2], y as [y1 y2]. unfold confusion_eqb. simpl.
  rewrite andb_true_iff, !str_eqb_eq. split; [intros [-> ->] | intros [= -> ->]];
    auto.
Qed.

Lemma confusion_eqb_neq (x y : confusion) :
  confusion_eqb x y = false <-> x <> y.
Proof.
  rewrite <- confusion_eqb_eq. destruct (confusion_eqb x y); split;
    congruence.
Qed.

Section Tally.

Variable f : confusion -> nat.

Lemma get_map_absent (ks : list confusion) (y : confusion) :
  ~ In y ks ->
  Dict.get confusion_eqb (map (fun x => (x, f x)) ks) y = None.
Proof.
  induction ks as [|k ks IH]; simpl; [reflexivity|]. intros H.
  destruct (confusion_eqb k y) eqn:E.
  - apply confusion_eqb_eq in E. tauto.
  - apply IH. tauto.
Qed.

Lemma get_map_present (ks : list confusion) (y : confusion) :
  In y ks ->
  Dict.get confusion_eqb (map (fun x => (x, f x)) ks) y = Some (f y).
Proof.
  induction ks as [|k ks IH]; simpl; [tauto|]. intros H.
  destruct (confusion_eqb k y) eqn:E.
  - apply confusion_eqb_eq in E. now subst.
  - apply confusion_eqb_neq in E. apply IH. destruct H; [contradiction|auto].
Qed.

Lemma set_map_absent (ks : list confusion) (y : confusion) (v : nat) :
  ~ In y ks ->
  Dict.set confusion_eqb (map (fun x => (x, f x)) ks) y v
  = map (fun x => (x, f x)) ks ++ [(y, v)].
Proof.
  induction ks as [|k ks IH]; simpl; [reflexivity|]. intros H.
  destruct (confusion_eqb k y) eqn:E.
  - apply confusion_eqb_eq in E. tauto.
  - rewrite IH; [reflexivity | tauto].
Qed.

Lemma set_map_present (ks : list confusion) (y : confusion) (v : nat) :
  In y ks -> NoDup ks ->
  Dict.set confusion_eqb (map (fun x => (x, f x)) ks) y v
  = map (fun x => (x, if confusion_eq_dec x y then v else f x)) ks.
Proof.
  induction ks as [|k ks IH]; simpl; [tauto|]. intros Hin Hnd.
  inversion Hnd as [|k' ks' Hk Hks]; subst.
  destruct (confusion_eqb k y) eqn:E.
  - apply confusion_eqb_eq in E. subst k.
    destruct (confusion_eq_dec y y); [|contradiction]. f_equal.
    apply map_ext_in. intros x Hx.
    destruct (confusion_eq_dec x y); [subst; contradiction | reflexivity].
  - apply confusion_eqb_neq in E.
    destruct (confusion_eq_dec k y); [contradiction|]. f_equal.
    apply IH; [destruct Hin; [contradiction | assumption] | exact Hks].
Qed.

End Tally.

Lemma first_occurrences_In (log : list confusion) (x : confusion) :
  In x (first_occurrences log) <-> In x log.
Proof.
  unfold first_occurrences. now rewrite <- in_rev, nodup_In, <- in_rev.
Qed.

Lemma first_occurrences_NoDup (log : list confusion) :
  NoDup (first_occurrences log).
Proof. unfold first_occurrences. apply NoDup_rev, NoDup_nodup. Qed.

Lemma first_occurrences_snoc (log : list confusion) (y : confusion) :
  first_occurrences (log ++ [y])
  = if in_dec confusion_eq_dec y log then first_occurrences log
    else first_occurrences log ++ [y].
Proof.
  unfold first_occurrences. rewrite rev_app_distr. cbn [rev app nodup].
  destruct (in_dec confusion_eq_dec y (rev log)) as [H|H],
           (in_dec confusion_eq_dec y log) as [H'|H']; try reflexivity.
  - now apply in_rev in H.
  - now apply in_rev in H'.
Qed.

Lemma count_occ_snoc (log : list confusion) (x y : confusion) :
  count_occ confusion_eq_dec (log ++ [y]) x
  = count_occ confusion_eq_dec log x
    + (if confusion_eq_dec y x then 1 else 0).
Proof.
  rewrite count_occ_app. simpl.
  destruct (confusion_eq_dec y x); lia.
Qed.

(** [Counter(log)] lists every distinct pair once, in first-logged
    order, with the number of times it was logged. *)
Lemma Counter_is_tally (log : list confusion) : Counter log = tally log.
Proof.
  induction log as [|y log IH] using rev_ind; [reflexivity|].
  unfold Counter in *. rewrite fold_left_app. cbn [fold_left]. rewrite IH.
  unfold tally. rewrite first_occurrences_snoc.
  destruct (in_dec confusion_eq_dec y log) as [Hin|Hout].
  - rewrite get_map_present by now apply first_occurrences_In.
    rewrite set_map_present
      by (apply first_occurrences_In || apply first_occurrences_NoDup; auto).
    apply map_ext. intros x. rewrite count_occ_snoc.
    destruct (confusion_eq_dec x y) as [->|Hne].
    + destruct (confusion_eq_dec y y); [reflexivity | contradiction].
    + destruct (confusion_eq_dec y x); [subst; contradiction|].
      now rewrite Nat.add_0_r.
  - rewrite get_map_absent by now rewrite first_occurrences_In.
    rewrite set_map_absent by now rewrite first_occurrences_In.
    rewrite map_app. cbn [map]. f_equal.
    + apply map_ext_in. intros x Hx. rewrite count_occ_snoc.
      destruct (confusion_eq_dec y x) as [->|Hne]; [|now rewrite Nat.add_0_r].
      rewrite first_occurrences_In in Hx. tauto.
    + rewrite count_occ_snoc.
      destruct (confusion_eq_dec y y); [|contradiction].
      now rewrite (proj1 (count_occ_not_In confusion_eq_dec log y) Hout).
Qed.

Lemma list_sum_map_add {A} (f g : A -> nat) (l : list A) :
  list_sum (map (fun x => f x + g x) l)
  = list_sum (map f l) + list_sum (map g l).
Proof. induction l as [|x l IH]; simpl; lia. Qed.

Lemma list_sum_indicator (ks : list confusion) (a : confusion) :
  list_sum (map (fun x => if confusion_eq_dec a x then 1 else 0) ks)
  = count_occ confusion_eq_dec ks a.
Proof.
  induction ks as [|k ks IH]; simpl; [reflexivity|].
  rewrite IH. destruct (confusion_eq_dec a k) as [->|Hne].
  - destruct (confusion_eq_dec k k); [reflexivity | contradiction].
  - destruct (confusion_eq_dec k a); [subst; contradiction | reflexivity].
Qed.

Lemma sum_of_counts (ks log : list confusion) :
  NoDup ks -> incl log ks ->
  list_sum (map (count_occ confusion_eq_dec log) ks) = List.length log.
Proof.
  intros Hnd. induction log as [|a log IH]; intros Hincl.
  - clear. induction ks as [|k ks IHk]; simpl in *; [reflexivity | exact IHk].
  - assert (Ha : In a ks) by (apply Hincl; now left).
    assert (Hrest : incl log ks) by (intros x Hx; apply Hincl; now right).
    rewrite (map_ext (count_occ confusion_eq_dec (a :: log))
                     (fun x => (if confusion_eq_dec a x then 1 else 0)
                               + count_occ confusion_eq_dec log x)).
    + rewrite list_sum_map_add, list_sum_indicator, (IH Hrest).
      apply NoDup_count_occ' with (decA := confusion_eq_dec) in Ha;
        [|exact Hnd].
      simpl. lia.
    + intros x. simpl. destruct (confusion_eq_dec a x); lia.
Qed.

(** X12. The count table built from the confusion log lists every
    distinct logged pair exactly once, in the order in which the pairs
    were first logged, each with the number of times it was logged; the
    counts are positive and add up to the length of the log. *)
Theorem Counter_counts (log : list confusion) :
  Counter log
  = map (fun x => (x, count_occ confusion_eq_dec log x))
        (first_occurrences log)
  /\ NoDup (map fst (Counter log))
  /\ (forall x, In x (map fst (Counter log)) <-> In x log)
  /\ Forall (fun row => 0 < snd row) (Counter log)
  /\ list_sum (map snd (Counter log)) = List.length log.
Proof.
  rewrite Counter_is_tally. unfold tally.
  split; [reflexivity|]. rewrite !map_map. cbn [fst snd]. rewrite map_id.
  split; [apply first_occurrences_NoDup|].
  split; [apply first_occurrences_In|]. split.
  - apply Forall_map, Forall_forall. intros x Hx. cbn [snd].
    rewrite first_occurrences_In in Hx.
    now apply (count_occ_In confusion_eq_dec) in Hx.
  - apply sum_of_counts; [apply first_occurrences_NoDup|].
    intros x Hx. now apply first_occurrences_In.
Qed.

Section MostCommon.

Lemma insert_by_count_perm (x : confusion * nat) (l : list (confusion * nat)) :
  Permutation (insert_by_count x l) (x :: l).
Proof.
  induction l as [|y l IH]; simpl; [reflexivity|].
  destruct (snd x <? snd y); [|reflexivity].
  rewrite IH. apply perm_swap.
Qed.

Lemma insert_by_count_sorted (x : confusion * nat) (l : list (confusion * nat)) :
  StronglySorted by_count_desc l ->
  StronglySorted by_count_desc (insert_by_count x l).
Proof.
  induction 1 as [|y l Hl IH Hy]; simpl; [repeat constructor|].
  destruct (Nat.ltb_spec (snd x) (snd y)) as [Hlt|Hge].
  - constructor; [exact IH|].
    eapply Permutation_Forall; [symmetry; apply insert_by_count_perm|].
    constructor; [unfold by_count_desc; lia | exact Hy].
  - constructor; [now constructor|].
    constructor; [exact Hge|].
    eapply Forall_impl; [|exact Hy]. unfold by_count_desc. intros z. lia.
Qed.

Lemma insert_by_count_filter (n : nat) (x : confusion * nat) (l : list (confusion * nat)) :
  StronglySorted by_count_desc l ->
  filter (fun p => snd p =? n) (insert_by_count x l)
  = filter (fun p => snd p =? n) (x :: l).
Proof.
  induction 1 as [|y l Hl IH Hy]; [reflexivity|].
  cbn [insert_by_count].
  destruct (Nat.ltb_spec (snd x) (snd y)) as [Hlt|Hge]; [|reflexivity].
  cbn [filter] in *. rewrite IH.
  destruct (Nat.eqb_spec (snd x) n), (Nat.eqb_spec (snd y) n);
    try reflexivity. lia.
Qed.

Lemma most_common_sorted (d : list (confusion * nat)) :
  StronglySorted by_count_desc (most_common d).
Proof.
  unfold most_common. induction d as [|x d IH]; simpl; [constructor|].
  now apply insert_by_count_sorted.
Qed.

Lemma most_common_perm (d : list (confusion * nat)) : Permutation (most_common d) d.
Proof.
  unfold most_common. induction d as [|x d IH]; simpl; [reflexivity|].
  rewrite insert_by_count_perm. now constructor.
Qed.

Lemma most_common_stable (n : nat) (d : list (confusion * nat)) :
  filter (fun p => snd p =? n) (most_common d)
  = filter (fun p => snd p =? n) d.
Proof.
  induction d as [|x d IH]; [reflexivity|].
  change (most_common (x :: d)) with (insert_by_count x (most_common d)).
  rewrite insert_by_count_filter by apply most_common_sorted.
  cbn [filter]. now rewrite IH.
Qed.

End MostCommon.

(** X13. The rows of the confusion CSV are the count table of the log
    sorted by decreasing count: the same rows, each count at least the
    next, and rows of equal count in the order in which their pairs
    were first logged. *)
Theorem confusion_rows_sorted (fs : Os.FileSystem) (uid : str) (ocr_lines : list str)
        (reference_text outdir : str) (threshold : Z) (out : Output) :
  run (align_ocr_lines fs uid ocr_lines reference_text outdir threshold)
  = Ok out ->
  Permutation (confusion_rows out) (tally (confusion_log out))
  /\ StronglySorted (fun a b => snd b <= snd a) (confusion_rows out)
  /\ forall n,
       filter (fun p => snd p =? n) (confusion_rows out)
       = filter (fun p => snd p =? n) (tally (confusion_log out)).
Proof.
  intros H. apply run_ok in H. revert H. unfold alignment.
  destruct (align_loop (normalize_hebrew reference_text) ocr_lines ([], []))
    as [[rows log]|e]; simpl; [|discriminate].
  intros [= <-]. cbn [confusion_rows confusion_log].
  rewrite Counter_is_tally.
  split; [apply most_common_perm|].
  split; [apply most_common_sorted | intros n; apply most_common_stable].
Qed.

Lemma confusion_rows_sorted_witness :
  exists out,
    run (align_ocr_lines Os.always_ok (of_ascii "0a1b2c3d"%string)
                    [[1488; 97]%N; [1489; 98]%N; [1490; 98]%N]
                    [1488; 32; 1489; 32; 1490]%N
                    (of_ascii "aligned"%string) 70)
    = Ok out
    /\ confusion_log out = [([97]%N, []); ([98]%N, []); ([98]%N, [])]
    /\ confusion_rows out = [(([98]%N, []), 2); (([97]%N, []), 1)]
    /\ StronglySorted (fun a b => snd b <= snd a) (confusion_rows out).
Proof.
  eexists. split; [vm_compute; reflexivity|].
  split; [vm_compute; reflexivity|]. split; [vm_compute; reflexivity|].
  apply (@confusion_rows_sorted
           Os.always_ok
           (of_ascii "0a1b2c3d"%string)
           [[1488; 97]%N; [1489; 98]%N; [1490; 98]%N]
           [1488; 32; 1489; 32; 1490]%N (of_ascii "aligned"%string) 70%Z).
  vm_compute; reflexivity.
Defined.

(** ** Determinism *)

(** A table sorted by decreasing count is fixed by its rows of each
    count, taken in order. *)
Lemma sorted_by_count_unique (l1 l2 : list (confusion * nat)) :
  StronglySorted by_count_desc l1 ->
  StronglySorted by_count_desc l2 ->
  (forall n, filter (fun p => snd p =? n) l1
             = filter (fun p => snd p =? n) l2) ->
  l1 = l2.
Proof.
  intros H1. revert l2.
  induction H1 as [|a t1 Ht1 IH Ha]; intros l2 H2 Hf.
  - destruct l2 as [|b t2]; [reflexivity|].
    specialize (Hf (snd b)). cbn [filter] in Hf.
    rewrite Nat.eqb_refl in Hf. discriminate Hf.
  - destruct l2 as [|b t2].
    { specialize (Hf (snd a)). cbn [filter] in Hf.
      rewrite Nat.eqb_refl in Hf. discriminate Hf. }
    inversion H2 as [|? ? Ht2 Hb]; subst.
    assert (Hab : a = b).
    { pose proof (Hf (snd a)) as Fa. pose proof (Hf (snd b)) as Fb.
      cbn [filter] in Fa, Fb. rewrite Nat.eqb_refl in Fa, Fb.
      destruct (snd b =? snd a) eqn:E1; [now injection Fa|].
      destruct (snd a =? snd b) eqn:E2;
        [apply Nat.eqb_eq in E2; rewrite E2, Nat.eqb_refl in E1;
         discriminate E1|].
      exfalso.
      assert (Hin_a : In a t2).
      { assert (H : In a (filter (fun p => snd p =? snd a) t2))
          by (rewrite <- Fa; now left).
        now apply filter_In in H. }
      assert (Hin_b : In b t1).
      { assert (H : In b (filter (fun p => snd p =? snd b) t1))
          by (rewrite Fb; now left).
        now apply filter_In in H. }
      rewrite Forall_forall in Ha, Hb.
      pose proof (Ha b Hin_b) as L1. pose proof (Hb a Hin_a) as L2.
      unfold by_count_desc in L1, L2.
      apply Nat.eqb_neq in E1. lia. }
    subst b. f_equal. apply IH; [exact Ht2|].
    intros n. specialize (Hf n). cbn [filter] in Hf.
    destruct (snd a =? n); [now injection Hf | exact Hf].
Qed.

(** The confusion table of an alignment: sorted by decreasing count,
    rows of equal count in the order of the tally. *)
Lemma alignment_table (uid : str) (ocr_lines : list str)
      (reference_text outdir : str) (threshold : Z) (out : Output) :
  alignment uid ocr_lines reference_text outdir threshold = Ok out ->
  StronglySorted by_count_desc (confusion_rows out)
  /\ forall n,
       filter (fun p => snd p =? n) (confusion_rows out)
       = filter (fun p => snd p =? n) (tally (confusion_log out)).
Proof.
  unfold alignment.
  destruct (align_loop (normalize_hebrew reference_text) ocr_lines ([], []))
    as [[rows log]|e]; simpl; [|discriminate].
  intros [= <-]. cbn [confusion_rows confusion_log].
  rewrite Counter_is_tally.
  split; [apply most_common_sorted | intros n; apply most_common_stable].
Qed.

(** Of two first best matches in the same list neither can come
    before the other. *)
Lemma first_best_unique (query : str) (l : list str)
      (m m' : str) (s s' : Q) (i i' : nat) :
  first_best query l m s i -> first_best query l m' s' i' ->
  m = m' /\ s = s'.
Proof.
  intros (Hm & Hs & Hmax & Hbefore) (Hm' & Hs' & Hmax' & Hbefore').
  assert (Hi : i = i').
  { destruct (Nat.lt_trichotomy i i') as [Hlt|[Heq|Hgt]]; [exfalso|exact Heq|exfalso].
    - pose proof (Hbefore' i m Hlt Hm) as H1.
      pose proof (Hmax i' m' Hm') as H2.
      rewrite <- Hs in H1. rewrite <- Hs' in H2.
      apply (Qlt_irrefl s). eapply Qlt_le_trans; eassumption.
    - pose proof (Hbefore i' m' Hgt Hm') as H1.
      pose proof (Hmax' i m Hm) as H2.
      rewrite <- Hs' in H1. rewrite <- Hs in H2.
      apply (Qlt_irrefl s'). eapply Qlt_le_trans; eassumption. }
  subst i'. rewrite Hm in Hm'. injection Hm' as <-.
  split; [reflexivity | congruence].
Qed.

Lemma selected_unique (ref_norm line : str) (r r' : Row) :
  selected ref_norm line r -> selected ref_norm line r' -> r = r'.
Proof.
  intros (Hl & (i & Hb) & Hi & Hf) (Hl' & (i' & Hb') & Hi' & Hf').
  destruct (first_best_unique Hb Hb') as [Hm Hs].
  destruct r as [l m s idx f], r' as [l' m' s' idx' f'].
  cbn [ocr_line best_match score start_index final_match] in *.
  congruence.
Qed.

Lemma row_of_selected (ref_norm line : str) (r : Row) :
  row_of ref_norm line r -> selected ref_norm line r.
Proof.
  intros (Hl & Hf & Hi & idx & E).
  unfold selected. split; [exact Hl|]. split; [|split; assumption].
  exists idx.
  assert (Hc : candidates_for ref_norm (normalize_hebrew line)
               = Spec.stable_dedup
                   (concat
                      (map (build_windows ref_norm)
                           (filter (fun s => 0 <? s)%Z
                                   [len (split (normalize_hebrew line)) - 1;
                                    len (split (normalize_hebrew line));
                                    len (split (normalize_hebrew line)) + 1]%Z))))
    by (unfold candidates_for; now rewrite fold_extend, fromkeys_stable_dedup).
  rewrite <- Hc.
  destruct (candidates_for ref_norm (normalize_hebrew line)) as [|c cs] eqn:Ec;
    [discriminate E|].
  destruct (@extractOne_some (normalize_hebrew line) (c :: cs))
    as (m' & s' & i' & E' & Hbest); [discriminate|].
  rewrite E in E'. now injection E' as <- <- <-.
Qed.

Lemma selected_rows_unique (ref_norm : str) (ocr_lines : list str)
      (rows rows' : list Row) :
  Forall2 (selected ref_norm) ocr_lines rows ->
  Forall2 (selected ref_norm) ocr_lines rows' ->
  rows = rows'.
Proof.
  intros H. revert rows'.
  induction H as [|l r ls rs Hr _ IH]; intros rows' H'.
  - now inversion H'.
  - inversion H' as [|? r' ? rs' Hr' Hrs']; subst.
    now rewrite (selected_unique Hr Hr'), (IH rs' Hrs').
Qed.

(** Whether the alignment raises, and what it computes, depends on
    neither the identifier nor the directory. *)
Lemma alignment_independent (uid1 uid2 outdir1 outdir2 : str)
      (ocr_lines : list str) (reference_text : str) (threshold : Z) :
  match alignment uid1 ocr_lines reference_text outdir1 threshold,
        alignment uid2 ocr_lines reference_text outdir2 threshold with
  | Ok out1, Ok out2 =>
      results out1 = results out2
      /\ confusion_log out1 = confusion_log out2
      /\ confusion_rows out1 = confusion_rows out2
      /\ txt_lines out1 = txt_lines out2
      /\ summary out1 = summary out2
  | Raise e1, Raise e2 => e1 = e2
  | _, _ => False
  end.
Proof.
  unfold alignment.
  destruct (align_loop (normalize_hebrew reference_text) ocr_lines ([], []))
    as [[rows log]|e]; simpl; repeat split.
Qed.

(** C9. The results and the confusion log of a run are determined by
    the OCR lines and the reference text, and the confusion table, the
    text lines and the summary by these and the threshold: every row
    is the one selected by a rule that leaves no choice (the earliest
    of the best-scoring candidates, in a fixed order of candidates),
    the rows are the only list of rows that obeys the rule, the log
    is the diff of every line with its match, in order, and the
    confusion table is the one list that orders the distinct pairs of
    the log by decreasing count and, within a count, by first
    appearance.  So two runs that return agree on all of it, whatever
    identifiers they draw, whatever directories they write to and
    whatever file systems they run on; and if the alignment of one
    ends in the [TypeError], the other does not return. *)
Theorem align_ocr_lines_deterministic
        (fs1 fs2 : Os.FileSystem) (uid1 uid2 outdir1 outdir2 : str)
        (ocr_lines : list str) (reference_text : str) (threshold : Z) :
  let run1 :=
    run (align_ocr_lines fs1 uid1 ocr_lines reference_text outdir1 threshold) in
  let run2 :=
    run (align_ocr_lines fs2 uid2 ocr_lines reference_text outdir2 threshold) in
  (forall out1 out2,
      run1 = Ok out1 -> run2 = Ok out2 ->
      results out1 = results out2
      /\ confusion_log out1 = confusion_log out2
      /\ confusion_rows out1 = confusion_rows out2
      /\ txt_lines out1 = txt_lines out2
      /\ summary out1 = summary out2)
  /\ (forall out1,
         run1 = Ok out1 ->
         Forall2 (selected (normalize_hebrew reference_text))
                 ocr_lines (results out1)
         /\ (forall rows,
                Forall2 (selected (normalize_hebrew reference_text))
                        ocr_lines rows ->
                rows = results out1)
         /\ confusion_log out1
            = fold_left
                (fun log r => diff_strings (ocr_line r) (best_match r) log)
                (results out1) []
         /\ StronglySorted by_count_desc (confusion_rows out1)
         /\ (forall n,
                filter (fun p => snd p =? n) (confusion_rows out1)
                = filter (fun p => snd p =? n) (tally (confusion_log out1)))
         /\ (forall table,
                StronglySorted by_count_desc table ->
                (forall n,
                    filter (fun p => snd p =? n) table
                    = filter (fun p => snd p =? n)
                             (tally (confusion_log out1))) ->
                table = confusion_rows out1))
  /\ (run1 = Raise TypeError -> forall out2, run2 <> Ok out2).
Proof.
  cbv zeta.
  pose proof (alignment_independent uid1 uid2 outdir1 outdir2 ocr_lines
                                    reference_text threshold) as Hind.
  split; [|split].
  - intros out1 out2 H1 H2. apply run_ok in H1. apply run_ok in H2.
    now rewrite H1, H2 in Hind.
  - intros out1 H1. apply run_ok in H1.
    destruct (alignment_table _ _ _ _ _ H1) as [Hsorted Hstable].
    apply alignment_ok in H1.
    destruct (@align_loop_ok _ _ _ _ _ _ H1) as (new & E & Hrows & Hlog).
    cbn [app] in E. subst new.
    assert (Hsel : Forall2 (selected (normalize_hebrew reference_text))
                           ocr_lines (results out1)).
    { clear -Hrows. induction Hrows; constructor;
        [now apply row_of_selected | assumption]. }
    split; [exact Hsel|].
    split; [intros rows Hrows'; exact (selected_rows_unique Hrows' Hsel)|].
    split; [exact Hlog|]. split; [exact Hsorted|]. split; [exact Hstable|].
    intros table Ht Hf. apply sorted_by_count_unique; [exact Ht | exact Hsorted|].
    intros n. now rewrite Hf, Hstable.
  - intros H1 out2 H2. apply run_type_error in H1. apply run_ok in H2.
    rewrite H1, H2 in Hind. exact Hind.
Qed.

Lemma align_ocr_lines_deterministic_witness :
  exists out1 out2,
    run (align_ocr_lines Os.always_ok (of_ascii "0a1b2c3d"%string)
                         [[1488; 97]%N; [1489]%N] [1488; 32; 1489]%N
                         (of_ascii "aligned"%string) 70) = Ok out1
    /\ run (align_ocr_lines Os.always_ok (of_ascii "ffffffff"%string)
                            [[1488; 97]%N; [1489]%N] [1488; 32; 1489]%N
                            (of_ascii "elsewhere"%string) 70) = Ok out2
    /\ results out1 = results out2
    /\ confusion_log out1 = confusion_log out2.
Proof.
  eexists _, _. split; [vm_compute; reflexivity|].
  split; [vm_compute; reflexivity|].
  refine (let H := proj1 (@align_ocr_lines_deterministic
                            Os.always_ok Os.always_ok
                            (of_ascii "0a1b2c3d"%string)
                            (of_ascii "ffffffff"%string)
                            (of_ascii "aligned"%string)
                            (of_ascii "elsewhere"%string)
                            [[1488; 97]%N; [1489]%N] [1488; 32; 1489]%N 70%Z)
                         _ _ _ _ in
          conj (proj1 H) (proj1 (proj2 H)));
    vm_compute; reflexivity.
Defined.

(** ** The summary report *)

Lemma Qsum_bounds (l : list Q) (a : Q) :
  Forall (fun s => (0 <= s <= 100)%Q) l ->
  (a <= fold_left Qplus l a)%Q
  /\ (fold_left Qplus l a <= a + 100 * inject_Z (len l))%Q.
Proof.
  intros H. revert a. induction H as [|s l Hs _ IH]; intros a; simpl.
  - unfold len. simpl. change (inject_Z 0) with 0%Q. lra.
  - destruct (IH (a + s)%Q) as [H1 H2]. unfold len in *.
    simpl List.length. rewrite Nat2Z.inj_succ, <- Z.add_1_r, inject_Z_plus.
    change (inject_Z 1) with 1%Q. lra.
Qed.

Lemma filter_none {A} (f : A -> bool) (l : list A) :
  Forall (fun x => f x = false) l -> filter f l = [].
Proof. induction 1 as [|x l Hx _ IH]; simpl; [|rewrite Hx]; auto. Qed.

Lemma filter_all {A} (f : A -> bool) (l : list A) :
  Forall (fun x => f x = true) l -> filter f l = l.
Proof. induction 1 as [|x l Hx _ IH]; simpl; [|rewrite Hx, IH]; auto. Qed.

Lemma summary_report_bounds (rows : list Row) (threshold : Z) :
  Forall (fun r => (0 <= score r <= 100)%Q) rows ->
  let s := summary_report rows threshold in
  lines_processed s = List.length rows
  /\ low_conf s <= lines_processed s
  /\ (0 <= avg_score s <= 100)%Q
  /\ (0 <= low_conf_pct s <= 100)%Q
  /\ ((threshold <= 0)%Z -> low_conf s = 0)
  /\ ((100 < threshold)%Z -> low_conf s = lines_processed s).
Proof.
  intros Hrows. unfold summary_report. cbn zeta.
  cbn [lines_processed low_conf avg_score low_conf_pct].
  assert (Hscores : Forall (fun s => (0 <= s <= 100)%Q) (map score rows))
    by now apply Forall_map.
  set (scores := map score rows) in *.
  set (low := List.length
                (filter (fun s => Qlt_bool s (inject_Z threshold)) scores)).
  assert (Hlow : low <= List.length rows).
  { unfold low. rewrite <- (length_map score rows). apply filter_length_le. }
  assert (Hn : scores <> [] -> (0 < inject_Z (len scores))%Q).
  { intros Hne. change 0%Q with (inject_Z 0). rewrite <- Zlt_Qlt.
    unfold len. destruct scores; [contradiction | simpl; lia]. }
  split; [reflexivity|]. split; [exact Hlow|].
  split; [|split; [|split]].
  - destruct scores as [|s0 rest] eqn:E; [lra|].
    rewrite <- E in *. assert (Hne : scores <> []) by (rewrite E; discriminate).
    destruct (Qsum_bounds 0 Hscores) as [H1 H2]. unfold Qsum. split.
    + apply Qle_shift_div_l; [auto | lra].
    + apply Qle_shift_div_r; [auto | lra].
  - destruct scores as [|s0 rest] eqn:E; [lra|].
    rewrite <- E in *. assert (Hne : scores <> []) by (rewrite E; discriminate).
    specialize (Hn Hne).
    assert (Hl0 : (0 <= inject_Z (Z.of_nat low))%Q).
    { change 0%Q with (inject_Z 0). rewrite <- Zle_Qle. lia. }
    assert (Hl1 : (inject_Z (Z.of_nat low) <= inject_Z (len scores))%Q).
    { rewrite <- Zle_Qle. unfold len, scores. rewrite length_map. lia. }
    assert (Hq0 : (0 <= inject_Z (Z.of_nat low) / inject_Z (len scores))%Q)
      by (apply Qle_shift_div_l; [auto | lra]).
    assert (Hq1 : (inject_Z (Z.of_nat low) / inject_Z (len scores) <= 1)%Q)
      by (apply Qle_shift_div_r; [auto | lra]).
    lra.
  - intros Hth. unfold low. rewrite filter_none; [reflexivity|].
    eapply Forall_impl; [|exact Hscores]. intros s [Hs _]. cbv beta.
    apply Qlt_bool_false.
    assert (inject_Z threshold <= 0)%Q
      by (change 0%Q with (inject_Z 0); now rewrite <- Zle_Qle).
    lra.
  - intros Hth. unfold low. rewrite filter_all.
    + unfold scores. apply length_map.
    + eapply Forall_impl; [|exact Hscores]. intros s [_ Hs]. cbv beta.
      apply Qlt_bool_iff.
      assert (100 < inject_Z threshold)%Q
        by (change 100%Q with (inject_Z 100); now rewrite <- Zlt_Qlt).
      lra.
Qed.

Lemma run_scores_bounded (uid : str) (ocr_lines : list str)
      (reference_text outdir : str) (threshold : Z) (out : Output) :
  alignment uid ocr_lines reference_text outdir threshold = Ok out ->
  Forall (fun r => (0 <= score r <= 100)%Q) (results out).
Proof.
  intros H. apply run_rows in H.
  eapply Forall2_right; [|exact H].
  intros line r Hr. destruct (row_of_best Hr) as (idx & _ & -> & _).
  apply similarity_bounds.
Qed.

Lemma run_summary (uid : str) (ocr_lines : list str)
      (reference_text outdir : str) (threshold : Z) (out : Output) :
  alignment uid ocr_lines reference_text outdir threshold = Ok out ->
  summary out = summary_report (results out) threshold
  /\ txt_lines out = map final_match (results out).
Proof.
  unfold alignment.
  destruct (align_loop (normalize_hebrew reference_text) ocr_lines ([], []))
    as [[rows log]|e]; simpl; [|discriminate].
  now intros [= <-].
Qed.

(** X14. The summary of a run counts one processed line per OCR line;
    the average score and the low-confidence percentage lie between 0
    and 100; the low-confidence count is at most the number of lines, is
    0 for a threshold of 0 or less and is every line for a threshold
    above 100. *)
Theorem summary_bounds (fs : Os.FileSystem) (uid : str) (ocr_lines : list str)
        (reference_text outdir : str) (threshold : Z) (out : Output) :
  run (align_ocr_lines fs uid ocr_lines reference_text outdir threshold)
  = Ok out ->
  lines_processed (summary out) = List.length ocr_lines
  /\ low_conf (summary out) <= lines_processed (summary out)
  /\ (0 <= avg_score (summary out) <= 100)%Q
  /\ (0 <= low_conf_pct (summary out) <= 100)%Q
  /\ ((threshold <= 0)%Z -> low_conf (summary out) = 0)
  /\ ((100 < threshold)%Z ->
      low_conf (summary out) = lines_processed (summary out)).
Proof.
  intros H. apply run_ok in H.
  destruct (run_summary _ _ _ _ _ H) as [-> _].
  pose proof (run_scores_bounded _ _ _ _ _ H) as Hb.
  destruct (summary_report_bounds threshold Hb) as (H1 & H2 & H3 & H4 & H5 & H6).
  apply run_rows, Forall2_length in H.
  repeat split; try tauto; try lia.
Qed.

Lemma summary_bounds_witness :
  exists out,
    run (align_ocr_lines Os.always_ok (of_ascii "0a1b2c3d"%string) [[1488]%N; [1489; 1491]%N]
                    [1488; 32; 1489]%N (of_ascii "aligned"%string) 70)
    = Ok out
    /\ low_conf (summary out) = 1
    /\ lines_processed (summary out) = 2
    /\ (0 <= avg_score (summary out) <= 100)%Q.
Proof.
  eexists. split; [vm_compute; reflexivity|].
  split; [vm_compute; reflexivity|].
  split;
    apply (@summary_bounds
             Os.always_ok
             (of_ascii "0a1b2c3d"%string) [[1488]%N; [1489; 1491]%N]
             [1488; 32; 1489]%N (of_ascii "aligned"%string) 70%Z);
    vm_compute; reflexivity.
Defined.

(** ** Output paths *)

Lemma path_join_prefix (outdir : str) :
  exists prefix, forall name, path_join outdir name = prefix ++ name.
Proof.
  unfold path_join. destruct (rev outdir) as [|c r].
  - now exists [].
  - destruct (c =? 47)%N.
    + now exists outdir.
    + exists (outdir ++ [47%N]). intros name. now rewrite <- app_assoc.
Qed.

Lemma run_paths (uid : str) (ocr_lines : list str)
      (reference_text outdir : str) (threshold : Z) (out : Output) :
  alignment uid ocr_lines reference_text outdir threshold = Ok out ->
  csv_path out
  = path_join outdir
              (of_ascii "alignment_"%string ++ uid ++ of_ascii ".csv"%string)
  /\ txt_path out
     = path_join outdir
                 (of_ascii "alignment_"%string ++ uid ++ of_ascii ".txt"%string)
  /\ confusion_path out
     = path_join outdir
                 (of_ascii "confusions_"%string ++ uid ++ of_ascii ".csv"%string).
Proof.
  unfold alignment.
  destruct (align_loop (normalize_hebrew reference_text) ocr_lines ([], []))
    as [[rows log]|e]; simpl; [|discriminate].
  now intros [= <-].
Qed.

(** X15. The three files of a run have three different paths, and two
    runs that write to the same directory under different identifiers
    write to different files. *)
Theorem output_paths_distinct
        (fs1 fs2 : Os.FileSystem)
        (uid1 uid2 : str) (lines1 lines2 : list str)
        (reference1 reference2 outdir : str) (threshold1 threshold2 : Z)
        (out1 out2 : Output) :
  run (align_ocr_lines fs1 uid1 lines1 reference1 outdir threshold1)
  = Ok out1 ->
  run (align_ocr_lines fs2 uid2 lines2 reference2 outdir threshold2)
  = Ok out2 ->
  (csv_path out1 <> txt_path out1
   /\ csv_path out1 <> confusion_path out1
   /\ txt_path out1 <> confusion_path out1)
  /\ (uid1 <> uid2 ->
      csv_path out1 <> csv_path out2
      /\ txt_path out1 <> txt_path out2
      /\ confusion_path out1 <> confusion_path out2).
Proof.
  intros H1 H2. apply run_ok in H1. apply run_ok in H2.
  destruct (run_paths _ _ _ _ _ H1) as (-> & -> & ->).
  destruct (run_paths _ _ _ _ _ H2) as (-> & -> & ->).
  destruct (path_join_prefix outdir) as [prefix Hp]. rewrite !Hp.
  split; [split; [|split]|].
  - intros E. apply app_inv_head in E. apply app_inv_head in E.
    apply app_inv_head in E. discriminate E.
  - intros E. apply app_inv_head in E. discriminate E.
  - intros E. apply app_inv_head in E. discriminate E.
  - intros Hne. split; [|split]; intros E; apply Hne;
      apply app_inv_head in E; apply app_inv_head in E;
      now apply app_inv_tail in E.
Qed.

Lemma output_paths_distinct_witness :
  exists out1 out2,
    run (align_ocr_lines Os.always_ok (of_ascii "0a1b2c3d"%string) [[1488]%N] [1488]%N
                    (of_ascii "aligned"%string) 70) = Ok out1
    /\ run (align_ocr_lines Os.always_ok (of_ascii "ffffffff"%string) [[1488]%N] [1488]%N
                       (of_ascii "aligned"%string) 70) = Ok out2
    /\ csv_path out1 = of_ascii "aligned/alignment_0a1b2c3d.csv"%string
    /\ csv_path out1 <> csv_path out2.
Proof.
  eexists _, _. split; [vm_compute; reflexivity|].
  split; [vm_compute; reflexivity|]. split; [vm_compute; reflexivity|].
  apply (@output_paths_distinct
           Os.always_ok Os.always_ok
           (of_ascii "0a1b2c3d"%string) (of_ascii "ffffffff"%string)
           [[1488]%N] [[1488]%N] [1488]%N [1488]%N
           (of_ascii "aligned"%string) 70%Z 70%Z);
    try (vm_compute; reflexivity).
  vm_compute. discriminate.
Defined.

(** ** What the rewriting of a document changes *)

Import DocProps.

Lemma set_first_text_frame (t : qname) (new : str) (cs : list Element) :
  Forall2 (same_but_text t) cs (set_first_text t new cs).
Proof.
  induction cs as [|c cs IH]; cbn [set_first_text]; [constructor|].
  destruct (qname_eqb (tag_of c) t) eqn:E.
  - constructor.
    + destruct c as [tg tx ch]. repeat split. now right.
    + clear. induction cs; constructor; [repeat split; now left | assumption].
  - constructor; [repeat split; now left | exact IH].
Qed.

Lemma find_set_first_text (t : qname) (new : str) (cs : list Element)
      (u : Element) :
  List.find (fun c => qname_eqb (tag_of c) t) cs = Some u ->
  List.find (fun c => qname_eqb (tag_of c) t) (set_first_text t new cs)
  = Some (Elem (tag_of u) (Some new) (children_of u)).
Proof.
  induction cs as [|c cs IH]; cbn [List.find set_first_text]; [discriminate|].
  destruct (qname_eqb (tag_of c) t) eqn:E.
  - intros [= <-]. cbn [List.find tag_of]. now rewrite E.
  - intros H. cbn [List.find]. rewrite E. now apply IH.
Qed.

Lemma update_loop_rewritten (namespace_ : String.string)
      (textlines : list Element) (alignment_results : list Row) (idx : nat) :
  Forall2 (rewritten namespace_ alignment_results) textlines
          (update_loop namespace_ textlines alignment_results idx).
Proof.
  revert idx. induction textlines as [|t ts IH]; intros idx;
    cbn [update_loop]; [constructor|].
  destruct (find_child t (in_ns namespace_ "Unicode"%string)) as [u|];
    [|constructor; [now left | apply IH]].
  destruct (nth_error alignment_results idx) as [r|] eqn:Er;
    [|constructor; [now left | apply IH]].
  constructor; [|apply IH].
  destruct (negb (str_eqb (ocr_line r) (best_match r))) eqn:Ene;
    [|now left].
  destruct (Qlt_bool 50 (score r)) eqn:Esc; [|now left].
  right. exists r. split; [now apply nth_error_In in Er|].
  split; [|reflexivity]. split.
  - apply negb_true_iff, str_eqb_neq in Ene. exact Ene.
  - now apply Qlt_bool_iff.
Qed.

(** X16. Rewriting keeps the list of text lines in place: every line is
    either returned as it was or gets the match of one of the given
    results, one whose match differs from its OCR text and scores above
    50, as text of its first direct [Unicode] child; in that case the
    children keep their number, tags and own children, only a
    [Unicode] child can have another text, and looking the child up
    again gives the new text. *)
Theorem update_pagexml_frame (now : str) (doc : Document)
        (alignment_results : list Row) :
  namespace (update_pagexml_with_aligned_text now doc alignment_results)
  = namespace doc
  /\ Forall2 (rewritten (namespace doc) alignment_results)
             (textline_elements doc)
             (textline_elements
                (update_pagexml_with_aligned_text now doc alignment_results))
  /\ (forall namespace_ t new,
         Forall2 (same_but_text (in_ns namespace_ "Unicode"%string))
                 (children_of t)
                 (set_first_text (in_ns namespace_ "Unicode"%string)
                                 new (children_of t)))
  /\ (forall namespace_ t u new,
         find_child t (in_ns namespace_ "Unicode"%string) = Some u ->
         find_child
           (Elem (tag_of t) (text_of t)
                 (set_first_text (in_ns namespace_ "Unicode"%string)
                                 new (children_of t)))
           (in_ns namespace_ "Unicode"%string)
         = Some (Elem (tag_of u) (Some new) (children_of u))).
Proof.
  split; [reflexivity|]. split; [apply update_loop_rewritten|].
  split; [intros; apply set_first_text_frame|].
  intros namespace_ t u new H. unfold find_child in *. cbn [children_of].
  now apply find_set_first_text.
Qed.

Lemma update_pagexml_frame_witness :
  let unicode := QName (Some "ns"%string) "Unicode"%string in
  let t := Elem (QName (Some "ns"%string) "TextLine"%string) None
                [Elem unicode (Some [1488]%N) []] in
  find_child t (in_ns "ns"%string "Unicode"%string)
  = Some (Elem unicode (Some [1488]%N) [])
  /\ find_child
       (Elem (tag_of t) (text_of t)
             (set_first_text (in_ns "ns"%string "Unicode"%string)
                             [1489]%N (children_of t)))
       (in_ns "ns"%string "Unicode"%string)
     = Some (Elem unicode (Some [1489]%N) []).
Proof.
  split; [reflexivity|].
  destruct (update_pagexml_frame [] (mkDocument "ns"%string [] None) [])
    as (_ & _ & _ & H).
  apply (H "ns"%string
           (Elem (QName (Some "ns"%string) "TextLine"%string) None
                 [Elem (QName (Some "ns"%string) "Unicode"%string)
                       (Some [1488]%N) []])
           (Elem (QName (Some "ns"%string) "Unicode"%string)
                 (Some [1488]%N) [])
           [1489]%N).
  reflexivity.
Defined.

Lemma update_loop_noop (namespace_ : String.string)
      (textlines : list Element) (alignment_results : list Row) (idx : nat) :
  Forall (fun r => ~ replaces r) alignment_results ->
  update_loop namespace_ textlines alignment_results idx = textlines.
Proof.
  intros Hno. revert idx. induction textlines as [|t ts IH]; intros idx;
    cbn [update_loop]; [reflexivity|].
  destruct (find_child t (in_ns namespace_ "Unicode"%string)) as [u|];
    [|now rewrite IH].
  destruct (nth_error alignment_results idx) as [r|] eqn:Er;
    [|now rewrite IH].
  rewrite IH. f_equal.
  destruct (negb (str_eqb (ocr_line r) (best_match r))) eqn:Ene;
    [|reflexivity].
  destruct (Qlt_bool 50 (score r)) eqn:Esc; [|reflexivity].
  exfalso. apply nth_error_In in Er.
  rewrite Forall_forall in Hno. apply (Hno r Er). split.
  - apply negb_true_iff, str_eqb_neq in Ene. exact Ene.
  - now apply Qlt_bool_iff.
Qed.

(** X17. Rewriting returns the text lines unchanged when no result
    asks for a replacement: when every result has a match equal to its
    OCR text or a score of 50 or less, and so in particular when there
    are no results at all. *)
Theorem update_pagexml_noop (now : str) (doc : Document)
        (alignment_results : list Row) :
  Forall (fun r => ocr_line r = best_match r \/ (score r <= 50)%Q)
         alignment_results ->
  textline_elements
    (update_pagexml_with_aligned_text now doc alignment_results)
  = textline_elements doc.
Proof.
  intros H. cbn [update_pagexml_with_aligned_text textline_elements].
  apply update_loop_noop. eapply Forall_impl; [|exact H].
  intros r [Heq|Hlow] [Hne Hhigh]; [contradiction | lra].
Qed.

Lemma update_pagexml_noop_witness :
  let unicode := QName (Some "ns"%string) "Unicode"%string in
  let t := Elem (QName (Some "ns"%string) "TextLine"%string) None
                [Elem unicode (Some [1488]%N) []] in
  let doc := mkDocument "ns"%string [t] None in
  let r := mkRow [1488]%N [1489]%N 50 0 [1489]%N in
  Forall (fun r => ocr_line r = best_match r \/ (score r <= 50)%Q) [r]
  /\ textline_elements (update_pagexml_with_aligned_text [] doc [r]) = [t].
Proof.
  assert (H : Forall (fun r => ocr_line r = best_match r \/ (score r <= 50)%Q)
                     [mkRow [1488]%N [1489]%N 50 0 [1489]%N]).
  { constructor; [|constructor]. right. simpl. lra. }
  split; [exact H|].
  exact (update_pagexml_noop
           []
           (mkDocument "ns"%string
              [Elem (QName (Some "ns"%string) "TextLine"%string) None
                    [Elem (QName (Some "ns"%string) "Unicode"%string)
                          (Some [1488]%N) []]] None)
           H).
Defined.

(** ** Reading a document and processing a file *)

Import DirectProps.

Lemma extract_loop_app (namespace_ : String.string) (l1 l2 : list Element) :
  extract_loop namespace_ (l1 ++ l2)
  = extract_loop namespace_ l1 ++ extract_loop namespace_ l2.
Proof.
  induction l1 as [|t l1 IH]; cbn [app extract_loop]; [reflexivity|].
  destruct (extracted_unicode namespace_ t) as [u|]; [|exact IH].
  destruct (text_of u) as [[|c x]|]; try exact IH.
  now rewrite IH.
Qed.

Lemma extract_loop_stripped (namespace_ : String.string) (l : list Element) :
  Forall (fun line => strip line = line) (extract_loop namespace_ l)
  /\ List.length (extract_loop namespace_ l) <= List.length l.
Proof.
  induction l as [|t l [IH1 IH2]]; cbn [extract_loop];
    [split; [constructor | reflexivity]|].
  destruct (extracted_unicode namespace_ t) as [u|];
    [|split; [exact IH1 | simpl; lia]].
  destruct (text_of u) as [[|c x]|]; try (split; [exact IH1 | simpl; lia]).
  split; [|simpl; lia].
  constructor; [apply strip_idem | exact IH1].
Qed.

(** X18. Extraction yields at most one line per [TextLine], in
    document order (the lines of a concatenation are the lines of its
    parts, one after the other), and every extracted line is stripped
    of surrounding whitespace. *)
Theorem extract_ocr_lines_shape (doc : Document) :
  Forall (fun line => strip line = line) (extract_ocr_lines_from_pagexml doc)
  /\ List.length (extract_ocr_lines_from_pagexml doc)
     <= List.length (textline_elements doc)
  /\ forall l1 l2,
       textline_elements doc = l1 ++ l2 ->
       extract_ocr_lines_from_pagexml doc
       = extract_loop (namespace doc) l1 ++ extract_loop (namespace doc) l2.
Proof.
  unfold extract_ocr_lines_from_pagexml.
  destruct (extract_loop_stripped (namespace doc) (textline_elements doc))
    as [H1 H2].
  split; [exact H1|]. split; [exact H2|].
  intros l1 l2 ->. apply extract_loop_app.
Qed.

Lemma extract_ocr_lines_shape_witness :
  let el name text children :=
    Elem (QName (Some "ns"%string) name) text children in
  let t1 := el "TextLine"%string None
               [el "TextEquiv"%string None
                   [el "Unicode"%string (Some [32; 1488; 10]%N) []]] in
  let t2 := el "TextLine"%string None [el "Unicode"%string None []] in
  let t3 := el "TextLine"%string None
               [el "Unicode"%string (Some [1489]%N) []] in
  let doc := mkDocument "ns"%string [t1; t2; t3] None in
  extract_ocr_lines_from_pagexml doc = [[1488]%N; [1489]%N]
  /\ extract_ocr_lines_from_pagexml doc
     = extract_loop "ns"%string [t1] ++ extract_loop "ns"%string [t2; t3].
Proof.
  split; [reflexivity|].
  apply extract_ocr_lines_shape. reflexivity.
Defined.

(** *** Processing a file and the file system *)

Lemma path_join_not_nil (outdir name : str) :
  name <> [] -> path_join outdir name <> [].
Proof.
  intros Hname. unfold path_join.
  destruct (rev outdir) as [|c t] eqn:E; [exact Hname|].
  assert (Hout : outdir <> []) by (intros ->; discriminate E).
  destruct (c =? 47)%N; destruct outdir; try contradiction; discriminate.
Qed.

Section ProcessCalls.

Variable fs : Os.FileSystem.

Lemma computes_write_xml_file (output_path : str) :
  computes (write_xml_file fs output_path) (Ok tt).
Proof.
  apply computes_with_open.
  apply (@computes_bind _ _ _ _ (Ok tt) (fun _ => Ok tt));
    [apply computes_syscall | intros _; apply computes_syscall].
Qed.

Lemma computes_process (uid now xml_filename : str) (doc : Document)
      (reference_text output_dir : str) (threshold : Z) :
  computes (process_pagexml_file fs uid now xml_filename doc reference_text
                                 output_dir threshold)
           (processing uid now doc reference_text output_dir threshold).
Proof.
  unfold process_pagexml_file, processing.
  destruct (extract_ocr_lines_from_pagexml doc) as [|l ls];
    [apply computes_ret|].
  apply computes_bind; [apply computes_align_ocr_lines|]. intros out.
  apply (@computes_bind _ _ _ _ (Ok tt) (fun _ => _));
    [apply computes_makedirs | intros _].
  apply (@computes_bind _ _ _ _ (Ok tt) (fun _ => _));
    [apply computes_write_xml_file | intros _; apply computes_ret].
Qed.

Hypothesis fs_obliging : Os.obliging fs.

Lemma ends_write_xml_file (output_path : str) :
  ends_as (write_xml_file fs output_path) (Ok tt).
Proof.
  apply ends_with_open; [exact fs_obliging|].
  apply (@ends_bind _ _ _ _ (Ok tt) (fun _ => Ok tt));
    [now apply ends_syscall | intros _; now apply ends_syscall].
Qed.

Lemma ends_process (uid now xml_filename : str) (doc : Document)
      (reference_text output_dir : str) (threshold : Z) :
  output_dir <> [] ->
  ends_as (process_pagexml_file fs uid now xml_filename doc reference_text
                                output_dir threshold)
          (processing uid now doc reference_text output_dir threshold).
Proof.
  intros Hdir. unfold process_pagexml_file, processing.
  destruct (extract_ocr_lines_from_pagexml doc) as [|l ls];
    [apply ends_ret|].
  apply ends_bind; [now apply ends_align_ocr_lines|]. intros out.
  apply (@ends_bind _ _ _ _ (Ok tt) (fun _ => _)).
  - apply ends_makedirs; [exact fs_obliging|].
    apply path_join_not_nil. discriminate.
  - intros _. apply (@ends_bind _ _ _ _ (Ok tt) (fun _ => _));
      [apply ends_write_xml_file | intros _; apply ends_ret].
Qed.

End ProcessCalls.

Lemma process_ok (fs : Os.FileSystem) (uid now xml_filename : str)
      (doc : Document) (reference_text output_dir : str) (threshold : Z)
      (r : option (Document * Output)) :
  run (process_pagexml_file fs uid now xml_filename doc reference_text
                            output_dir threshold) = Ok r ->
  processing uid now doc reference_text output_dir threshold = Ok r.
Proof. apply computes_run_ok, computes_process. Qed.

Lemma process_type_error (fs : Os.FileSystem) (uid now xml_filename : str)
      (doc : Document) (reference_text output_dir : str) (threshold : Z) :
  run (process_pagexml_file fs uid now xml_filename doc reference_text
                            output_dir threshold) = Raise TypeError ->
  processing uid now doc reference_text output_dir threshold
  = Raise TypeError.
Proof. apply computes_run_type_error, computes_process. Qed.

Lemma process_obliging (fs : Os.FileSystem) (uid now xml_filename : str)
      (doc : Document) (reference_text output_dir : str) (threshold : Z) :
  Os.obliging fs -> output_dir <> [] ->
  run (process_pagexml_file fs uid now xml_filename doc reference_text
                            output_dir threshold)
  = processing uid now doc reference_text output_dir threshold.
Proof. intros Hfs Hdir. now apply ends_process. Qed.

(** X19. A document whose text lines have no direct [Unicode] child,
    as when every line keeps its text under [TextEquiv], comes back from
    processing with its text lines exactly as they were read, whatever
    the alignment found. *)
Theorem wrapped_lines_never_rewritten
        (fs : Os.FileSystem) (uid now xml_filename : str) (doc : Document)
        (reference_text output_dir : str)
        (threshold : Z) (updated : Document) (out : Output) :
  Forall (fun t => find_child t (in_ns (namespace doc) "Unicode"%string) = None)
         (textline_elements doc) ->
  run (process_pagexml_file fs uid now xml_filename doc reference_text
                            output_dir threshold)
  = Ok (Some (updated, out)) ->
  textline_elements updated = textline_elements doc.
Proof.
  intros Hwrapped H. apply process_ok in H. revert H. unfold processing.
  destruct (extract_ocr_lines_from_pagexml doc) as [|l ls]; [discriminate|].
  destruct (alignment uid (l :: ls) reference_text output_dir threshold)
    as [o|e]; simpl; [|discriminate].
  intros [= <- <-]. cbn [textline_elements].
  now apply update_loop_skips_wrapped.
Qed.

Lemma wrapped_lines_never_rewritten_witness :
  let el name text children :=
    Elem (QName (Some "ns"%string) name) text children in
  let t := el "TextLine"%string None
              [el "TextEquiv"%string None
                  [el "Unicode"%string (Some [1488; 1489; 1491]%N) []]] in
  let doc := mkDocument "ns"%string [t] None in
  exists updated out,
    run (process_pagexml_file Os.always_ok (of_ascii "0a1b2c3d"%string) []
                              (of_ascii "page.xml"%string) doc
                              [1488; 1489; 1490]%N
                              (of_ascii "aligned"%string) 70)
    = Ok (Some (updated, out))
    /\ map best_match (results out) = [[1488; 1489; 1490]%N]
    /\ textline_elements updated = [t].
Proof.
  eexists _, _. split; [vm_compute; reflexivity|].
  split; [vm_compute; reflexivity|].
  eapply (@wrapped_lines_never_rewritten
            Os.always_ok
            (of_ascii "0a1b2c3d"%string) [] (of_ascii "page.xml"%string)
            (mkDocument "ns"%string
               [Elem (QName (Some "ns"%string) "TextLine"%string) None
                  [Elem (QName (Some "ns"%string) "TextEquiv"%string) None
                     [Elem (QName (Some "ns"%string) "Unicode"%string)
                           (Some [1488; 1489; 1491]%N) []]]] None)
            [1488; 1489; 1490]%N (of_ascii "aligned"%string) 70%Z).
  - repeat constructor.
  - vm_compute; reflexivity.
Defined.

(** X20. Processing a file without any extracted line returns [None]
    and calls neither the alignment nor the file system, whatever the
    reference and the output directory are.  With at least one
    extracted line and a reference that normalizes to nothing,
    processing never returns, and it ends with the [TypeError] where
    the output directory is not the empty path and every call to the
    file system succeeds.  With at least one extracted line and the
    empty path as output directory it ends in [os.makedirs] with
    [FileNotFoundError]. *)
Theorem process_pagexml_file_edges
        (fs : Os.FileSystem) (uid now xml_filename : str) (doc : Document)
        (reference_text output_dir : str) (threshold : Z) :
  let run_ :=
    run (process_pagexml_file fs uid now xml_filename doc reference_text
                              output_dir threshold) in
  (extract_ocr_lines_from_pagexml doc = [] -> run_ = Ok None)
  /\ (extract_ocr_lines_from_pagexml doc <> [] ->
      normalize_hebrew reference_text = [] ->
      (forall r, run_ <> Ok r)
      /\ (Os.obliging fs -> output_dir <> [] -> run_ = Raise TypeError))
  /\ (extract_ocr_lines_from_pagexml doc <> [] ->
      output_dir = [] ->
      run_ = Raise (Failed Os.FileNotFoundError)).
Proof.
  cbv zeta. split; [|split].
  - intros E. unfold process_pagexml_file. now rewrite E.
  - intros Hne Href.
    assert (Hpure : processing uid now doc reference_text output_dir threshold
                    = Raise TypeError).
    { unfold processing.
      destruct (extract_ocr_lines_from_pagexml doc) as [|l ls];
        [contradiction|].
      now rewrite empty_reference_raises. }
    split.
    + apply (computes_run_never_ok (computes_process _ _ _ _ _ _ _ _) Hpure).
    + intros Hfs Hdir. now rewrite process_obliging.
  - intros Hne ->. unfold process_pagexml_file.
    destruct (extract_ocr_lines_from_pagexml doc) as [|l ls];
      [contradiction | reflexivity].
Qed.

Lemma process_pagexml_file_edges_witness :
  let t := Elem (QName (Some "ns"%string) "TextLine"%string) None
                [Elem (QName (Some "ns"%string) "Unicode"%string)
                      (Some [1488]%N) []] in
  run (process_pagexml_file Os.always_ok (of_ascii "0a1b2c3d"%string) []
                            (of_ascii "page.xml"%string)
                            (mkDocument "ns"%string [] None) []
                            (of_ascii "aligned"%string) 70)
  = Ok None
  /\ run (process_pagexml_file Os.always_ok (of_ascii "0a1b2c3d"%string) []
                               (of_ascii "page.xml"%string)
                               (mkDocument "ns"%string [t] None)
                               [97; 98]%N (of_ascii "aligned"%string) 70)
     = Raise TypeError.
Proof.
  split.
  - apply process_pagexml_file_edges. reflexivity.
  - apply process_pagexml_file_edges;
      [discriminate | reflexivity | exact always_ok_obliging | discriminate].
Defined.

Lemma extract_loop_direct (namespace_ : String.string)
      (textlines : list Element) (xs : list str) :
  Forall2 (direct_text namespace_) textlines xs ->
  extract_loop namespace_ textlines = map strip xs.
Proof.
  induction 1 as [|t x ts xs (Hte & Hx & u & Hu & Htx) _ IH];
    cbn [extract_loop map]; [reflexivity|].
  unfold extracted_unicode. rewrite Hte, Hu. cbn [or_else]. rewrite Htx.
  destruct x as [|c x]; [contradiction|]. now rewrite IH.
Qed.

Lemma update_loop_direct_all (namespace_ : String.string)
      (textlines : list Element) (rows : list Row) (idx : nat) :
  Forall (fun t => exists u,
              find_child t (in_ns namespace_ "Unicode"%string) = Some u)
         textlines ->
  List.length textlines + idx = List.length rows ->
  update_loop namespace_ textlines rows idx
  = map (fun '(t, r) => rewrite_with namespace_ r t)
        (combine textlines (skipn idx rows)).
Proof.
  intros H. revert idx. induction H as [|t ts [u Hu] _ IH]; intros idx Hlen;
    cbn [update_loop]; [reflexivity|].
  cbn [List.length] in Hlen.
  destruct (nth_error rows idx) as [r|] eqn:Er.
  2:{ apply nth_error_None in Er. lia. }
  rewrite Hu. rewrite (skipn_cons_nth rows r) by lia.
  cbn [combine map]. rewrite (nth_error_nth _ _ r Er).
  replace (idx + 1) with (S idx) by lia.
  rewrite IH by lia. reflexivity.
Qed.

(** X21. For a document whose text lines each keep a non-empty text in
    a direct [Unicode] child and have no [TextEquiv], processing pairs
    line [k] with result [k]: the OCR text of the result is the stripped
    text of the line, and the line is rewritten with the match exactly
    when the match differs from that OCR text and scores above 50. *)
Theorem direct_lines_rewritten_in_step
        (fs : Os.FileSystem) (uid now xml_filename : str)
        (doc : Document) (xs : list str)
        (reference_text output_dir : str) (threshold : Z)
        (updated : Document) (out : Output) :
  Forall2 (direct_text (namespace doc)) (textline_elements doc) xs ->
  run (process_pagexml_file fs uid now xml_filename doc reference_text
                            output_dir threshold)
  = Ok (Some (updated, out)) ->
  map ocr_line (results out) = map strip xs
  /\ textline_elements updated
     = map (fun '(t, r) => rewrite_with (namespace doc) r t)
           (combine (textline_elements doc) (results out)).
Proof.
  intros Hdirect H. apply process_ok in H. revert H.
  unfold processing, extract_ocr_lines_from_pagexml.
  rewrite (extract_loop_direct Hdirect).
  destruct (map strip xs) as [|l ls] eqn:Exs; [discriminate|].
  destruct (alignment uid (l :: ls) reference_text output_dir threshold)
    as [o|e] eqn:Erun; simpl; [|discriminate].
  intros [= <- <-]. cbn [textline_elements].
  pose proof (run_rows _ _ _ _ _ Erun) as Hrows.
  assert (Hocr : map ocr_line (results o) = l :: ls).
  { clear -Hrows. induction Hrows as [|x r xs' rs Hr _ IH]; [reflexivity|].
    simpl. destruct Hr as [-> _]. now rewrite IH. }
  split; [exact Hocr|].
  unfold update_pagexml_with_aligned_text. cbn [textline_elements].
  rewrite update_loop_direct_all; [reflexivity | |].
  - eapply Forall2_right with (R := fun x t => direct_text (namespace doc) t x);
      [|apply Forall2_flip; exact Hdirect].
    intros x t (_ & _ & u & Hu & _). eauto.
  - apply Forall2_length in Hdirect, Hrows.
    apply (f_equal (@List.length str)) in Exs. rewrite length_map in Exs.
    lia.
Qed.

Lemma direct_lines_rewritten_in_step_witness :
  let el name text children :=
    Elem (QName (Some "ns"%string) name) text children in
  let line text := el "TextLine"%string None [el "Unicode"%string (Some text) []] in
  let doc := mkDocument "ns"%string
                        [line [1488; 1489; 1491; 32]%N; line [1494]%N] None in
  exists updated out,
    run (process_pagexml_file Os.always_ok (of_ascii "0a1b2c3d"%string) []
                              (of_ascii "page.xml"%string) doc
                              [1488; 1489; 1490; 32; 1494]%N
                              (of_ascii "aligned"%string) 70)
    = Ok (Some (updated, out))
    /\ map ocr_line (results out) = [[1488; 1489; 1491]%N; [1494]%N]
    /\ textline_elements updated
       = [line [1488; 1489; 1490]%N; line [1494]%N].
Proof.
  eexists _, _. split; [vm_compute; reflexivity|].
  split; [vm_compute; reflexivity|].
  etransitivity.
  - eapply (@direct_lines_rewritten_in_step
              Os.always_ok
              (of_ascii "0a1b2c3d"%string) [] (of_ascii "page.xml"%string)
              (mkDocument "ns"%string
                 [Elem (QName (Some "ns"%string) "TextLine"%string) None
                    [Elem (QName (Some "ns"%string) "Unicode"%string)
                          (Some [1488; 1489; 1491; 32]%N) []];
                  Elem (QName (Some "ns"%string) "TextLine"%string) None
                    [Elem (QName (Some "ns"%string) "Unicode"%string)
                          (Some [1494]%N) []]] None)
              [[1488; 1489; 1491; 32]%N; [1494]%N]
              [1488; 1489; 1490; 32; 1494]%N (of_ascii "aligned"%string) 70%Z).
    + repeat constructor; try discriminate; eexists; split; reflexivity.
    + vm_compute; reflexivity.
  - vm_compute; reflexivity.
Defined.

(* ================================================================== *)
(** * Part IV. Namespaces, rebuilt trees and batches                   *)
(* ================================================================== *)

(** ** Splitting at a character *)

Section SplitOn.

Import Py PyStr.

Lemma contains_char (s : str) (c : char) :
  contains s [c] = true <-> In c s.
Proof.
  induction s as [|x s IH]; simpl.
  - split; [discriminate | contradiction].
  - rewrite startswith_nil, andb_true_r, orb_true_iff, IH, N.eqb_eq.
    reflexivity.
Qed.

Lemma contains_char_false (s : str) (c : char) :
  contains s [c] = false <-> ~ In c s.
Proof.
  rewrite <- contains_char. destruct (contains s [c]); split; intros H;
    try discriminate; try reflexivity; try (intros E; discriminate).
  exfalso. now apply H.
Qed.

Lemma split_on_not_nil (sep : char) (s : str) : split_on sep s <> [].
Proof.
  induction s as [|c s IH]; simpl; [discriminate|].
  destruct (c =? sep)%N; [discriminate|].
  destruct (split_on sep s); discriminate.
Qed.

Lemma split_on_pieces (sep : char) (s : str) :
  Forall (fun w => ~ In sep w) (split_on sep s).
Proof.
  induction s as [|c s IH]; simpl.
  - constructor; [intros []|constructor].
  - destruct (c =? sep)%N eqn:E.
    + constructor; [intros []|exact IH].
    + apply N.eqb_neq in E.
      destruct (split_on sep s) as [|w ws].
      * constructor; [|constructor]. intros [H|[]]. now apply E.
      * inversion IH as [|? ? Hw Hws]; subst. constructor; [|exact Hws].
        intros [H|H]; [now apply E | now apply Hw].
Qed.

(** Splitting [head ++ sep :: rest] when [sep] is not in [head]. *)
Lemma split_on_head (sep : char) (head rest : str) :
  ~ In sep head ->
  split_on sep (head ++ sep :: rest) = head :: split_on sep rest.
Proof.
  induction head as [|c head IH]; simpl; intros Hnot.
  - now rewrite N.eqb_refl.
  - destruct (c =? sep)%N eqn:E.
    + apply N.eqb_eq in E. exfalso. apply Hnot. now left.
    + rewrite IH by (intros H; apply Hnot; now right). reflexivity.
Qed.

Lemma split_on_absent (sep : char) (s : str) :
  ~ In sep s -> split_on sep s = [s].
Proof.
  induction s as [|c s IH]; simpl; intros Hnot; [reflexivity|].
  destruct (c =? sep)%N eqn:E.
  - apply N.eqb_eq in E. exfalso. apply Hnot. now left.
  - rewrite IH by (intros H; apply Hnot; now right). reflexivity.
Qed.

Lemma last_In {A} (l : list A) (d : A) : l <> [] -> In (last l d) l.
Proof.
  induction l as [|x l IH]; [congruence|]. intros _.
  destruct l as [|y l]; [now left|].
  right. apply IH. discriminate.
Qed.

(** The pieces of a split, joined again by the separator, are the
    string. *)
Lemma split_on_join (sep : char) (s : str) :
  join [sep] (split_on sep s) = s.
Proof.
  induction s as [|c s IH]; [reflexivity|].
  simpl split_on. destruct (c =? sep)%N eqn:E.
  - apply N.eqb_eq in E. subst c.
    pose proof (split_on_not_nil sep s) as Hne.
    destruct (split_on sep s) as [|w ws]; [congruence|].
    change (join [sep] ([] :: w :: ws)) with (sep :: join [sep] (w :: ws)).
    now rewrite IH.
  - pose proof (split_on_not_nil sep s) as Hne.
    destruct (split_on sep s) as [|w ws]; [congruence|].
    destruct ws as [|w' ws].
    + simpl in *. now rewrite IH.
    + change (join [sep] ((c :: w) :: w' :: ws))
        with (c :: join [sep] (w :: w' :: ws)).
      now rewrite IH.
Qed.

End SplitOn.

(** ** Namespace detection *)

Section Detect.

Import Py PyStr Namespace.

Lemma first_namespace_in_In (items : Dict.dict str str) (x n : str) :
  first_namespace_in items x = Some n ->
  In n (map snd items) /\ contains x n = true.
Proof.
  induction items as [|[version namespace] items IH]; simpl; [discriminate|].
  destruct (contains x namespace) eqn:E.
  - intros [= <-]. split; [now left | exact E].
  - intros H. destruct (IH H) as [Hin Hc]. split; [now right | exact Hc].
Qed.

Lemma first_namespace_in_None (items : Dict.dict str str) (x : str) :
  first_namespace_in items x = None ->
  Forall (fun n => contains x n = false) (map snd items).
Proof.
  induction items as [|[version namespace] items IH]; simpl; intros H.
  - constructor.
  - destruct (contains x namespace) eqn:E; [discriminate|].
    constructor; [exact E | now apply IH].
Qed.

Lemma most_recent_known : In most_recent (map snd PAGE_NAMESPACES).
Proof. vm_compute. do 8 right. now left. Qed.

End Detect.

(** A root tag in [{namespace}local] notation gives [namespace]. *)
Lemma detect_of_tag (namespace local : Py.str)
        (xmlns : option Py.str) :
  ~ In Namespace.rbrace namespace ->
  Namespace.detect_page_namespace
    (Some (Namespace.mkRoot
             (Namespace.lbrace :: namespace ++ Namespace.rbrace :: local)
             xmlns))
  = namespace.
Proof.
  intros Hnot. unfold Namespace.detect_page_namespace.
  cbn [Namespace.root_tag Py.startswith].
  rewrite N.eqb_refl. cbn [andb].
  rewrite startswith_nil.
  change (Namespace.lbrace :: namespace ++ Namespace.rbrace :: local)
    with ((Namespace.lbrace :: namespace) ++ Namespace.rbrace :: local).
  rewrite split_on_head; [reflexivity|].
  intros [H|H]; [discriminate H | now apply Hnot].
Qed.

(** Without a namespace in the root tag, a known namespace is returned. *)
Lemma detect_fallback (parsed : option Namespace.Root) :
  (forall root, parsed = Some root ->
     Py.startswith (Namespace.root_tag root) [Namespace.lbrace] = false) ->
  In (Namespace.detect_page_namespace parsed)
     (map snd Namespace.PAGE_NAMESPACES)
  /\ (Namespace.detect_page_namespace parsed = Namespace.most_recent
      \/ exists root x,
           parsed = Some root /\ Namespace.xmlns root = Some x /\ x <> []
           /\ PyStr.contains x (Namespace.detect_page_namespace parsed) = true).
Proof.
  intros Hbare. unfold Namespace.detect_page_namespace.
  destruct parsed as [root|];
    [|split; [apply most_recent_known | now left]].
  rewrite (Hbare root eq_refl).
  destruct (Namespace.xmlns root) as [[|c t]|] eqn:Ex;
    try (split; [apply most_recent_known | now left]).
  destruct (Namespace.first_namespace_in Namespace.PAGE_NAMESPACES (c :: t))
    as [n|] eqn:En;
    [|split; [apply most_recent_known | now left]].
  destruct (first_namespace_in_In _ _ En) as [Hin Hc].
  split; [exact Hin|]. right. exists root, (c :: t).
  repeat split; try assumption. discriminate.
Qed.

(** X22.  [detect_page_namespace] has two cases.  A root tag in
    [ElementTree]'s notation [{namespace}local] makes it return exactly
    [namespace], whatever it is: the namespace is not checked against
    the table of known PAGE namespaces and the [xmlns] attribute is not
    looked at.  When the file cannot be parsed, or the root tag does not
    start with an opening brace, it returns one of the nine namespaces
    of [PAGE_NAMESPACES]: the most recent one (2019-07-15), or one that
    occurs in the root's non-empty [xmlns] attribute. *)
Theorem detect_page_namespace_cases :
  (forall (namespace local : Py.str) (xmlns : option Py.str),
      ~ In Namespace.rbrace namespace ->
      Namespace.detect_page_namespace
        (Some (Namespace.mkRoot
                 (Namespace.lbrace :: namespace ++ Namespace.rbrace :: local)
                 xmlns))
      = namespace)
  /\ (forall parsed : option Namespace.Root,
         (forall root, parsed = Some root ->
            Py.startswith (Namespace.root_tag root) [Namespace.lbrace]
            = false) ->
         In (Namespace.detect_page_namespace parsed)
            (map snd Namespace.PAGE_NAMESPACES)
         /\ (Namespace.detect_page_namespace parsed = Namespace.most_recent
             \/ exists root x,
                  parsed = Some root /\ Namespace.xmlns root = Some x
                  /\ x <> []
                  /\ PyStr.contains
                       x (Namespace.detect_page_namespace parsed) = true)).
Proof.
  split.
  - intros namespace local xmlns. apply detect_of_tag.
  - intros parsed. apply detect_fallback.
Qed.

Lemma detect_page_namespace_cases_witness :
  Namespace.detect_page_namespace
    (Some (Namespace.mkRoot
             (Align.of_ascii "{urn:page}PcGts"%string) None))
  = Align.of_ascii "urn:page"%string
  /\ In (Namespace.detect_page_namespace
           (Some (Namespace.mkRoot
                    (Align.of_ascii "PcGts"%string)
                    (Some (Align.of_ascii
                             "see http://schema.primaresearch.org/PAGE/gts/pagecontent/2013-07-15"%string)))))
        (map snd Namespace.PAGE_NAMESPACES).
Proof.
  split.
  - apply (proj1 detect_page_namespace_cases
                 (Align.of_ascii "urn:page"%string)
                 (Align.of_ascii "PcGts"%string) None).
    vm_compute. intuition discriminate.
  - refine (proj1 (proj2 detect_page_namespace_cases (Some _) _)).
    intros r [= <-]. vm_compute. reflexivity.
Defined.

(** ** The rebuilt tree *)

Section WriterFacts.

Import Py PyStr Writer TreeProps.

Lemma Node_induction (P : Node -> Prop) :
  (forall tag attrib text tail children,
      Forall P children -> P (mkNode tag attrib text tail children)) ->
  forall n, P n.
Proof.
  intros H. fix IH 1. intros [tag attrib text tail children].
  apply H. induction children as [|c cs IHcs]; constructor.
  - apply IH.
  - exact IHcs.
Qed.

Lemma without_namespace_free (name : str) :
  namespace_free (without_namespace name) = true.
Proof.
  unfold without_namespace, namespace_free.
  destruct (contains name [Namespace.rbrace]) eqn:E.
  - apply negb_true_iff, contains_char_false.
    pose proof (split_on_pieces Namespace.rbrace name) as Hall.
    rewrite Forall_forall in Hall. apply Hall.
    apply last_In, split_on_not_nil.
  - now rewrite E.
Qed.

Lemma without_namespace_fixed (name : str) :
  namespace_free name = true -> without_namespace name = name.
Proof.
  unfold without_namespace, namespace_free. intros H.
  apply negb_true_iff in H. now rewrite H.
Qed.

(** A name in [{namespace}local] notation loses the braces and what is
    between them. *)
Lemma without_namespace_clark (namespace local : str) :
  ~ In Namespace.rbrace namespace -> ~ In Namespace.rbrace local ->
  without_namespace (Namespace.lbrace :: namespace ++ Namespace.rbrace :: local)
  = local.
Proof.
  intros Hn Hl. unfold without_namespace.
  assert (Hc : contains (Namespace.lbrace :: namespace
                           ++ Namespace.rbrace :: local)
                        [Namespace.rbrace] = true).
  { apply contains_char. right. apply in_or_app. right. now left. }
  rewrite Hc.
  change (Namespace.lbrace :: namespace ++ Namespace.rbrace :: local)
    with ((Namespace.lbrace :: namespace) ++ Namespace.rbrace :: local).
  rewrite split_on_head by (intros [H|H]; [discriminate H | now apply Hn]).
  rewrite (split_on_absent _ _ Hl). reflexivity.
Qed.

Lemma set_keys_In (d : Dict.dict str str) (k v k' : str) :
  In k' (map fst (Dict.set str_eqb d k v)) <-> In k' (map fst d) \/ k' = k.
Proof.
  induction d as [|[k0 v0] d IH]; simpl.
  - intuition congruence.
  - destruct (str_eqb k0 k) eqn:E; simpl.
    + apply str_eqb_eq in E. subst k0. intuition congruence.
    + rewrite IH. tauto.
Qed.

Lemma set_NoDup (d : Dict.dict str str) (k v : str) :
  NoDup (map fst d) -> NoDup (map fst (Dict.set str_eqb d k v)).
Proof.
  induction d as [|[k0 v0] d IH]; simpl; intros Hnd.
  - constructor; [intros []|constructor].
  - inversion Hnd as [|? ? Hnot Hnd']; subst.
    destruct (str_eqb k0 k) eqn:E; simpl.
    + constructor; assumption.
    + apply str_eqb_neq in E. constructor; [|now apply IH].
      rewrite set_keys_In. intros [H|H]; [now apply Hnot | congruence].
Qed.

Lemma set_absent (d : Dict.dict str str) (k v : str) :
  ~ In k (map fst d) -> Dict.set str_eqb d k v = d ++ [(k, v)].
Proof.
  induction d as [|[k0 v0] d IH]; simpl; intros Hnot; [reflexivity|].
  destruct (str_eqb k0 k) eqn:E.
  - apply str_eqb_eq in E. tauto.
  - rewrite IH by tauto. reflexivity.
Qed.

Lemma set_length (d : Dict.dict str str) (k v : str) :
  List.length (Dict.set str_eqb d k v) <= S (List.length d).
Proof.
  induction d as [|[k0 v0] d IH]; simpl; [lia|].
  destruct (str_eqb k0 k); simpl; lia.
Qed.

Lemma copy_fold_keys (attrib new : Dict.dict str str) :
  NoDup (map fst new) ->
  Forall (fun k => namespace_free k = true) (map fst new) ->
  NoDup (map fst (fold_left (fun new '(key, value) =>
                 Dict.set str_eqb new (without_namespace key) value)
              attrib new))
  /\ Forall (fun k => namespace_free k = true)
            (map fst (fold_left (fun new '(key, value) =>
                 Dict.set str_eqb new (without_namespace key) value)
              attrib new)).
Proof.
  revert new. induction attrib as [|[key value] attrib IH]; simpl;
    intros new Hnd Hfree; [now split|].
  apply IH.
  - now apply set_NoDup.
  - rewrite Forall_forall in *. intros k Hk.
    apply set_keys_In in Hk. destruct Hk as [Hk| ->].
    + now apply Hfree.
    + apply without_namespace_free.
Qed.

Lemma copy_attrib_keys (attrib : Dict.dict str str) :
  NoDup (map fst (copy_attrib attrib))
  /\ Forall (fun k => namespace_free k = true) (map fst (copy_attrib attrib)).
Proof.
  apply (@copy_fold_keys attrib []); constructor.
Qed.

Lemma copy_fold_fixed (attrib new : Dict.dict str str) :
  NoDup (map fst (new ++ attrib)) ->
  Forall (fun k => namespace_free k = true) (map fst attrib) ->
  fold_left (fun new '(key, value) =>
                 Dict.set str_eqb new (without_namespace key) value)
              attrib new = new ++ attrib.
Proof.
  revert new. induction attrib as [|[key value] attrib IH]; simpl;
    intros new Hnd Hfree; [now rewrite app_nil_r|].
  inversion Hfree as [|? ? Hk Hrest]; subst.
  rewrite (without_namespace_fixed _ Hk).
  assert (Hnot : ~ In key (map fst new)).
  { rewrite map_app in Hnd. simpl in Hnd.
    apply NoDup_remove_2 in Hnd. intros H. apply Hnd.
    apply in_or_app. now left. }
  rewrite (@set_absent _ _ _ Hnot).
  rewrite IH; [now rewrite <- app_assoc | | exact Hrest].
  now rewrite <- app_assoc.
Qed.

Lemma copy_attrib_idem (attrib : Dict.dict str str) :
  copy_attrib (copy_attrib attrib) = copy_attrib attrib.
Proof.
  destruct (copy_attrib_keys attrib) as [Hnd Hfree].
  apply (@copy_fold_fixed (copy_attrib attrib) []); assumption.
Qed.

Lemma copy_fold_length (attrib new : Dict.dict str str) :
  List.length (fold_left (fun new '(key, value) =>
                 Dict.set str_eqb new (without_namespace key) value)
              attrib new)
  <= List.length new + List.length attrib.
Proof.
  revert new. induction attrib as [|[key value] attrib IH]; simpl;
    intros new; [lia|].
  specialize (IH (Dict.set str_eqb new (without_namespace key) value)).
  pose proof (set_length new (without_namespace key) value). lia.
Qed.

Lemma if_nonempty_idem (x : option str) :
  if_nonempty (if_nonempty x) = if_nonempty x.
Proof. now destruct x as [[|c t]|]. Qed.

Lemma if_nonempty_content (x : option str) :
  match if_nonempty x with Some y => y | None => [] end
  = match x with Some y => y | None => [] end.
Proof. now destruct x as [[|c t]|]. Qed.

Lemma map_ext_Forall {A B} (f g : A -> B) (l : list A) :
  Forall (fun x => f x = g x) l -> map f l = map g l.
Proof.
  induction 1 as [|x l Hx _ IH]; simpl; [reflexivity|].
  now rewrite Hx, IH.
Qed.

Lemma copy_child_free (n : Node) : all_namespace_free (copy_child n) = true.
Proof.
  induction n as [tag attrib text tail children IH] using Node_induction.
  cbn [copy_child all_namespace_free].
  rewrite without_namespace_free. cbn [andb].
  apply andb_true_iff. split.
  - apply forallb_forall. intros [k v] Hin.
    destruct (copy_attrib_keys attrib) as [_ Hfree].
    rewrite Forall_forall in Hfree. apply Hfree.
    apply in_map_iff. now exists (k, v).
  - apply forallb_forall. intros c Hc.
    apply in_map_iff in Hc. destruct Hc as (c0 & <- & Hc0).
    rewrite Forall_forall in IH. now apply IH.
Qed.

Lemma copy_child_size (n : Node) : size (copy_child n) = size n.
Proof.
  induction n as [tag attrib text tail children IH] using Node_induction.
  cbn [copy_child size]. f_equal. f_equal.
  rewrite map_map. now apply map_ext_Forall.
Qed.

Lemma copy_child_content (n : Node) : content (copy_child n) = content n.
Proof.
  induction n as [tag attrib text tail children IH] using Node_induction.
  cbn [copy_child content].
  rewrite !if_nonempty_content, map_map.
  now rewrite (map_ext_Forall _ _ IH).
Qed.

Lemma copy_child_idem (n : Node) : copy_child (copy_child n) = copy_child n.
Proof.
  induction n as [tag attrib text tail children IH] using Node_induction.
  cbn [copy_child].
  rewrite (without_namespace_fixed _ (without_namespace_free tag)).
  rewrite !if_nonempty_idem, map_map.
  fold (copy_attrib (copy_attrib attrib)). rewrite copy_attrib_idem.
  now rewrite (map_ext_Forall _ _ IH).
Qed.

End WriterFacts.

(** X23.  The tree that [write_xml_without_namespace_prefixes]
    serializes has no namespace left: no tag and no attribute name in
    it holds a closing brace.  It has as many elements as the tree it
    was built from, an element never has more attributes than its
    source, and the text below the root (every descendant's text and
    tail, in document order) is the same; the root's own text is not
    copied. *)
Theorem rebuilt_tree_shape (root : Writer.Node) :
  let new_root := Writer.write_xml_without_namespace_prefixes root in
  TreeProps.all_namespace_free new_root = true
  /\ TreeProps.size new_root = TreeProps.size root
  /\ List.length (Writer.attrib new_root)
     <= List.length (Writer.attrib root)
  /\ NoDup (map fst (Writer.attrib new_root))
  /\ Writer.text new_root = None
  /\ TreeProps.content new_root
     = concat (map TreeProps.content (Writer.children root)).
Proof.
  destruct root as [tag attrib text tail children]. cbv zeta.
  unfold Writer.write_xml_without_namespace_prefixes, Writer.copy_element.
  cbn [Writer.tag Writer.attrib Writer.children Writer.text].
  repeat split.
  - cbn [TreeProps.all_namespace_free].
    rewrite without_namespace_free. cbn [andb].
    apply andb_true_iff. split.
    + apply forallb_forall. intros [k v] Hin.
      destruct (copy_attrib_keys attrib) as [_ Hfree].
      rewrite Forall_forall in Hfree. apply Hfree.
      apply in_map_iff. now exists (k, v).
    + apply forallb_forall. intros c Hc.
      apply in_map_iff in Hc. destruct Hc as (c0 & <- & Hc0).
      apply copy_child_free.
  - cbn [TreeProps.size]. f_equal. f_equal. rewrite map_map.
    apply map_ext. intros c. apply copy_child_size.
  - apply (copy_fold_length attrib []).
  - apply copy_attrib_keys.
  - cbn [TreeProps.content]. rewrite app_nil_r. cbn [app].
    rewrite map_map. f_equal. apply map_ext. intros c.
    apply copy_child_content.
Qed.

(** X24.  Rebuilding is idempotent: a tree that went through
    [write_xml_without_namespace_prefixes] once comes out of a second
    pass unchanged. *)
Theorem rebuild_idempotent (root : Writer.Node) :
  Writer.write_xml_without_namespace_prefixes
    (Writer.write_xml_without_namespace_prefixes root)
  = Writer.write_xml_without_namespace_prefixes root.
Proof.
  destruct root as [tag attrib text tail children].
  unfold Writer.write_xml_without_namespace_prefixes, Writer.copy_element.
  cbn [Writer.tag Writer.attrib Writer.children].
  rewrite (without_namespace_fixed _ (without_namespace_free tag)).
  rewrite copy_attrib_idem, map_map. f_equal.
  apply map_ext. intros c. apply copy_child_idem.
Qed.

(** X25.  A tag or attribute name in [ElementTree]'s notation
    [{namespace}local] is written as [local]; a name without a closing
    brace is written as it is. *)
Theorem namespace_is_stripped (namespace local : Py.str) :
  ~ In Namespace.rbrace namespace -> ~ In Namespace.rbrace local ->
  Writer.without_namespace
    (Namespace.lbrace :: namespace ++ Namespace.rbrace :: local) = local
  /\ Writer.without_namespace local = local.
Proof.
  intros Hn Hl. split.
  - now apply without_namespace_clark.
  - apply without_namespace_fixed. unfold TreeProps.namespace_free.
    apply negb_true_iff. now apply contains_char_false.
Qed.

Lemma namespace_is_stripped_witness :
  Writer.without_namespace (Align.of_ascii "{urn:page}TextLine"%string)
  = Align.of_ascii "TextLine"%string.
Proof.
  apply (namespace_is_stripped (Align.of_ascii "urn:page"%string)
                               (Align.of_ascii "TextLine"%string));
    vm_compute; intuition discriminate.
Defined.

(** ** Batches *)

Section BatchFacts.

Import Py Align PageXml Batch BatchProps.

Variables reference_text output_dir : str.
Variable threshold : Z.

Lemma nonempty_dec {A} (c : list A) : {c <> []} + {~ c <> []}.
Proof.
  destruct c; [right; intros H; now apply H | left; discriminate].
Qed.

Lemma alignment_raises_iff (uid : str) (ocr_lines : list str) :
  alignment uid ocr_lines reference_text output_dir threshold
  = Raise TypeError
  <-> Exists (fun line =>
                candidates_for (normalize_hebrew reference_text)
                               (normalize_hebrew line) = [])
             ocr_lines.
Proof.
  split.
  - intros Hraise.
    destruct (Forall_Exists_dec
                (fun line => candidates_for (normalize_hebrew reference_text)
                                            (normalize_hebrew line) <> [])
                (fun line => nonempty_dec _)
                ocr_lines) as [Hall|Hex].
    + exfalso.
      destruct (align_loop_total (normalize_hebrew reference_text)
                                 ([], []) Hall) as [[rows log] Hok].
      unfold alignment in Hraise. rewrite Hok in Hraise.
      discriminate Hraise.
    + apply Exists_exists in Hex. destruct Hex as (line & Hin & Hno).
      apply Exists_exists. exists line. split; [exact Hin|].
      destruct (candidates_for (normalize_hebrew reference_text)
                               (normalize_hebrew line));
        [reflexivity | exfalso; apply Hno; discriminate].
  - intros Hex. apply Exists_exists in Hex.
    destruct Hex as (line & Hin & Hno).
    apply in_split in Hin. destruct Hin as (pre & post & ->).
    unfold alignment.
    now rewrite (align_loop_raises _ pre post line ([], []) Hno).
Qed.

Lemma alignment_raises_type_error (uid : str) (ocr_lines : list str)
      (e : exn) :
  alignment uid ocr_lines reference_text output_dir threshold = Raise e ->
  e = TypeError.
Proof.
  unfold alignment.
  assert (Hloop : forall lines st e',
             align_loop (normalize_hebrew reference_text) lines st = Raise e' ->
             e' = TypeError).
  { induction lines as [|l ls IH]; intros [rows log] e'; cbn [align_loop];
      [discriminate|].
    pose proof (align_line_inv (normalize_hebrew reference_text) rows log l)
      as Hl.
    destruct (align_line (normalize_hebrew reference_text) (rows, log) l)
      as [st'|e'']; cbn [bind].
    - apply IH.
    - intros [= <-]. apply Hl. }
  destruct (align_loop (normalize_hebrew reference_text) ocr_lines ([], []))
    as [[rows log]|e'] eqn:E; cbn [bind]; [discriminate|].
  intros [= <-]. exact (Hloop _ _ _ E).
Qed.

Lemma processed_raises_iff (f : XmlFile) :
  processed reference_text output_dir threshold f = Raise TypeError
  <-> no_candidates_in reference_text f.
Proof.
  unfold processed, processing, no_candidates_in.
  destruct (extract_ocr_lines_from_pagexml (file_doc f)) as [|l ls] eqn:E.
  - split; [discriminate | intros H; inversion H].
  - rewrite <- alignment_raises_iff with (uid := file_uid f).
    destruct (alignment (file_uid f) (l :: ls) reference_text
                        output_dir threshold) as [out|e] eqn:Ea;
      cbn [bind]; [split; discriminate|].
    apply alignment_raises_type_error in Ea. subst e. tauto.
Qed.

Lemma processed_raises_type_error (f : XmlFile) (e : exn) :
  processed reference_text output_dir threshold f = Raise e -> e = TypeError.
Proof.
  unfold processed, processing.
  destruct (extract_ocr_lines_from_pagexml (file_doc f)) as [|l ls];
    [discriminate|].
  destruct (alignment (file_uid f) (l :: ls) reference_text
                      output_dir threshold) as [out|e'] eqn:Ea;
    cbn [bind]; [discriminate|].
  intros [= <-]. exact (alignment_raises_type_error _ _ Ea).
Qed.

Lemma directory_results_raises (xml_files : list XmlFile)
      (acc : list (option (Document * Output))) :
  directory_results reference_text output_dir threshold xml_files acc
  = Raise TypeError
  <-> Exists (no_candidates_in reference_text) xml_files.
Proof.
  revert acc. induction xml_files as [|f fs IH]; intros acc;
    cbn [directory_results].
  - split; [discriminate | intros H; inversion H].
  - destruct (processed reference_text output_dir threshold f) as [r|e] eqn:E;
      cbn [bind].
    + rewrite IH. split; [intros H; now right|].
      intros H. inversion H as [? ? Hf|? ? Hfs]; subst; [|exact Hfs].
      apply processed_raises_iff in Hf. congruence.
    + pose proof (processed_raises_type_error _ E) as ->.
      split; [intros _; left; now apply processed_raises_iff | reflexivity].
Qed.

Lemma directory_results_ok (xml_files : list XmlFile)
      (acc results : list (option (Document * Output))) :
  directory_results reference_text output_dir threshold xml_files acc
  = Ok results ->
  exists per_file,
    Forall2 (fun f r => processed reference_text output_dir threshold f = Ok r)
            xml_files per_file
    /\ results = acc ++ filter kept per_file.
Proof.
  revert acc. induction xml_files as [|f fs IH]; intros acc;
    cbn [directory_results].
  - intros [= <-]. exists []. split; [constructor | now rewrite app_nil_r].
  - destruct (processed reference_text output_dir threshold f) as [r|e] eqn:E;
      cbn [bind]; [|discriminate].
    intros H. apply IH in H. destruct H as (per_file & Hall & ->).
    exists (r :: per_file). split; [now constructor|].
    destruct r as [r|]; simpl; [now rewrite <- app_assoc | reflexivity].
Qed.

Lemma directory_results_total (xml_files : list XmlFile)
      (acc : list (option (Document * Output))) :
  ~ Exists (no_candidates_in reference_text) xml_files ->
  exists results,
    directory_results reference_text output_dir threshold xml_files acc
    = Ok results.
Proof.
  intros Hnone.
  destruct (directory_results reference_text output_dir threshold xml_files acc)
    as [results|e] eqn:E; [now exists results|].
  exfalso. apply Hnone. apply (directory_results_raises xml_files acc).
  rewrite E. f_equal.
  clear Hnone. revert acc E.
  induction xml_files as [|f fs IH]; intros acc; cbn [directory_results];
    [discriminate|].
  destruct (processed reference_text output_dir threshold f) as [r|e'] eqn:Ef;
    cbn [bind].
  - apply IH.
  - intros [= <-]. exact (processed_raises_type_error _ Ef).
Qed.

Variable fs : Os.FileSystem.

Lemma computes_directory_loop (xml_files : list XmlFile)
      (acc : list (option (Document * Output))) :
  computes (directory_loop fs reference_text output_dir threshold
                           xml_files acc)
           (directory_results reference_text output_dir threshold
                              xml_files acc).
Proof.
  revert acc. induction xml_files as [|f fs' IH]; intros acc;
    cbn [directory_loop directory_results]; [apply computes_ret|].
  apply computes_bind; [apply computes_process|]. intros r. apply IH.
Qed.

Lemma ends_directory_loop (xml_files : list XmlFile)
      (acc : list (option (Document * Output))) :
  Os.obliging fs -> output_dir <> [] ->
  ends_as (directory_loop fs reference_text output_dir threshold
                          xml_files acc)
          (directory_results reference_text output_dir threshold
                             xml_files acc).
Proof.
  intros Hfs Hdir. revert acc.
  induction xml_files as [|f fs' IH]; intros acc;
    cbn [directory_loop directory_results]; [apply ends_ret|].
  apply ends_bind; [now apply ends_process|]. intros r. apply IH.
Qed.

End BatchFacts.

(** With the empty path as output directory, the first file that has
    OCR lines ends the loop in [os.makedirs]. *)
Lemma directory_loop_empty_output_dir (fs : Os.FileSystem)
      (reference_text : Py.str) (threshold : Z)
      (xml_files : list Batch.XmlFile)
      (acc : list (option (PageXml.Document * Align.Output)))
      (trace : list Os.call) :
  Exists BatchProps.has_lines xml_files ->
  fst (Batch.directory_loop fs reference_text [] threshold xml_files acc trace)
  = Align.Raise (Align.Failed Os.FileNotFoundError).
Proof.
  intros Hex. revert acc trace.
  induction xml_files as [|f files IH]; intros acc trace;
    [inversion Hex|].
  cbn [Batch.directory_loop]. unfold Align.bind_io at 1.
  unfold Batch.process, PageXml.process_pagexml_file.
  destruct (PageXml.extract_ocr_lines_from_pagexml (Batch.file_doc f))
    as [|l ls] eqn:El.
  - cbn. apply IH. inversion Hex as [? ? Hf|? ? Hrest]; subst; [|exact Hrest].
    unfold BatchProps.has_lines in Hf. now rewrite El in Hf.
  - reflexivity.
Qed.

(** X26.  On a directory, [process_pagexml_directory] is all or
    nothing.  On every file system, a run that returns found
    candidates for every OCR line of every file, and the list it
    returns holds, in file order, the result of every file that has
    OCR lines: files without OCR lines are left out, so no entry of the
    list is [None].  A run that ends with the [TypeError] has a file
    with an OCR line for which the reference yields no candidate, and a
    run over such a file never returns, whatever the other files are.
    Where the output directory is not the empty path and every call to
    the file system succeeds, the run ends with the [TypeError]
    exactly when there is such a file, and returns otherwise.  With the
    empty path as output directory and a file that has OCR lines, the
    run ends in [os.makedirs] with [FileNotFoundError]. *)
Theorem directory_run_all_or_nothing (fs : Os.FileSystem)
        (xml_files : list Batch.XmlFile)
        (reference_text output_dir : Py.str) (threshold : Z) :
  let run_ :=
    Align.run
      (Batch.process_pagexml_directory fs (Batch.IsDirectory xml_files)
                                       reference_text output_dir threshold) in
  (forall results,
      run_ = Align.Ok results ->
      ~ Exists (BatchProps.no_candidates_in reference_text) xml_files
      /\ Forall (fun r => r <> None) results
      /\ List.length results <= List.length xml_files
      /\ exists per_file,
           Forall2 (fun f r =>
                      BatchProps.processed reference_text output_dir
                                           threshold f
                      = Align.Ok r)
                   xml_files per_file
           /\ results = filter BatchProps.kept per_file)
  /\ (run_ = Align.Raise Align.TypeError ->
      Exists (BatchProps.no_candidates_in reference_text) xml_files)
  /\ (Exists (BatchProps.no_candidates_in reference_text) xml_files ->
      forall results, run_ <> Align.Ok results)
  /\ (Os.obliging fs -> output_dir <> [] ->
      (run_ = Align.Raise Align.TypeError
       <-> Exists (BatchProps.no_candidates_in reference_text) xml_files)
      /\ (~ Exists (BatchProps.no_candidates_in reference_text) xml_files ->
          exists results, run_ = Align.Ok results))
  /\ (output_dir = [] -> Exists BatchProps.has_lines xml_files ->
      run_ = Align.Raise (Align.Failed Os.FileNotFoundError)).
Proof.
  cbv zeta.
  assert (Hc : Inv.computes
                 (Batch.process_pagexml_directory
                    fs (Batch.IsDirectory xml_files) reference_text
                    output_dir threshold)
                 (BatchProps.directory_results reference_text output_dir
                                               threshold xml_files [])).
  { unfold Batch.process_pagexml_directory.
    destruct xml_files as [|f files]; [apply computes_ret|].
    apply computes_directory_loop. }
  split; [|split; [|split; [|split]]].
  - intros results Hrun. apply (computes_run_ok Hc) in Hrun.
    split.
    { intros Hex.
      apply (directory_results_raises reference_text output_dir threshold
                                      xml_files []) in Hex.
      congruence. }
    apply directory_results_ok in Hrun.
    destruct Hrun as (per_file & Hall & Hres). cbn [app] in Hres.
    split; [|split].
    + subst results. apply Forall_forall. intros r Hr.
      apply filter_In in Hr. destruct Hr as [_ Hk].
      destruct r; [discriminate | discriminate Hk].
    + subst results. apply Forall2_length in Hall. rewrite Hall.
      apply filter_length_le.
    + exists per_file. split; [exact Hall | exact Hres].
  - intros Hrun. apply (computes_run_type_error Hc) in Hrun.
    now apply directory_results_raises in Hrun.
  - intros Hex.
    apply (directory_results_raises reference_text output_dir threshold
                                    xml_files []) in Hex.
    exact (computes_run_never_ok Hc Hex).
  - intros Hfs Hdir.
    assert (He : Align.run
                   (Batch.process_pagexml_directory
                      fs (Batch.IsDirectory xml_files) reference_text
                      output_dir threshold)
                 = BatchProps.directory_results reference_text output_dir
                                                threshold xml_files []).
    { unfold Batch.process_pagexml_directory.
      destruct xml_files as [|f files]; [reflexivity|].
      now apply ends_directory_loop. }
    rewrite He. split.
    + apply directory_results_raises.
    + apply directory_results_total.
  - intros -> Hex. unfold Batch.process_pagexml_directory.
    destruct xml_files as [|f files]; [inversion Hex|].
    now apply directory_loop_empty_output_dir.
Qed.

Lemma directory_run_all_or_nothing_witness :
  let el name text children :=
    PageXml.Elem (PageXml.QName (Some "ns"%string) name) text children in
  let line text :=
    el "TextLine"%string None [el "Unicode"%string (Some text) []] in
  let file name lines :=
    Batch.mkXmlFile (Align.of_ascii name)
                    (PageXml.mkDocument "ns"%string lines None)
                    (Align.of_ascii "0a1b2c3d"%string) [] in
  let xml_files :=
    [file "a.xml"%string [line [1488]%N];
     file "b.xml"%string [];
     file "c.xml"%string [line [1489]%N]] in
  exists results,
    Align.run
      (Batch.process_pagexml_directory
         Os.always_ok (Batch.IsDirectory xml_files) [1488; 32; 1489]%N
         (Align.of_ascii "aligned"%string) 70)
    = Align.Ok results
    /\ Forall (fun r => r <> None) results
    /\ List.length results = 2.
Proof.
  intros el line file xml_files.
  eexists. split; [vm_compute; reflexivity|].
  split; [|vm_compute; reflexivity].
  refine (proj1 (proj2 (proj1 (@directory_run_all_or_nothing
                                 Os.always_ok xml_files [1488; 32; 1489]%N
                                 (Align.of_ascii "aligned"%string) 70%Z)
                              _ _))).
  vm_compute; reflexivity.
Defined.

(* ================================================================== *)
(** * Part V. The Streamlit front end                                  *)
(* ================================================================== *)

(** ** The front end's diff *)

Section AppDiff.

Import Py Align AppProps.

Lemma startswith_blank_not_sign (d : str) :
  startswith d [Difflib.blank] = true ->
  startswith d [Difflib.minus_sign] = false
  /\ startswith d [Difflib.plus_sign] = false.
Proof.
  destruct d as [|c d]; [discriminate|]. cbn [startswith].
  rewrite !startswith_nil, !andb_true_r. intros H.
  apply N.eqb_eq in H. subst c. now split.
Qed.

Variables red green : str -> str.
Variables ocr ref : str.

(** The front end's loop logs what the command-line loop logs, each
    pair tagged with the two lines. *)
Lemma app_diff_loop_log (fuel : nat) (diff : list str) (i : nat)
      (out : list str) (pre : list App.entry) (log : list confusion) :
  snd (App.diff_loop red green fuel ocr ref diff i out
                     (pre ++ map (tagged ocr ref) log))
  = pre ++ map (tagged ocr ref) (diff_loop fuel diff i log).
Proof.
  revert i out log. induction fuel as [|fuel IH]; intros i out log;
    [reflexivity|].
  cbn [App.diff_loop diff_loop].
  destruct (i <? List.length diff); [|reflexivity].
  set (d := nth i diff []).
  assert (Hsnoc : forall c cw : str,
             (pre ++ map (tagged ocr ref) log) ++ [(ocr, ref, c, cw)]
             = pre ++ map (tagged ocr ref) (log ++ [(c, cw)])).
  { intros c cw. now rewrite map_app, <- app_assoc. }
  destruct (startswith d [Difflib.blank]) eqn:Eb.
  - destruct (startswith_blank_not_sign d Eb) as [-> ->]. apply IH.
  - destruct (startswith d [Difflib.minus_sign]) eqn:Em.
    + destruct ((i + 1 <? List.length diff)
                && startswith (nth (i + 1) diff []) [Difflib.plus_sign]);
        rewrite Hsnoc; apply IH.
    + destruct (startswith d [Difflib.plus_sign]) eqn:Ep;
        [rewrite Hsnoc|]; apply IH.
Qed.

Lemma app_diff_with_log (log : list App.entry) :
  snd (App.diff_with red green ocr ref log)
  = log ++ map (tagged ocr ref) (diff_strings ocr ref []).
Proof.
  unfold App.diff_with, diff_strings.
  pose proof (app_diff_loop_log (List.length (Difflib.ndiff ocr ref))
                                (Difflib.ndiff ocr ref) 0 [] log []) as H.
  cbn [map] in H. rewrite app_nil_r in H.
  destruct (App.diff_loop red green (List.length (Difflib.ndiff ocr ref))
                          ocr ref (Difflib.ndiff ocr ref) 0 [] log)
    as [out log'].
  exact H.
Qed.

End AppDiff.

Lemma pair_of_tagged (ocr ref : Py.str) (l : list Align.confusion) :
  map AppProps.pair_of_entry (map (AppProps.tagged ocr ref) l) = l.
Proof.
  rewrite map_map. rewrite <- (map_id l) at 2. apply map_ext.
  now intros [c cw].
Qed.

Lemma diff_strings_from_empty (ocr ref : Py.str) (log : list Align.confusion) :
  Align.diff_strings ocr ref log = log ++ Align.diff_strings ocr ref [].
Proof.
  unfold Align.diff_strings.
  now rewrite !diff_loop_pair_up by lia.
Qed.

Lemma app_diff_logs_pairs_aux (ocr ref : Py.str) (log : list App.entry) :
  map AppProps.pair_of_entry (snd (App.diff_strings_html ocr ref log))
  = Align.diff_strings ocr ref (map AppProps.pair_of_entry log).
Proof.
  unfold App.diff_strings_html. rewrite app_diff_with_log.
  rewrite map_app, pair_of_tagged. symmetry. apply diff_strings_from_empty.
Qed.

(** X27.  The two diff functions of the front end, [diff_strings]
    (Markdown) and [diff_strings_html], only append to the log, and
    they append the same entries: the character pairs that the
    command-line [diff_strings] logs for the two strings, in the same
    order, each tagged with the OCR line and the reference line. *)
Theorem app_diff_logs_cli_pairs (ocr ref : Py.str) (log : list App.entry) :
  snd (App.diff_strings ocr ref log)
  = log ++ map (AppProps.tagged ocr ref) (Align.diff_strings ocr ref [])
  /\ snd (App.diff_strings_html ocr ref log)
     = snd (App.diff_strings ocr ref log)
  /\ map AppProps.pair_of_entry (snd (App.diff_strings_html ocr ref log))
     = Align.diff_strings ocr ref (map AppProps.pair_of_entry log).
Proof.
  unfold App.diff_strings, App.diff_strings_html.
  rewrite !app_diff_with_log. repeat split.
  rewrite map_app, pair_of_tagged. symmetry. apply diff_strings_from_empty.
Qed.

(** ** The front end's alignment *)

Section AppAlign.

Import Py Align AppProps.

Variable ref_norm : str.

Lemma app_align_loop_agrees (ocr_lines : list str) (n : Z)
      (rs : list App.Result) (log4 : list App.entry) :
  match App.align_loop ref_norm ocr_lines n (rs, log4),
        align_loop ref_norm ocr_lines
                   (map row_of_result rs, map pair_of_entry log4) with
  | Ok (rs', log4'), Ok (rows', log') =>
      rows' = map row_of_result rs'
      /\ log' = map pair_of_entry log4'
      /\ map App.line_num rs'
         = map App.line_num rs
           ++ map (fun k => (n + Z.of_nat k)%Z) (seq 0 (List.length ocr_lines))
      /\ (Forall persisted rs -> Forall persisted rs')
  | Raise _, Raise _ => True
  | _, _ => False
  end.
Proof.
  revert n rs log4. induction ocr_lines as [|line rest IH]; intros n rs log4.
  - cbn [App.align_loop align_loop List.length seq map].
    rewrite app_nil_r. auto.
  - cbn [App.align_loop align_loop].
    unfold App.align_line, align_line.
    destruct (RapidFuzz.extractOne (normalize_hebrew line)
                (candidates_for ref_norm (normalize_hebrew line))
                RapidFuzz.ratio) as [[[m s] idx]|]; [|exact I].
    pose proof (app_diff_logs_pairs_aux line m log4) as Hlog.
    destruct (App.diff_strings_html line m log4) as [diff_str log4'] eqn:Ed.
    cbn [snd] in Hlog. cbn [bind].
    specialize (IH (n + 1)%Z
                   (rs ++ [App.mkResult n line m s (find ref_norm m) m
                                        diff_str])
                   log4').
    rewrite map_app in IH. cbn [map] in IH.
    change (row_of_result
              (App.mkResult n line m s (find ref_norm m) m diff_str))
      with (mkRow line m s (find ref_norm m) m) in IH.
    rewrite Hlog in IH.
    destruct (App.align_loop ref_norm rest (n + 1)
                (rs ++ [App.mkResult n line m s (find ref_norm m) m diff_str],
                 log4')) as [[rs' l4']|e];
      destruct (align_loop ref_norm rest
                  (map row_of_result rs ++ [mkRow line m s (find ref_norm m) m],
                   diff_strings line m (map pair_of_entry log4)))
        as [[rows' l']|e']; try exact IH.
    cbv beta iota in IH. destruct IH as (Hrows & Hl & Hnum & Hp).
    split; [exact Hrows|]. split; [exact Hl|]. split.
    + rewrite Hnum, map_app, <- app_assoc. f_equal.
      cbn [map App.line_num List.length seq app].
      rewrite Z.add_0_r. f_equal.
      rewrite <- seq_shift, map_map. apply map_ext. intros k. lia.
    + intros Hrs. apply Hp. apply Forall_app. split; [exact Hrs|].
      constructor; [reflexivity | constructor].
Qed.

End AppAlign.

(** The front end's [align_ocr_lines] computes what the command-line
    alignment computes. *)
Lemma app_agrees_with_alignment (uid : Py.str) (ocr_lines : list Py.str)
        (reference_text outdir : Py.str) (threshold : Z) :
  match App.align_ocr_lines ocr_lines reference_text threshold,
        alignment uid ocr_lines reference_text outdir threshold
  with
  | Align.Ok (results, confusion_log), Align.Ok out =>
      Align.results out = map AppProps.row_of_result results
      /\ Align.confusion_log out
         = map AppProps.pair_of_entry confusion_log
      /\ map App.line_num results
         = map Z.of_nat (seq 1 (List.length ocr_lines))
      /\ Forall AppProps.persisted results
  | Align.Raise _, Align.Raise _ => True
  | _, _ => False
  end.
Proof.
  unfold App.align_ocr_lines, alignment.
  pose proof (app_align_loop_agrees (Align.normalize_hebrew reference_text)
                                    ocr_lines 1 [] []) as H.
  cbn [map] in H.
  destruct (App.align_loop (Align.normalize_hebrew reference_text)
                           ocr_lines 1 ([], [])) as [[rs log4]|e];
    destruct (Inv.align_loop (Align.normalize_hebrew reference_text)
                               ocr_lines ([], [])) as [[rows log]|e'];
    cbn [Align.bind]; try exact H.
  cbv beta iota in H. destruct H as (Hrows & Hlog & Hnum & Hp).
  cbn [Align.results Align.confusion_log].
  split; [exact Hrows|]. split; [exact Hlog|]. split.
  - rewrite Hnum. cbn [app]. rewrite <- seq_shift, map_map.
    apply map_ext. intros k. lia.
  - apply Hp. constructor.
Qed.

(** X28.  The front end's [align_ocr_lines], which calls no file
    system, and the command-line one agree on what they compute.  On
    every file system: if both return, the front end's results carry,
    row by row, the same OCR line, match, score, index and final match
    as the command-line rows, its log carries the same character pairs
    in the same order, the [line_num] fields count the lines from 1,
    and every [final_match] equals its [match]; if the front end
    returns and the command-line run does not, the command-line run
    was stopped by the file system, not by the [TypeError]; and if the
    front end ends with the [TypeError], the command-line run does not
    return.  Where the output directory is not the empty path and every
    call to the file system succeeds, either both return or both end
    with the [TypeError]. *)
Theorem app_alignment_agrees_with_cli (fs : Os.FileSystem) (uid : Py.str)
        (ocr_lines : list Py.str)
        (reference_text outdir : Py.str) (threshold : Z) :
  let app := App.align_ocr_lines ocr_lines reference_text threshold in
  let cli :=
    Align.run (Align.align_ocr_lines fs uid ocr_lines reference_text outdir
                                     threshold) in
  match app, cli with
  | Align.Ok (results, confusion_log), Align.Ok out =>
      Align.results out = map AppProps.row_of_result results
      /\ Align.confusion_log out
         = map AppProps.pair_of_entry confusion_log
      /\ map App.line_num results
         = map Z.of_nat (seq 1 (List.length ocr_lines))
      /\ Forall AppProps.persisted results
  | Align.Ok _, Align.Raise e => e <> Align.TypeError
  | Align.Raise _, Align.Ok _ => False
  | Align.Raise e, Align.Raise _ => e = Align.TypeError
  end
  /\ (Os.obliging fs -> outdir <> [] ->
      match app, cli with
      | Align.Ok _, Align.Ok _ => True
      | Align.Raise _, Align.Raise e => e = Align.TypeError
      | _, _ => False
      end).
Proof.
  cbv zeta.
  pose proof (app_agrees_with_alignment uid ocr_lines reference_text outdir
                                        threshold) as Hpure.
  pose proof (@computes_align_ocr_lines fs uid ocr_lines reference_text
                                        outdir threshold []) as Hc.
  fold (Align.run (Align.align_ocr_lines fs uid ocr_lines reference_text
                                         outdir threshold)) in Hc.
  split.
  - destruct (App.align_ocr_lines ocr_lines reference_text threshold)
      as [[rs log]|e] eqn:Eapp;
      destruct (Align.run (Align.align_ocr_lines fs uid ocr_lines
                                                 reference_text outdir
                                                 threshold))
        as [out|e'] eqn:Ecli.
    + rewrite Hc in Hpure. exact Hpure.
    + intros ->. rewrite Hc in Hpure. exact Hpure.
    + rewrite Hc in Hpure. exact Hpure.
    + destruct (Inv.alignment uid ocr_lines reference_text outdir threshold)
        as [o|e''] eqn:Ea; [contradiction|].
      clear -Eapp. unfold App.align_ocr_lines in Eapp.
      revert Eapp. generalize 1%Z. generalize (@nil App.Result, @nil App.entry).
      induction ocr_lines as [|l ls IH]; intros st n; cbn [App.align_loop];
        [discriminate|].
      unfold App.align_line at 1. destruct st as [rs log].
      destruct (RapidFuzz.extractOne _ _ _) as [[[m s] idx]|];
        [|cbn [Align.bind]; now intros [= <-]].
      destruct (App.diff_strings_html l m log) as [d log'].
      cbn [Align.bind]. apply IH.
  - intros Hfs Hdir. rewrite run_obliging by assumption.
    destruct (App.align_ocr_lines ocr_lines reference_text threshold)
      as [[rs log]|e];
      destruct (Inv.alignment uid ocr_lines reference_text outdir threshold)
        as [out|e'] eqn:Ea; try exact I; try contradiction.
    exact (alignment_raises_type_error _ _ _ _ _ Ea).
Qed.

(** ** Pages *)

Section Pages.

Import Py.

Lemma slice_from {A} (l : list A) (lo w : nat) :
  slice l (Z.of_nat lo) (Z.of_nat lo + Z.of_nat w)
  = firstn w (skipn lo l).
Proof.
  unfold slice, adjust_index, len.
  replace (Z.of_nat lo <? 0)%Z with false by (symmetry; apply Z.ltb_ge; lia).
  replace (Z.of_nat lo + Z.of_nat w <? 0)%Z with false
    by (symmetry; apply Z.ltb_ge; lia).
  destruct (Nat.le_gt_cases (List.length l) lo) as [Hout|Hin].
  - rewrite (Z.min_r (Z.of_nat lo)) by lia. rewrite Nat2Z.id.
    rewrite (skipn_all2 l Hout), (skipn_all2 l (Nat.le_refl _)).
    now rewrite !firstn_nil.
  - rewrite (Z.min_l (Z.of_nat lo)) by lia. rewrite Nat2Z.id.
    destruct (Nat.le_gt_cases (lo + w) (List.length l)) as [Hfit|Hcut].
    + rewrite Z.min_l by lia. f_equal. lia.
    + rewrite Z.min_r by lia.
      replace (Z.to_nat (Z.of_nat (List.length l) - Z.of_nat lo))
        with (List.length (skipn lo l)) by (rewrite length_skipn; lia).
      rewrite firstn_all. symmetry. apply firstn_all2.
      rewrite length_skipn. lia.
Qed.

Lemma chunks_concat {A} (w k : nat) (l : list A) :
  List.length l <= w * k ->
  concat (map (fun p => firstn w (skipn (w * p) l)) (seq 0 k)) = l.
Proof.
  revert l. induction k as [|k IH]; intros l Hlen.
  - destruct l; [reflexivity | simpl in Hlen; lia].
  - cbn [seq map concat]. rewrite Nat.mul_0_r. cbn [skipn].
    rewrite <- seq_shift, map_map.
    transitivity (firstn w l ++ skipn w l); [|apply firstn_skipn].
    f_equal.
    transitivity (concat (map (fun p => firstn w (skipn (w * p) (skipn w l)))
                              (seq 0 k)));
      [|apply IH; rewrite length_skipn; lia].
    f_equal. apply map_ext. intros p.
    rewrite skipn_skipn. f_equal. f_equal. lia.
Qed.

End Pages.

Section PageFacts.

Import Py App AppProps.

Lemma page_is_chunk (results : list Result) (p : nat) :
  current_page_results (Z.of_nat p) results
  = firstn 10 (skipn (10 * p) results).
Proof.
  unfold current_page_results, page_size.
  replace (Z.of_nat p * 10)%Z with (Z.of_nat (10 * p)) by lia.
  apply (slice_from results (10 * p) 10).
Qed.

Lemma total_pages_pos (results : list Result) : (1 <= total_pages results)%Z.
Proof.
  unfold total_pages, page_size, len. destruct results as [|r rs]; [lia|].
  assert (0 <= (Z.of_nat (List.length (r :: rs)) - 1) / 10)%Z; [|lia].
  apply Z.div_pos; simpl List.length; lia.
Qed.

(** The last page starts inside the list, and the pages cover it. *)
Lemma total_pages_bounds (results : list Result) :
  results <> [] ->
  (10 * (total_pages results - 1) < len results <= 10 * total_pages results)%Z.
Proof.
  unfold total_pages, page_size, len. destruct results as [|r rs];
    [congruence|]. intros _.
  set (n := Z.of_nat (List.length (r :: rs))).
  assert (Hn : (1 <= n)%Z) by (unfold n; simpl List.length; lia).
  pose proof (Z.div_mod (n - 1) 10 ltac:(lia)) as Hdm.
  pose proof (Z.mod_pos_bound (n - 1) 10 ltac:(lia)) as Hm.
  lia.
Qed.

Lemma page_length (results : list Result) (p : nat) :
  List.length (current_page_results (Z.of_nat p) results)
  = Nat.min 10 (List.length results - 10 * p).
Proof.
  now rewrite page_is_chunk, length_firstn, length_skipn.
Qed.

End PageFacts.

(** X29.  The pages of the front end partition the results: shown one
    after the other, pages [0 .. total_pages - 1] give back the result
    list, in order and without repetition.  Page [page] holds
    [min(10, len(results) - 10 * page)] results, so every page before
    the last holds ten and, when there are results at all, no page in
    range is empty. *)
Theorem pages_partition_results (results : list App.Result) (page : Z) :
  (0 <= page < App.total_pages results)%Z ->
  concat (map (fun p => App.current_page_results p results)
              (Py.range (App.total_pages results)))
  = results
  /\ Py.len (App.current_page_results page results)
     = Z.min 10 (Py.len results - 10 * page)
  /\ (results <> [] -> App.current_page_results page results <> [])
  /\ ((page < App.total_pages results - 1)%Z ->
      Py.len (App.current_page_results page results) = 10%Z).
Proof.
  intros Hpage.
  assert (Hbounds : results <> [] ->
            (10 * (App.total_pages results - 1) < Py.len results
             <= 10 * App.total_pages results)%Z)
    by apply total_pages_bounds.
  assert (Hlen : Py.len (App.current_page_results page results)
                 = Z.min 10 (Py.len results - 10 * page)).
  { rewrite <- (Z2Nat.id page) by lia.
    unfold Py.len at 1. rewrite page_length. unfold Py.len.
    destruct results as [|r rs];
      [unfold App.total_pages in Hpage; cbn [List.length]; lia|].
    specialize (Hbounds ltac:(discriminate)). unfold Py.len in Hbounds. lia. }
  split; [|split; [exact Hlen|split]].
  - unfold Py.range. rewrite map_map.
    rewrite (map_ext _ (fun p => firstn 10 (skipn (10 * p) results)))
      by (intros p; apply page_is_chunk).
    apply chunks_concat.
    destruct results as [|r rs]; [simpl; lia|].
    specialize (Hbounds ltac:(discriminate)). unfold Py.len in Hbounds. lia.
  - intros Hne E. rewrite E in Hlen. specialize (Hbounds Hne).
    unfold Py.len in Hlen at 1. cbn [List.length] in Hlen. lia.
  - intros Hnotlast. rewrite Hlen.
    destruct results as [|r rs].
    + unfold App.total_pages in *. lia.
    + specialize (Hbounds ltac:(discriminate)). lia.
Qed.

Lemma pages_partition_results_witness :
  let r := App.mkResult 1 [] [] 0 0 [] [] in
  Py.len (App.current_page_results 1 (repeat r 12)) = 2%Z.
Proof.
  intros r.
  refine (proj1 (proj2 (@pages_partition_results (repeat r 12) 1 _))).
  vm_compute. split; [discriminate | reflexivity].
Defined.

(** ** The session *)

Section SessionFacts.

Import Py App AppProps.

Lemma persist_fixed (r : Result) : persisted r -> persist r = r.
Proof.
  destruct r as [n o m s i f d]. unfold persisted, persist. simpl.
  now intros ->.
Qed.

Lemma update_at_fixed {A} (f : A -> A) (k : nat) (l : list A) :
  (forall x, nth_error l k = Some x -> f x = x) -> update_at f k l = l.
Proof.
  revert k. induction l as [|y l IH]; intros k Hf; [now destruct k|].
  destruct k as [|k]; simpl.
  - now rewrite (Hf y eq_refl).
  - now rewrite IH.
Qed.

Lemma position_in_range {A} (l : list A) (k : nat) :
  k < List.length l -> position l (Z.of_nat k) = Some k.
Proof.
  intros Hk. unfold position, len.
  replace (Z.of_nat k <? 0)%Z with false by (symmetry; apply Z.ltb_ge; lia).
  replace (0 <=? Z.of_nat k)%Z with true by (symmetry; apply Z.leb_le; lia).
  replace (Z.of_nat k <? Z.of_nat (List.length l))%Z with true
    by (symmetry; apply Z.ltb_lt; lia).
  cbn [andb]. now rewrite Nat2Z.id.
Qed.

(** On persisted results, and with the page inside the list, the
    display loop changes nothing and raises nothing. *)
Lemma display_loop_noop (results : list Result) (lo n i : nat) :
  Forall persisted results ->
  lo + i + n <= List.length results ->
  display_loop n i (Z.of_nat lo) lo results = Done results.
Proof.
  intros Hp. revert i. induction n as [|n IH]; intros i Hfit; [reflexivity|].
  cbn [display_loop].
  rewrite (update_at_fixed persist (lo + i) results).
  2:{ intros x Hx. apply persist_fixed. rewrite Forall_forall in Hp.
      apply Hp. eapply nth_error_In. exact Hx. }
  replace (Z.of_nat lo + Z.of_nat i)%Z with (Z.of_nat (lo + i)) by lia.
  rewrite position_in_range by lia.
  rewrite update_at_fixed.
  - apply IH. lia.
  - intros x Hx. now apply nth_error_nth.
Qed.

Lemma position_spec {A} (l : list A) (k : Z) (j : nat) :
  (if (k <? 0)%Z then k + len l else k)%Z = Z.of_nat j ->
  j < List.length l ->
  position l k = Some j.
Proof.
  intros Hk Hj. unfold position. rewrite Hk. unfold len.
  replace (0 <=? Z.of_nat j)%Z with true by (symmetry; apply Z.leb_le; lia).
  replace (Z.of_nat j <? Z.of_nat (List.length l))%Z with true
    by (symmetry; apply Z.ltb_lt; lia).
  cbn [andb]. now rewrite Nat2Z.id.
Qed.

(** Whatever the page number is, either the first store of the display
    loop raises, or every store lands on the position its dictionary
    came from: the loop never makes two positions share a dictionary. *)
Lemma store_lands_on_source (results : list Result) (page : Z) :
  position results (page * page_size) = None
  \/ forall i,
       i < List.length (current_page_results page results) ->
       position results (page * page_size + Z.of_nat i)
       = Some (Z.to_nat (adjust_index (len results) (page * page_size)) + i).
Proof.
  unfold current_page_results, slice, adjust_index, page_size.
  rewrite length_firstn, length_skipn.
  set (s := (page * 10)%Z). set (n := len results).
  assert (Hn : n = Z.of_nat (List.length results)) by reflexivity.
  destruct (Z.ltb_spec s 0) as [Hneg|Hpos].
  - destruct (Z.ltb_spec (s + n) 0) as [Hout|Hin].
    + left. unfold position. fold n.
      replace (s <? 0)%Z with true by (symmetry; apply Z.ltb_lt; lia).
      replace (0 <=? s + n)%Z with false by (symmetry; apply Z.leb_gt; lia).
      reflexivity.
    + right. intros i Hi.
      assert (Hs10 : (s <= -10)%Z) by (unfold s; lia).
      destruct (Z.ltb_spec (s + 10) 0) as [He|He].
      * apply position_spec; fold n.
        -- replace (s + Z.of_nat i <? 0)%Z with true
             by (symmetry; apply Z.ltb_lt; lia).
           lia.
        -- lia.
      * exfalso. lia.
  - right. intros i Hi.
    replace (s + 10 <? 0)%Z with false in Hi
      by (symmetry; apply Z.ltb_ge; lia).
    apply position_spec; fold n.
    + replace (s + Z.of_nat i <? 0)%Z with false
        by (symmetry; apply Z.ltb_ge; lia).
      lia.
    + lia.
Qed.

Lemma app_results_persisted (ocr_lines : list str) (reference_text : str)
      (threshold : Z) (rs : list Result) (log : list entry) :
  align_ocr_lines ocr_lines reference_text threshold = Align.Ok (rs, log) ->
  Forall persisted rs.
Proof.
  unfold align_ocr_lines. intros H.
  pose proof (app_align_loop_agrees (Align.normalize_hebrew reference_text)
                                    ocr_lines 1 [] []) as Hagree.
  rewrite H in Hagree. cbn [map] in Hagree.
  destruct (Inv.align_loop (Align.normalize_hebrew reference_text)
                             ocr_lines ([], [])) as [[rows l]|e];
    [|contradiction].
  destruct Hagree as (_ & _ & _ & Hp). apply Hp. constructor.
Qed.

(** The display of a valid state: no change, no exception. *)
Lemma display_valid (st : SessionState) :
  page_valid st -> Forall persisted (results st) ->
  display_loop
    (List.length (current_page_results (page st) (results st))) 0
    (page st * page_size)
    (Z.to_nat (adjust_index (len (results st)) (page st * page_size)))
    (results st)
  = Done (results st).
Proof.
  intros [Hlo Hhi] Hp.
  destruct (results st) as [|r rs] eqn:Er.
  - unfold total_pages in Hhi. assert (page st = 0%Z) as -> by lia.
    reflexivity.
  - rewrite <- Er in *.
    assert (Hne : results st <> []) by (rewrite Er; discriminate).
    pose proof (total_pages_bounds Hne) as Hb.
    set (p := Z.to_nat (page st)).
    assert (Hpage : page st = Z.of_nat p) by (unfold p; lia).
    rewrite Hpage, page_length.
    assert (Hstart : (Z.of_nat p * page_size)%Z = Z.of_nat (10 * p))
      by (unfold page_size; lia).
    rewrite Hstart.
    assert (Hadj : Z.to_nat (adjust_index (len (results st))
                                          (Z.of_nat (10 * p))) = 10 * p).
    { unfold adjust_index, len in *.
      replace (Z.of_nat (10 * p) <? 0)%Z with false
        by (symmetry; apply Z.ltb_ge; lia).
      lia. }
    rewrite Hadj. apply display_loop_noop; [exact Hp|].
    unfold len in Hb. lia.
Qed.

Lemma state_eta (st : SessionState) :
  mkState (page st) (results st) (confusions st) = st.
Proof. now destruct st. Qed.

Lemma run_alignment_valid (e : Event) (st : SessionState) :
  valid st ->
(run_alignment e st = Abort TypeError st /\ keeps_results e = false)
  \/ exists st1,
       run_alignment e st = Done st1 /\ valid st1
       /\ (keeps_results e = true -> st1 = st).
Proof.
  intros Hv. destruct e as [ocr_lines reference_text threshold| | |];
    try (right; exists st; split; [reflexivity|];
         split; [exact Hv | reflexivity]).
  cbn [run_alignment]. destruct ocr_lines as [|l ls].
  - right. exists st. split; [reflexivity|]. split; [exact Hv | reflexivity].
  - destruct (align_ocr_lines (l :: ls) reference_text threshold)
      as [[rs log]|x] eqn:E; [right | now left].
    exists (mkState 0 rs log). split; [reflexivity|]. split.
    + split.
      * unfold page_valid. cbn [page results].
        pose proof (total_pages_pos rs). lia.
      * cbn [results]. exact (app_results_persisted _ _ _ E).
    + cbn [keeps_results]. discriminate.
Qed.

Lemma navigation_valid (e : Event) (st : SessionState) :
  valid st ->
  valid (fst (navigation e (total_pages (results st)) st))
  /\ results (fst (navigation e (total_pages (results st)) st)) = results st
  /\ confusions (fst (navigation e (total_pages (results st)) st))
     = confusions st
  /\ (e = NoClick -> navigation e (total_pages (results st)) st = (st, false)).
Proof.
  intros [[Hlo Hhi] Hp]. destruct e; cbn [navigation].
  - repeat split; auto.
  - destruct (Z.gtb_spec (page st) 0) as [Hgt|Hle]; cbn [fst results page
                                                          confusions].
    + repeat split; auto; try discriminate; cbn [page results]; lia.
    + repeat split; auto; try discriminate.
  - destruct (Z.ltb_spec (page st) (total_pages (results st) - 1))
      as [Hlt|Hge]; cbn [fst results page confusions].
    + repeat split; auto; try discriminate; cbn [page results]; lia.
    + repeat split; auto; try discriminate.
  - repeat split; auto.
Qed.

(** One execution of the script on a valid state. *)
Lemma script_run_valid (e : Event) (st : SessionState) :
  valid st ->
(script_run e st = Abort TypeError (st, false) /\ keeps_results e = false)
  \/ exists st' rerun,
       script_run e st = Done (st', rerun) /\ valid st'
       /\ (keeps_results e = true ->
           results st' = results st /\ confusions st' = confusions st)
       /\ (e = NoClick -> st' = st).
Proof.
  intros Hv. unfold script_run.
  destruct (run_alignment_valid e Hv)
    as [[-> Hrun] | (st1 & -> & Hv1 & Hsame)]; [now left | right].
  destruct (results st1) as [|r rs] eqn:Er.
  - exists st1, false. split; [reflexivity|]. split; [exact Hv1|]. split.
    + intros Hk. now rewrite (Hsame Hk).
    + intros ->. now apply Hsame.
  - rewrite <- Er.
    rewrite (display_valid (proj1 Hv1) (proj2 Hv1)), state_eta.
    destruct (navigation_valid e Hv1) as (Hv' & Hres & Hconf & Hno).
    destruct (navigation e (total_pages (results st1)) st1)
      as [st' rerun] eqn:En.
    cbn [fst] in *. exists st', rerun.
    split; [reflexivity|]. split; [exact Hv'|]. split.
    + intros Hk. rewrite Hres, Hconf. now rewrite (Hsame Hk).
    + intros ->. specialize (Hno eq_refl). injection Hno as -> _.
      now apply Hsame.
Qed.

(** A click, with the rerun it may cause, on a valid state. *)
Lemma script_valid (e : Event) (st : SessionState) :
  valid st ->
  script e st = Abort TypeError st
  \/ exists st',
       script e st = Done st' /\ valid st'
       /\ (keeps_results e = true ->
           results st' = results st /\ confusions st' = confusions st).
Proof.
  intros Hv. unfold script.
  destruct (script_run_valid e Hv)
    as [[-> _] | (st' & rerun & -> & Hv' & Hkeep & _)]; [now left | right].
  destruct rerun; [|now exists st'].
  destruct (script_run_valid NoClick Hv')
    as [[_ H] | (st'' & rerun' & -> & Hv'' & _ & Hno)]; [discriminate H|].
  specialize (Hno eq_refl). subst st''. now exists st'.
Qed.

Lemma session_valid (events : list Event) (st : SessionState) :
  valid st ->
  valid (fold_left (fun st e => state_of (script e st)) events st).
Proof.
  revert st. induction events as [|e events IH]; intros st Hv; [exact Hv|].
  cbn [fold_left]. apply IH.
  destruct (script_valid e Hv) as [-> | (st' & -> & Hv' & _)];
    [exact Hv | exact Hv'].
Qed.

Lemma initial_valid : valid initial.
Proof.
  split; [unfold page_valid; cbn; lia | constructor].
Qed.

Lemma page_nonempty (st : SessionState) :
  page_valid st -> results st <> [] ->
  current_page_results (page st) (results st) <> [].
Proof.
  intros [Hlo Hhi] Hne E.
  pose proof (total_pages_bounds Hne) as Hb.
  pose proof (page_length (results st) (Z.to_nat (page st))) as Hlen.
  rewrite Z2Nat.id in Hlen by exact Hlo. rewrite E in Hlen.
  unfold len in Hb. cbn [List.length] in Hlen. lia.
Qed.

End SessionFacts.

